(** * libint2 C++11 engine (include/libint2/engine.h): a shallow embedding

    The development follows the header: the one-body engine
    ([OneBodyEngine]), the two-body engine ([TwoBodyEngine]) and the
    conversion of geminal parameters ([init_core_ints_params]).

    Conventions of the embedding.
    - [LIBINT2_REALTYPE] ([double]) is embedded as the real numbers: every
      arithmetic expression of the source is kept operation for operation,
      evaluated exactly.  Decimal literals of the source are the rationals
      they denote.
    - [size_t] products are taken modulo [2^64] ([size_mul]).
    - [assert], [throw] and an access past the end of a [std::vector] are
      the three abnormal outcomes of a call ([outcome]).
    - Build-time macros of [libint2.h] are the fields of [Libint2Config];
      the generated recurrence kernels, the core-function evaluators and the
      solid-harmonics transforms are the fields of [Libint2Library]. *)

From Stdlib Require Import Reals Lra Lia ZArith NArith Bool String Machin.
From stdpp Require Import base list.

Local Open Scope R_scope.

(** ** Outcomes of a call *)

Inductive outcome (A : Type) : Type :=
| Returned (a : A)          (* the call returns [a] *)
| AssertionFailed           (* an [assert] does not hold: the process aborts *)
| Thrown (what : string)    (* an exception is thrown, [what] its message *)
| OutOfBounds.              (* [v[i]] with [i >= v.size()]: undefined behaviour *)

Arguments Returned {A} a.
Arguments AssertionFailed {A}.
Arguments Thrown {A} what.
Arguments OutOfBounds {A}.

#[export] Instance outcome_ret : MRet outcome := fun A a => Returned a.

#[export] Instance outcome_bind : MBind outcome := fun A B f m =>
  match m with
  | Returned a => f a
  | AssertionFailed => AssertionFailed
  | Thrown w => Thrown w
  | OutOfBounds => OutOfBounds
  end.

Definition assert (b : bool) : outcome unit :=
  if b then Returned tt else AssertionFailed.

(** [v[i]] on a [std::vector]. *)
Definition at_index {A : Type} (v : list A) (i : nat) : outcome A :=
  match v !! i with
  | Some a => Returned a
  | None => OutOfBounds
  end.

(** [v[i] = f(v[i])]. *)
Definition update_at {A : Type} (v : list A) (i : nat) (f : A -> outcome A)
  : outcome (list A) :=
  a ← at_index v i; a' ← f a; mret (<[i := a']> v).

(** [for (i = 0; i != n; ++i) body(i)] over a threaded state. *)
Fixpoint for_loop {S : Type} (n : nat) (body : nat -> S -> outcome S) (s : S)
  : outcome S :=
  match n with
  | O => mret s
  | Datatypes.S n' => s' ← for_loop n' body s; body n' s'
  end.

(** An external routine fills the front of a target buffer with [src]. *)
Definition overwrite {A : Type} (src tgt : list A) : list A :=
  src ++ drop (length src) tgt.

(** [size_t] multiplication. *)
Definition size_mul (a b : N) : N := ((a * b) mod 2 ^ 64)%N.

(** The value of an [int] expression whose mathematical value is [z]:
    32 bits, two's complement. *)
Definition int_wrap (z : Z) : Z := ((z + 2 ^ 31) mod 2 ^ 32 - 2 ^ 31)%Z.
Arguments int_wrap : simpl never.

Definition length_error : string := "std::length_error".

(** [v.resize(n)] for an [int] [n]: the argument converts to [size_t], and
    for a negative [n] the result, at least [2^64 - 2^31], is above
    [max_size()]: the vector throws [std::length_error]. *)
Definition resize_int {A : Type} (n : Z) (x : A) (v : list A) : outcome (list A) :=
  if (n <? 0)%Z then Thrown length_error else Returned (resize (Z.to_nat n) x v).

(** ** Shells (libint2/shell.h) *)

(** [std::array<double,3>] *)
Definition vec3 : Type := R * R * R.

Definition get3 (v : vec3) (i : nat) : R :=
  match v, i with
  | (a, _, _), O => a
  | (_, b, _), Datatypes.S O => b
  | (_, _, c), _ => c
  end.

Notation "v .[ i ]" := (get3 v i) (at level 1, format "v .[ i ]").

Module Contraction.
Record t : Type := mk { l : nat; pure : bool; coeff : list R }.
(** Modelled from the spec: [shell.h] is not among the sources; a shell has
    a Cartesian size and a logical (solid-harmonic when pure) size. *)
Definition cartesian_size (c : t) : nat := ((l c + 1) * (l c + 2)) `div` 2.
Definition size (c : t) : nat := if pure c then 2 * l c + 1 else cartesian_size c.
End Contraction.

Module Shell.
Record t : Type := mk { alpha : list R; contr : list Contraction.t; O : vec3 }.
Definition ncontr (s : t) : nat := length (contr s).
Definition nprim (s : t) : nat := length (alpha s).
(** Modelled from the spec: [shell.h] is not among the sources; the sizes of
    a shell add up the sizes of its contractions. *)
Definition cartesian_size (s : t) : nat :=
  foldr (fun c n => (Contraction.cartesian_size c + n)%nat) 0%nat (contr s).
Definition size (s : t) : nat :=
  foldr (fun c n => (Contraction.size c + n)%nat) 0%nat (contr s).
(** [s.contr[0]]; every use follows [assert(s.ncontr() == 1)]. *)
Definition contr0 (s : t) : Contraction.t :=
  default (Contraction.mk 0%nat false []) (contr s !! 0%nat).
(** [s.alpha[p]] and [s.contr[0].coeff[p]], read inside [p < nprim()]. *)
Definition alpha_at (s : t) (p : nat) : R := default 0 (alpha s !! p).
Definition coeff_at (s : t) (p : nat) : R :=
  default 0 (Contraction.coeff (contr0 s) !! p).
End Shell.

(** ** The primitive-data record [Libint_t] (libint2.h) *)

Inductive axis : Set := a_x | a_y | a_z.

(** Scalar members of [Libint_t] the engine writes; [PA a_x] is [PA_x[0]]. *)
Inductive field : Set :=
| PA (a : axis) | PB (a : axis) | AB (a : axis) | BA (a : axis)
| PC (a : axis)
| QC (a : axis) | QD (a : axis) | CD (a : axis) | DC (a : axis)
| WP (a : axis) | WQ (a : axis)
| oo2z | oo2e | oo2ze | roz | roe
| rho12_over_alpha1 | rho12_over_alpha2 | two_rho12
| rho34_over_alpha3 | rho34_over_alpha4
| alpha1_rho_over_zeta2 | alpha2_rho_over_zeta2
| alpha3_rho_over_eta2 | alpha4_rho_over_eta2
| alpha1_over_zetapluseta | alpha2_over_zetapluseta
| alpha3_over_zetapluseta | alpha4_over_zetapluseta
| two_alpha0_bra | two_alpha0_ket | two_alpha1_bra | two_alpha1_ket
| LIBINT_T_S_OVERLAP_S | LIBINT_T_S_KINETIC_S.

#[export] Instance axis_eq_dec : EqDecision axis.
Proof. solve_decision. Defined.

#[export] Instance field_eq_dec : EqDecision field.
Proof. solve_decision. Defined.

Record Libint_t : Type := mkLibint {
  scalar : field -> R;
  (* [LIBINT_T_S_ELECPOT_S(m)[0]] *)
  LIBINT_T_S_ELECPOT_S : nat -> R;
  (* [LIBINT_T_SS_EREP_SS(m)[0]] *)
  LIBINT_T_SS_EREP_SS : nat -> R;
  contrdepth : nat;
  stack : list R;
  (* the buffer [targets[0]] points to *)
  targets0 : list R
}.

Definition set_scalar (f : field) (v : R) (r : Libint_t) : Libint_t :=
  mkLibint (fun g => if decide (g = f) then v else scalar r g)
    (LIBINT_T_S_ELECPOT_S r) (LIBINT_T_SS_EREP_SS r)
    (contrdepth r) (stack r) (targets0 r).

Definition set_elecpot (fm : nat -> R) (r : Libint_t) : Libint_t :=
  mkLibint (scalar r) fm (LIBINT_T_SS_EREP_SS r)
    (contrdepth r) (stack r) (targets0 r).

Definition set_erep (fm : nat -> R) (r : Libint_t) : Libint_t :=
  mkLibint (scalar r) (LIBINT_T_S_ELECPOT_S r) fm
    (contrdepth r) (stack r) (targets0 r).

Definition set_contrdepth (n : nat) (r : Libint_t) : Libint_t :=
  mkLibint (scalar r) (LIBINT_T_S_ELECPOT_S r) (LIBINT_T_SS_EREP_SS r)
    n (stack r) (targets0 r).

Definition set_stack (st : list R) (r : Libint_t) : Libint_t :=
  mkLibint (scalar r) (LIBINT_T_S_ELECPOT_S r) (LIBINT_T_SS_EREP_SS r)
    (contrdepth r) st (targets0 r).

Definition set_targets0 (t : list R) (r : Libint_t) : Libint_t :=
  mkLibint (scalar r) (LIBINT_T_S_ELECPOT_S r) (LIBINT_T_SS_EREP_SS r)
    (contrdepth r) (stack r) t.

(** [fm_ptr[m]] for [m] in [0, mmax]: written by the evaluator, then scaled
    in place by [pfac]; the entries above [mmax] keep their values. *)
Definition eval_and_scale (fm : nat -> R) (mmax : nat) (pfac : R)
  (old : nat -> R) : nat -> R :=
  fun m => if (m <=? mmax)%nat then fm m * pfac else old m.

(** ** Build-time configuration and the external libraries *)

Class Libint2Config : Type := {
  (* [LIBINT2_SHELLQUARTET_SET == LIBINT2_SHELLQUARTET_SET_STANDARD] *)
  SHELLQUARTET_SET_STANDARD : bool;
  (* [LIBINT2_DEFINED(eri, f)] *)
  LIBINT2_DEFINED : field -> bool;
  LIBINT2_MAX_AM_overlap : Z;
  LIBINT2_MAX_AM_kinetic : Z;
  LIBINT2_MAX_AM_elecpot : Z;
  LIBINT2_MAX_AM_ERI : Z;
  LIBINT2_DERIV_ONEBODY_ORDER : N;
  LIBINT2_DERIV_ERI_ORDER : N
}.

(** A member assignment guarded by [#if LIBINT2_DEFINED(eri,f)], and a
    sequence of them in source order. *)
Definition set_if_defined {C : Libint2Config} (f : field) (v : R) (r : Libint_t)
  : Libint_t :=
  if LIBINT2_DEFINED f then set_scalar f v r else r.

Definition write_all {C : Libint2Config} (ws : list (field * R)) (r : Libint_t)
  : Libint_t :=
  foldl (fun r w => set_if_defined w.1 w.2 r) r ws.

(** contracted Gaussian geminal: a vector of (exponent, coefficient) pairs *)
Abbreviation ContractedGaussianGeminal := (list (R * R)).

Class Libint2Library : Type := {
  (* [FmEval_Chebyshev3::eval(Fm, T, mmax)]: [fm_eval T mmax m] is [Fm[m]] *)
  fm_eval : R -> nat -> nat -> R;
  (* [GaussianGmEval<Real,K>::eval(Gm, rho, T, mmax, params)] *)
  gm_eval : Z -> R -> R -> nat -> ContractedGaussianGeminal -> nat -> R;
  (* [libint2_build_overlap[l1][l2](&primdata_[0])] and its siblings: the
     contents of the buffer [targets[0]] points to afterwards *)
  libint2_build_overlap : nat -> nat -> list Libint_t -> list R;
  libint2_build_kinetic : nat -> nat -> list Libint_t -> list R;
  libint2_build_elecpot : nat -> nat -> list Libint_t -> list R;
  libint2_build_eri : nat -> nat -> nat -> nat -> list Libint_t -> list R;
  (* [libint2_init_*(&primdata_[0], lmax, 0)] *)
  libint2_init : list Libint_t -> list Libint_t;
  (* [solidharmonics::tform(l1, l2, src, tgt)]: the contents of [tgt] *)
  tform : nat -> nat -> list R -> list R;
  tform_rows : nat -> nat -> list R -> list R;
  tform_cols : nat -> nat -> list R -> list R;
  transform_first : nat -> nat -> list R -> list R;
  transform_inner : nat -> nat -> nat -> list R -> list R;
  transform_last : nat -> nat -> list R -> list R
}.

(** [std::vector<Libint_t>(n)]: value-initialised records. *)
Definition Libint_t_zero : Libint_t :=
  mkLibint (fun _ => 0) (fun _ => 0) (fun _ => 0) 0%nat [] [].

(** ** OneBodyEngine *)

Module OneBodyEngine.

Inductive type : Set := overlap | kinetic | nuclear | _invalid.

#[global] Instance type_eq_dec : EqDecision type.
Proof. solve_decision. Defined.

(** The evaluator [fm_eval_] is the library's [fm_eval]. *)
Record t : Type := mk {
  type_ : type;
  primdata_ : list Libint_t;
  lmax_ : Z;
  deriv_order_ : N;
  q_ : list (R * vec3);
  scratch_ : list R
}.

Definition with_primdata (pd : list Libint_t) (e : t) : t :=
  mk (type_ e) pd (lmax_ e) (deriv_order_ e) (q_ e) (scratch_ e).

Definition with_scratch (sc : list R) (e : t) : t :=
  mk (type_ e) (primdata_ e) (lmax_ e) (deriv_order_ e) (q_ e) sc.

(** [OneBodyEngine()] *)
Definition default_engine : t := mk _invalid [] (-1) 0 [] [].

(** [set_q(q)]: [q_ = q]. *)
Definition set_q (q : list (R * vec3)) (e : t) : t :=
  mk (type_ e) (primdata_ e) (lmax_ e) (deriv_order_ e) q (scratch_ e).

Definition sqrt_PI_cubed : R := 5.56832799683170784528481798212.
Definition two_o_sqrt_PI : R := 1.12837916709551257389615890312.

Section Engine.
Context {C : Libint2Config} {L : Libint2Library}.

Definition initialize (e : t) : outcome t :=
  let ncart_max := (((lmax_ e + 1) * (lmax_ e + 2)) `quot` 2)%Z in
  _ ← match type_ e with
      | overlap => assert (lmax_ e <=? LIBINT2_MAX_AM_overlap)%Z
      | kinetic => assert (lmax_ e <=? LIBINT2_MAX_AM_kinetic)%Z
      | nuclear => assert (lmax_ e <=? LIBINT2_MAX_AM_elecpot)%Z
      | _invalid => assert false
      end;
  _ ← assert (deriv_order_ e <=? LIBINT2_DERIV_ONEBODY_ORDER)%N;
  let init_and_resize (factor : Z) :=
    mk (type_ e) (libint2_init (primdata_ e)) (lmax_ e) (deriv_order_ e) (q_ e)
      (resize (Z.to_nat (factor * ncart_max * ncart_max)) 0 (scratch_ e)) in
  match deriv_order_ e with
  | 0%N => mret (init_and_resize 1%Z)
  | 1%N =>
      if (0 <? LIBINT2_DERIV_ONEBODY_ORDER)%N then mret (init_and_resize 3%Z)
      else mret e
  | 2%N =>
      if (1 <? LIBINT2_DERIV_ONEBODY_ORDER)%N then mret (init_and_resize 6%Z)
      else mret e
  | _ => _ ← assert (deriv_order_ e <? 3)%N; mret e
  end.

(** [OneBodyEngine(t, max_nprim, max_l, deriv_order)] *)
Definition make (ty : type) (max_nprim : N) (max_l : Z) (deriv_order : N)
  : outcome t :=
  initialize
    (mk ty (replicate (N.to_nat (size_mul max_nprim max_nprim)) Libint_t_zero)
       max_l deriv_order [] []).

(** [OneBodyEngine(const OneBodyEngine& other)]: the members of the
    initialiser list, value-initialised records, an empty [scratch_]. *)
Definition copy (other : t) : outcome t :=
  initialize
    (mk (type_ other) (replicate (length (primdata_ other)) Libint_t_zero)
       (lmax_ other) (deriv_order_ other) (q_ other) []).

(** [operator=(const OneBodyEngine& other)] on [this]. *)
Definition assign (this other : t) : outcome t :=
  initialize
    (mk (type_ other)
       (resize (length (primdata_ other)) Libint_t_zero (primdata_ this))
       (lmax_ other) (deriv_order_ other) (q_ other) (scratch_ this)).

(** The local values of [compute_primdata] for the primitive pair
    ([p1], [p2]) of ([s1], [s2]). *)
Record pair_locals : Type := mk_locals {
  gammap : R; oogammap : R; rhop : R;
  Px : R; Py : R; Pz : R;
  AB2 : R
}.

Definition locals (s1 s2 : Shell.t) (p1 p2 : nat) : pair_locals :=
  let A := Shell.O s1 in
  let B := Shell.O s2 in
  let alpha1 := Shell.alpha_at s1 p1 in
  let alpha2 := Shell.alpha_at s2 p2 in
  let gammap := alpha1 + alpha2 in
  let oogammap := 1 / gammap in
  let rhop := alpha1 * alpha2 * oogammap in
  let Px := (alpha1 * A.[0] + alpha2 * B.[0]) * oogammap in
  let Py := (alpha1 * A.[1] + alpha2 * B.[1]) * oogammap in
  let Pz := (alpha1 * A.[2] + alpha2 * B.[2]) * oogammap in
  let AB_x := A.[0] - B.[0] in
  let AB_y := A.[1] - B.[1] in
  let AB_z := A.[2] - B.[2] in
  let AB2 := AB_x * AB_x + AB_y * AB_y + AB_z * AB_z in
  mk_locals gammap oogammap rhop Px Py Pz AB2.

(** The block under "always VRR on bra". *)
Definition write_bra_offsets (A B : vec3) (v : pair_locals) : Libint_t -> Libint_t :=
  write_all
    [ (PA a_x, Px v - A.[0]); (PA a_y, Py v - A.[1]); (PA a_z, Pz v - A.[2]);
      (AB a_x, A.[0] - B.[0]); (AB a_y, A.[1] - B.[1]); (AB a_z, A.[2] - B.[2]) ].

(** The block under "always VRR on ket". *)
Definition write_ket_offsets (A B : vec3) (v : pair_locals) : Libint_t -> Libint_t :=
  write_all
    [ (PB a_x, Px v - B.[0]); (PB a_y, Py v - B.[1]); (PB a_z, Pz v - B.[2]);
      (BA a_x, B.[0] - A.[0]); (BA a_y, B.[1] - A.[1]); (BA a_z, B.[2] - A.[2]) ].

(** "additional factors for kinetic energy" *)
Definition write_kinetic_factors (alpha1 alpha2 : R) (v : pair_locals)
  : Libint_t -> Libint_t :=
  write_all
    [ (rho12_over_alpha1, alpha2 * oogammap v);
      (rho12_over_alpha2, alpha1 * oogammap v);
      (two_rho12, 2 * rhop v) ].

(** "additional factor for electrostatic potential" *)
Definition write_PC (C : vec3) (v : pair_locals) : Libint_t -> Libint_t :=
  write_all
    [ (PC a_x, Px v - C.[0]); (PC a_y, Py v - C.[1]); (PC a_z, Pz v - C.[2]) ].

(** [ovlp_ss] *)
Definition ovlp_ss (v : pair_locals) (c1 c2 : R) : R :=
  let K1 := exp (- rhop v * AB2 v) * oogammap v in
  sqrt_PI_cubed * sqrt (oogammap v) * K1 * c1 * c2.

(** The body of [if (type_ == nuclear)] after [ovlp_ss]. *)
Definition write_elecpot (charge : R) (ltot : nat) (v : pair_locals) (c1 c2 : R)
  (primdata : Libint_t) : Libint_t :=
  let PC2 := scalar primdata (PC a_x) * scalar primdata (PC a_x) +
             scalar primdata (PC a_y) * scalar primdata (PC a_y) +
             scalar primdata (PC a_z) * scalar primdata (PC a_z) in
  let U := gammap v * PC2 in
  let pfac := - charge * sqrt (gammap v) * two_o_sqrt_PI * ovlp_ss v c1 c2 in
  set_elecpot (eval_and_scale (fm_eval U ltot) ltot pfac
                 (LIBINT_T_S_ELECPOT_S primdata)) primdata.

Definition compute_primdata (e : t) (primdata : Libint_t)
  (s1 s2 : Shell.t) (p1 p2 oset : nat) : outcome Libint_t :=
  let A := Shell.O s1 in
  let B := Shell.O s2 in
  let alpha1 := Shell.alpha_at s1 p1 in
  let alpha2 := Shell.alpha_at s2 p2 in
  let c1 := Shell.coeff_at s1 p1 in
  let c2 := Shell.coeff_at s2 p2 in
  let v := locals s1 s2 p1 p2 in
  let is_kinetic := bool_decide (type_ e = kinetic) in
  let is_nuclear := bool_decide (type_ e = nuclear) in
  let primdata :=
    if SHELLQUARTET_SET_STANDARD || is_kinetic
    then write_bra_offsets A B v primdata else primdata in
  let primdata :=
    if negb SHELLQUARTET_SET_STANDARD || is_kinetic
    then write_ket_offsets A B v primdata else primdata in
  let primdata := write_all [ (oo2z, 0.5 * oogammap v) ] primdata in
  let primdata :=
    if is_kinetic then write_kinetic_factors alpha1 alpha2 v primdata
    else primdata in
  primdata ←
    (if is_nuclear then
       qC ← at_index (q_ e) oset; mret (write_PC qC.2 v primdata)
     else mret primdata);
  _ ← (if (0 <? deriv_order_ e)%N then assert false else mret tt);
  let primdata := set_scalar LIBINT_T_S_OVERLAP_S (ovlp_ss v c1 c2) primdata in
  let primdata :=
    if is_kinetic then
      set_scalar LIBINT_T_S_KINETIC_S
        (rhop v * (3 - 2 * rhop v * AB2 v) * ovlp_ss v c1 c2) primdata
    else primdata in
  if is_nuclear then
    if LIBINT2_DEFINED (PC a_x) && LIBINT2_DEFINED (PC a_y) &&
       LIBINT2_DEFINED (PC a_z) then
      let ltot := (Contraction.l (Shell.contr0 s1) +
                   Contraction.l (Shell.contr0 s2))%nat in
      qC ← at_index (q_ e) oset;
      mret (write_elecpot qC.1 ltot v c1 c2 primdata)
    else mret primdata
  else mret primdata.

(** The primitive-pair loops of [compute]: [p12] runs with [pk]. *)
Definition assemble (e : t) (bra ket : Shell.t) (oset : nat)
  (primdata : list Libint_t) : outcome (nat * list Libint_t) :=
  for_loop (Shell.nprim bra) (fun pb st =>
    for_loop (Shell.nprim ket) (fun pk '(p12, pd) =>
      pd ← update_at pd p12 (fun r => compute_primdata e r bra ket pb pk oset);
      mret (S p12, pd)) st) (0%nat, primdata).

(** [for (p12 = 0; p12 != primdata_[0].contrdepth; ++p12)
       result += primdata_[p12].member;]
    with [result] bound to [primdata_[0].stack[0]]. *)
Definition accumulate_ss (member : Libint_t -> R) (primdata : list Libint_t)
  : outcome (list Libint_t) :=
  r0 ← at_index primdata 0;
  result ← at_index (stack r0) 0;
  result ← for_loop (contrdepth r0) (fun p12 result =>
              r ← at_index primdata p12; mret (result + member r)) result;
  update_at primdata 0 (fun r => mret (set_stack (<[0%nat := result]> (stack r)) r)).

(** [memset(&scratch_[0], 0, sizeof(LIBINT2_REALTYPE)*n)] *)
Definition memset0 (n : nat) (scratch : list R) : outcome (list R) :=
  for_loop n (fun i sc => update_at sc i (fun _ => mret 0)) scratch.

(** [set12 += braket] or [set12 += braket.transpose()], with [braket] the
    row-major [ncart_bra] x [ncart_ket] view of [targets[0]] and [set12]
    the row-major [ncart1] x [ncart2] view of [scratch_]. *)
Definition add_to_set12 (swap : bool) (ncart_bra ncart_ket ncart1 ncart2 : nat)
  (braket scratch : list R) : outcome (list R) :=
  for_loop ncart1 (fun i sc =>
    for_loop ncart2 (fun j sc =>
      update_at sc (i * ncart2 + j) (fun v =>
        b ← at_index braket (if swap then j * ncart_ket + i else i * ncart_ket + j);
        mret (v + b))) sc) scratch.

Definition no_nuclei_message : string :=
  "libint2::OneBodyEngine(type = nuclear), but no nuclei found; forgot to call set_q()?".

(** Which of the two buffers a result pointer designates. *)
Inductive buffer : Set := in_scratch | in_targets0.

(** The statement under [if (lmax == 0) ... else if (use_scratch) ...]
    that clears the accumulation target. *)
Definition clear_target (lmax : nat) (use_scratch : bool) (ncart1 ncart2 : nat)
  (e : t) : outcome t :=
  if (lmax =? 0)%nat then
    pd ← update_at (primdata_ e) 0 (fun r =>
           st ← update_at (stack r) 0 (fun _ => mret 0);
           mret (set_stack st r));
    mret (with_primdata pd e)
  else if use_scratch then
    sc ← memset0 (ncart1 * ncart2) (scratch_ e);
    mret (with_scratch sc e)
  else mret e.

(** One pass of the loop over operator components. *)
Definition operset_pass (bra ket : Shell.t) (swap use_scratch : bool)
  (lmax ncart1 ncart2 : nat) (oset : nat) (e : t) : outcome t :=
  '(p12, pd) ← assemble e bra ket oset (primdata_ e);
  pd ← update_at pd 0 (fun r => mret (set_contrdepth p12 r));
  if (lmax =? 0)%nat then
    pd ← match type_ e with
         | overlap => accumulate_ss (fun r => scalar r LIBINT_T_S_OVERLAP_S) pd
         | kinetic => accumulate_ss (fun r => scalar r LIBINT_T_S_KINETIC_S) pd
         | nuclear => accumulate_ss (fun r => LIBINT_T_S_ELECPOT_S r 0) pd
         | _invalid => _ ← assert false; mret pd
         end;
    pd ← update_at pd 0 (fun r => mret (set_targets0 (stack r) r));
    mret (with_primdata pd e)
  else
    let lb := Contraction.l (Shell.contr0 bra) in
    let lk := Contraction.l (Shell.contr0 ket) in
    out ← match type_ e with
          | overlap => mret (libint2_build_overlap lb lk pd)
          | kinetic => mret (libint2_build_kinetic lb lk pd)
          | nuclear => mret (libint2_build_elecpot lb lk pd)
          | _invalid => _ ← assert false; mret []
          end;
    pd ← update_at pd 0 (fun r => mret (set_targets0 out r));
    let e := with_primdata pd e in
    if use_scratch then
      let ncart_bra := Shell.cartesian_size bra in
      let ncart_ket := Shell.cartesian_size ket in
      sc ← add_to_set12 swap ncart_bra ncart_ket ncart1 ncart2 out (scratch_ e);
      mret (with_scratch sc e)
    else mret e.

(** The block the solid-harmonics routine selected by the purity flags
    writes, from the Cartesian block [cartesian]. *)
Definition to_solid (s1 s2 : Shell.t) (cartesian : list R) : list R :=
  let l1 := Contraction.l (Shell.contr0 s1) in
  let l2 := Contraction.l (Shell.contr0 s2) in
  let n1 := Shell.size s1 in
  let n2 := Shell.size s2 in
  let pure1 := Contraction.pure (Shell.contr0 s1) in
  let pure2 := Contraction.pure (Shell.contr0 s2) in
  if pure1 && pure2 then tform l1 l2 cartesian
  else if pure1 then tform_rows l1 n2 cartesian
  else tform_cols n1 l2 cartesian.

(** The tail of [compute]: the choice of [cartesian_ints] and the
    transformation to solid harmonics. *)
Definition finish (s1 s2 : Shell.t) (use_scratch : bool) (lmax : nat) (e : t)
  : outcome (list R * t) :=
  r0 ← at_index (primdata_ e) 0;
  let cartesian_ints :=
    if use_scratch && negb (lmax =? 0)%nat then in_scratch else in_targets0 in
  let cartesian := match cartesian_ints with
                   | in_scratch => scratch_ e
                   | in_targets0 => targets0 r0
                   end in
  let pure1 := Contraction.pure (Shell.contr0 s1) in
  let pure2 := Contraction.pure (Shell.contr0 s2) in
  if pure1 || pure2 then
    match cartesian_ints with
    | in_scratch =>
        let spherical := overwrite (to_solid s1 s2 cartesian) (targets0 r0) in
        pd ← update_at (primdata_ e) 0 (fun r => mret (set_targets0 spherical r));
        mret (spherical, with_primdata pd e)
    | in_targets0 =>
        let spherical := overwrite (to_solid s1 s2 cartesian) (scratch_ e) in
        mret (spherical, with_scratch spherical e)
    end
  else mret (cartesian, e).

Definition compute (e : t) (s1 s2 : Shell.t) : outcome (list R * t) :=
  _ ← assert ((Shell.ncontr s1 =? 1)%nat && (Shell.ncontr s2 =? 1)%nat);
  _ ← assert (deriv_order_ e =? 0)%N;
  let l1 := Contraction.l (Shell.contr0 s1) in
  let l2 := Contraction.l (Shell.contr0 s2) in
  let is_nuclear := bool_decide (type_ e = nuclear) in
  if is_nuclear && (length (q_ e) =? 0)%nat then Thrown no_nuclei_message else
  let swap := if SHELLQUARTET_SET_STANDARD then (l1 <? l2)%nat else (l2 <? l1)%nat in
  let bra := if negb swap then s1 else s2 in
  let ket := if negb swap then s2 else s1 in
  let ncart1 := Shell.cartesian_size s1 in
  let ncart2 := Shell.cartesian_size s2 in
  let use_scratch := swap || is_nuclear in
  let nprim_bra := Shell.nprim bra in
  let nprim_ket := Shell.nprim ket in
  let nprimpairs := size_mul (N.of_nat nprim_bra) (N.of_nat nprim_ket) in
  _ ← assert (nprimpairs <=? N.of_nat (length (primdata_ e)))%N;
  let lmax := (l1 `max` l2)%nat in
  _ ← assert (Z.of_nat lmax <=? lmax_ e)%Z;
  e ← clear_target lmax use_scratch ncart1 ncart2 e;
  let num_operset := if is_nuclear then length (q_ e) else 1%nat in
  e ← for_loop num_operset
         (operset_pass bra ket swap use_scratch lmax ncart1 ncart2) e;
  finish s1 s2 use_scratch lmax e.

End Engine.
End OneBodyEngine.

(** ** TwoBodyEngine *)

Inductive MultiplicativeSphericalTwoBodyKernel : Set :=
| Coulomb | cGTG | cGTG_times_Coulomb | DelcGTG_square.

#[export] Instance kernel_eq_dec : EqDecision MultiplicativeSphericalTwoBodyKernel.
Proof. solve_decision. Defined.

(** [tgt_blk_mat = expr] for an [Eigen::Map] of [rows] x [cols] entries laid
    out by [tgt_index]; [expr i j] reads the source. *)
Definition assign_block (rows cols : nat) (tgt_index : nat -> nat -> nat)
  (expr : nat -> nat -> outcome R) (tgt : list R) : outcome (list R) :=
  for_loop rows (fun i t =>
    for_loop cols (fun j t =>
      update_at t (tgt_index i j) (fun _ => expr i j)) t) tgt.

Module TwoBodyEngine.

(** The four selections [bra1], [bra2], [ket1], [ket2] of [compute]; the
    reference loop under [FORCE_SOLID_TFORM_CHECK] selects [j1 .. j4] from
    [i1 .. i4] by the same four expressions. *)
Definition canonical_order {A : Type} (swap_braket swap_bra swap_ket : bool)
  (tbra1 tbra2 tket1 tket2 : A) : A * A * A * A :=
  let bra1 := if swap_braket then (if swap_ket then tket2 else tket1)
              else (if swap_bra then tbra2 else tbra1) in
  let bra2 := if swap_braket then (if swap_ket then tket1 else tket2)
              else (if swap_bra then tbra1 else tbra2) in
  let ket1 := if swap_braket then (if swap_bra then tbra2 else tbra1)
              else (if swap_ket then tket2 else tket1) in
  let ket2 := if swap_braket then (if swap_bra then tbra1 else tbra2)
              else (if swap_ket then tket1 else tket2) in
  (bra1, bra2, ket1, ket2).

(** The template parameter [Kernel] is the first field. *)
Record t : Type := mk {
  Kernel : MultiplicativeSphericalTwoBodyKernel;
  primdata_ : list Libint_t;
  lmax_ : Z;
  deriv_order_ : N;
  core_ints_params_ : ContractedGaussianGeminal;
  scratch_ : list R
}.

Definition with_primdata (pd : list Libint_t) (e : t) : t :=
  mk (Kernel e) pd (lmax_ e) (deriv_order_ e) (core_ints_params_ e) (scratch_ e).

Definition with_scratch (sc : list R) (e : t) : t :=
  mk (Kernel e) (primdata_ e) (lmax_ e) (deriv_order_ e) (core_ints_params_ e) sc.

Definition with_core_ints_params (ps : ContractedGaussianGeminal) (e : t) : t :=
  mk (Kernel e) (primdata_ e) (lmax_ e) (deriv_order_ e) ps (scratch_ e).

(** [TwoBodyEngine<DelcGTG_square>::init_core_ints_params]: the
    [push_back]s onto [core_ints_params_]. *)
Definition init_core_ints_params_DelcGTG_square
  (oparams core_ints_params : ContractedGaussianGeminal)
  : outcome ContractedGaussianGeminal :=
  let ng := length oparams in
  for_loop ng (fun b ps =>
    for_loop (S b) (fun k ps =>
      ob ← at_index oparams b;
      ok ← at_index oparams k;
      let gexp := ob.1 + ok.1 in
      let gcoeff := ob.2 * ok.2 * (if (b =? k)%nat then 1 else 2) in
      let gcoeff_rescaled := 4 * ob.1 * ok.1 * gcoeff in
      mret (ps ++ [(gexp, gcoeff_rescaled)])) ps) core_ints_params.

Definition init_core_ints_params (oparams : ContractedGaussianGeminal) (e : t)
  : outcome t :=
  match Kernel e with
  | DelcGTG_square =>
      ps ← init_core_ints_params_DelcGTG_square oparams (core_ints_params_ e);
      mret (with_core_ints_params ps e)
  | _ => mret (with_core_ints_params oparams e)
  end.

Definition two_times_M_PI_to_25 : R := 34.986836655249725693.

Section Engine.
Context {C : Libint2Config} {L : Libint2Library}.

Definition initialize (e : t) : outcome t :=
  let ncart_max :=
    int_wrap (int_wrap (int_wrap (lmax_ e + 1) * int_wrap (lmax_ e + 2)) `quot` 2) in
  let max_shellpair_size := int_wrap (ncart_max * ncart_max) in
  let max_shellset_size := int_wrap (max_shellpair_size * max_shellpair_size) in
  _ ← assert (lmax_ e <=? LIBINT2_MAX_AM_ERI)%Z;
  _ ← assert (deriv_order_ e <=? LIBINT2_DERIV_ONEBODY_ORDER)%N;
  let init_and_resize (n : Z) :=
    sc ← resize_int n 0 (scratch_ e);
    mret (mk (Kernel e) (libint2_init (primdata_ e)) (lmax_ e) (deriv_order_ e)
            (core_ints_params_ e) sc) in
  match deriv_order_ e with
  | 0%N => init_and_resize max_shellset_size
  | 1%N =>
      if (0 <? LIBINT2_DERIV_ERI_ORDER)%N
      then init_and_resize (int_wrap (9 * max_shellset_size))
      else mret e
  | 2%N =>
      if (1 <? LIBINT2_DERIV_ERI_ORDER)%N
      then init_and_resize (int_wrap (45 * max_shellset_size))
      else mret e
  | _ => _ ← assert (deriv_order_ e <? 3)%N; mret e
  end.

(** [TwoBodyEngine(max_nprim, max_l, deriv_order, oparams)] *)
Definition make (K : MultiplicativeSphericalTwoBodyKernel) (max_nprim : N)
  (max_l : Z) (deriv_order : N) (oparams : ContractedGaussianGeminal)
  : outcome t :=
  let n := size_mul (size_mul (size_mul max_nprim max_nprim) max_nprim) max_nprim in
  e ← initialize (mk K (replicate (N.to_nat n) Libint_t_zero) max_l deriv_order [] []);
  init_core_ints_params oparams e.

(** [TwoBodyEngine(const TwoBodyEngine& other)]: the records and the
    parameters are copied, [scratch_] starts empty. *)
Definition copy (other : t) : outcome t :=
  initialize
    (mk (Kernel other) (primdata_ other) (lmax_ other) (deriv_order_ other)
       (core_ints_params_ other) []).

(** [operator=(const TwoBodyEngine& other)] on [this]. *)
Definition assign (this other : t) : outcome t :=
  initialize
    (mk (Kernel other) (primdata_ other) (lmax_ other) (deriv_order_ other)
       (core_ints_params_ other) (scratch_ this)).

(** [detail::TwoBodyEngineDispatcher<Kernel>::core_eval(this, Fm, mmax, T, rho)] *)
Definition core_eval (e : t) (mmax : nat) (T rho : R) : nat -> R :=
  match Kernel e with
  | Coulomb => fm_eval T mmax
  | cGTG_times_Coulomb => gm_eval (-1) rho T mmax (core_ints_params_ e)
  | cGTG => gm_eval 0 rho T mmax (core_ints_params_ e)
  | DelcGTG_square => gm_eval 2 rho T mmax (core_ints_params_ e)
  end.

(** The local values of [compute_primdata] for a primitive quadruple. *)
Record quartet_locals : Type := mk_locals {
  gammap : R; oogammap : R; rhop : R;
  Px : R; Py : R; Pz : R;
  AB_x : R; AB_y : R; AB_z : R; AB2 : R;
  gammaq : R; oogammaq : R; rhoq : R;
  gammapq : R; sqrt_gammapq : R; oogammapq : R; rho : R;
  Qx : R; Qy : R; Qz : R;
  CD_x : R; CD_y : R; CD_z : R; CD2 : R;
  PQ2 : R
}.

Definition locals (A B C D : vec3) (alpha0 alpha1 alpha2 alpha3 : R)
  : quartet_locals :=
  let gammap := alpha0 + alpha1 in
  let oogammap := 1 / gammap in
  let rhop := alpha0 * alpha1 * oogammap in
  let Px := (alpha0 * A.[0] + alpha1 * B.[0]) * oogammap in
  let Py := (alpha0 * A.[1] + alpha1 * B.[1]) * oogammap in
  let Pz := (alpha0 * A.[2] + alpha1 * B.[2]) * oogammap in
  let AB_x := A.[0] - B.[0] in
  let AB_y := A.[1] - B.[1] in
  let AB_z := A.[2] - B.[2] in
  let AB2 := AB_x * AB_x + AB_y * AB_y + AB_z * AB_z in
  let gammaq := alpha2 + alpha3 in
  let oogammaq := 1 / gammaq in
  let rhoq := alpha2 * alpha3 * oogammaq in
  let gammapq := gammap + gammaq in
  let sqrt_gammapq := sqrt gammapq in
  let oogammapq := 1 / gammapq in
  let rho := gammap * gammaq * oogammapq in
  let Qx := (alpha2 * C.[0] + alpha3 * D.[0]) * oogammaq in
  let Qy := (alpha2 * C.[1] + alpha3 * D.[1]) * oogammaq in
  let Qz := (alpha2 * C.[2] + alpha3 * D.[2]) * oogammaq in
  let CD_x := C.[0] - D.[0] in
  let CD_y := C.[1] - D.[1] in
  let CD_z := C.[2] - D.[2] in
  let CD2 := CD_x * CD_x + CD_y * CD_y + CD_z * CD_z in
  let PQx := Px - Qx in
  let PQy := Py - Qy in
  let PQz := Pz - Qz in
  let PQ2 := PQx * PQx + PQy * PQy + PQz * PQz in
  mk_locals gammap oogammap rhop Px Py Pz AB_x AB_y AB_z AB2
    gammaq oogammaq rhoq gammapq sqrt_gammapq oogammapq rho
    Qx Qy Qz CD_x CD_y CD_z CD2 PQ2.

(** [pfac], after [pfac *= c0 * c1 * c2 * c3]. *)
Definition pfac (v : quartet_locals) (c0 c1 c2 c3 : R) : R :=
  let K1 := exp (- rhop v * AB2 v) in
  let K2 := exp (- rhoq v * CD2 v) in
  two_times_M_PI_to_25 * K1 * K2 * oogammap v * oogammaq v *
    sqrt_gammapq v * oogammapq v * (c0 * c1 * c2 * c3).

(** The members written after [if (mmax == 0) return;], up to [roe].  The
    [TwoPRepITR_pfac*] members are left out: their assignments name an
    undeclared [Data], so the header only builds when they are undefined. *)
Definition write_offsets (A B C D : vec3) (v : quartet_locals)
  : Libint_t -> Libint_t :=
  let gammap_o_gammapgammaq := oogammapq v * gammap v in
  let gammaq_o_gammapgammaq := oogammapq v * gammaq v in
  let Wx := gammap_o_gammapgammaq * Px v + gammaq_o_gammapgammaq * Qx v in
  let Wy := gammap_o_gammapgammaq * Py v + gammaq_o_gammapgammaq * Qy v in
  let Wz := gammap_o_gammapgammaq * Pz v + gammaq_o_gammapgammaq * Qz v in
  write_all
    [ (PA a_x, Px v - A.[0]); (PA a_y, Py v - A.[1]); (PA a_z, Pz v - A.[2]);
      (PB a_x, Px v - B.[0]); (PB a_y, Py v - B.[1]); (PB a_z, Pz v - B.[2]);
      (QC a_x, Qx v - C.[0]); (QC a_y, Qy v - C.[1]); (QC a_z, Qz v - C.[2]);
      (QD a_x, Qx v - D.[0]); (QD a_y, Qy v - D.[1]); (QD a_z, Qz v - D.[2]);
      (AB a_x, AB_x v); (AB a_y, AB_y v); (AB a_z, AB_z v);
      (BA a_x, - AB_x v); (BA a_y, - AB_y v); (BA a_z, - AB_z v);
      (CD a_x, CD_x v); (CD a_y, CD_y v); (CD a_z, CD_z v);
      (DC a_x, - CD_x v); (DC a_y, - CD_y v); (DC a_z, - CD_z v);
      (WP a_x, Wx - Px v); (WP a_y, Wy - Py v); (WP a_z, Wz - Pz v);
      (WQ a_x, Wx - Qx v); (WQ a_y, Wy - Qy v); (WQ a_z, Wz - Qz v);
      (oo2z, 0.5 * oogammap v);
      (oo2e, 0.5 * oogammaq v);
      (oo2ze, 0.5 * oogammapq v);
      (roz, rho v * oogammap v);
      (roe, rho v * oogammaq v) ].

(** "prefactors for derivative ERI relations" *)
Definition write_deriv_prefactors (alpha0 alpha1 alpha2 alpha3 : R)
  (v : quartet_locals) : Libint_t -> Libint_t :=
  write_all
    [ (alpha1_rho_over_zeta2, alpha0 * rho v / (gammap v * gammap v));
      (alpha2_rho_over_zeta2, alpha1 * rho v / (gammap v * gammap v));
      (alpha3_rho_over_eta2, alpha2 * rho v / (gammaq v * gammaq v));
      (alpha4_rho_over_eta2, alpha3 * rho v / (gammaq v * gammaq v));
      (alpha1_over_zetapluseta, alpha0 / (gammap v + gammaq v));
      (alpha2_over_zetapluseta, alpha1 / (gammap v + gammaq v));
      (alpha3_over_zetapluseta, alpha2 / (gammap v + gammaq v));
      (alpha4_over_zetapluseta, alpha3 / (gammap v + gammaq v));
      (rho12_over_alpha1, rhop v / alpha0);
      (rho12_over_alpha2, rhop v / alpha1);
      (rho34_over_alpha3, rhoq v / alpha2);
      (rho34_over_alpha4, rhoq v / alpha3);
      (two_alpha0_bra, 2.0 * alpha0);
      (two_alpha0_ket, 2.0 * alpha1);
      (two_alpha1_bra, 2.0 * alpha2);
      (two_alpha1_ket, 2.0 * alpha3) ].

Definition compute_primdata (e : t) (primdata : Libint_t)
  (sbra1 sbra2 sket1 sket2 : Shell.t) (pbra1 pbra2 pket1 pket2 : nat)
  : Libint_t :=
  let A := Shell.O sbra1 in
  let B := Shell.O sbra2 in
  let C := Shell.O sket1 in
  let D := Shell.O sket2 in
  let alpha0 := Shell.alpha_at sbra1 pbra1 in
  let alpha1 := Shell.alpha_at sbra2 pbra2 in
  let alpha2 := Shell.alpha_at sket1 pket1 in
  let alpha3 := Shell.alpha_at sket2 pket2 in
  let c0 := Shell.coeff_at sbra1 pbra1 in
  let c1 := Shell.coeff_at sbra2 pbra2 in
  let c2 := Shell.coeff_at sket1 pket1 in
  let c3 := Shell.coeff_at sket2 pket2 in
  let amtot := (Contraction.l (Shell.contr0 sbra1) +
                Contraction.l (Shell.contr0 sket1) +
                Contraction.l (Shell.contr0 sbra2) +
                Contraction.l (Shell.contr0 sket2))%nat in
  let v := locals A B C D alpha0 alpha1 alpha2 alpha3 in
  let T := PQ2 v * rho v in
  let mmax := (amtot + N.to_nat (deriv_order_ e))%nat in
  let primdata :=
    set_erep (eval_and_scale (core_eval e mmax T (rho v)) mmax
                (pfac v c0 c1 c2 c3) (LIBINT_T_SS_EREP_SS primdata)) primdata in
  if (mmax =? 0)%nat then primdata else
  let primdata := write_offsets A B C D v primdata in
  if (0 <? deriv_order_ e)%N
  then write_deriv_prefactors alpha0 alpha1 alpha2 alpha3 v primdata
  else primdata.

(** The primitive-quadruple loops of [compute]: [p] runs with [pk2]. *)
Definition assemble (e : t) (bra1 bra2 ket1 ket2 : Shell.t)
  (primdata : list Libint_t) : outcome (nat * list Libint_t) :=
  for_loop (Shell.nprim bra1) (fun pb1 st =>
    for_loop (Shell.nprim bra2) (fun pb2 st =>
      for_loop (Shell.nprim ket1) (fun pk1 st =>
        for_loop (Shell.nprim ket2) (fun pk2 '(p, pd) =>
          pd ← update_at pd p (fun r =>
                 mret (compute_primdata e r bra1 bra2 ket1 ket2 pb1 pb2 pk1 pk2));
          mret (S p, pd)) st) st) st) (0%nat, primdata).

(** [for (p = 0; p != primdata_[0].contrdepth; ++p)
       stack += primdata_[p].LIBINT_T_SS_EREP_SS(0)[0];]
    with [stack] bound to [primdata_[0].stack[0]]. *)
Definition accumulate_ssss (primdata : list Libint_t) : outcome (list Libint_t) :=
  r0 ← at_index primdata 0;
  acc ← at_index (stack r0) 0;
  acc ← for_loop (contrdepth r0) (fun p acc =>
           r ← at_index primdata p; mret (acc + LIBINT_T_SS_EREP_SS r 0)) acc;
  update_at primdata 0 (fun r => mret (set_stack (<[0%nat := acc]> (stack r)) r)).

(** The body of the loop over the rows of the source matrix: row
    ([r1], [r2]), an [nc1] x [nc2] matrix at [src_row_ptr], is copied to its
    block of the target. *)
Definition copy_source_row (swap_braket swap_bra swap_ket : bool)
  (nr1 nr2 nc1 nc2 nr1_tgt nr2_tgt nc1_tgt nc2_tgt : nat)
  (mainbuf : list R) (r1 r2 src_row_ptr : nat) (tgt : list R) : outcome (list R) :=
  let ncol := (nc1 * nc2)%nat in
  let ncol_tgt := (nc1_tgt * nc2_tgt)%nat in
  let src_blk_mat := fun i j => at_index mainbuf (src_row_ptr + i * nc2 + j) in
  let transpose := fun i j => src_blk_mat j i in
  if swap_braket then
    let tgt_col_idx :=
      if negb swap_ket then (r1 * nr2 + r2)%nat else (r2 * nr1 + r1)%nat in
    assign_block nr1_tgt nr2_tgt
      (fun i j => (tgt_col_idx + i * (nr2_tgt * ncol_tgt) + j * ncol_tgt)%nat)
      (if swap_bra then transpose else src_blk_mat) tgt
  else
    let tgt_row_idx :=
      if negb swap_bra then (r1 * nr2 + r2)%nat else (r2 * nr1 + r1)%nat in
    assign_block nc1_tgt nc2_tgt
      (fun i j => (tgt_row_idx * ncol + i * nc2_tgt + j)%nat)
      (if swap_ket then transpose else src_blk_mat) tgt.

(** The block copy that restores the caller's axis order. *)
Definition unpermute (swap_braket swap_bra swap_ket : bool)
  (nr1 nr2 nc1 nc2 nr1_tgt nr2_tgt nc1_tgt nc2_tgt : nat)
  (mainbuf scratchbuf : list R) : outcome (list R) :=
  let ncol := (nc1 * nc2)%nat in
  st ← for_loop nr1 (fun r1 st =>
     for_loop nr2 (fun r2 '(src_row_ptr, tgt) =>
       tgt ← copy_source_row swap_braket swap_bra swap_ket
                nr1 nr2 nc1 nc2 nr1_tgt nr2_tgt nc1_tgt nc2_tgt
                mainbuf r1 r2 src_row_ptr tgt;
       mret ((src_row_ptr + ncol)%nat, tgt)) st) (0%nat, scratchbuf);
  mret st.2.

(** One pass of "transform to solid harmonics": when the shell is pure,
    the transform writes from [mainbuf] to [scratchbuf] and
    [std::swap(mainbuf, scratchbuf)] follows.  The state is [mainbuf],
    [scratchbuf] and whether the two pointers are exchanged. *)
Definition solid_step (pure : bool) (f : list R -> list R)
  (bufs : list R * list R * bool) : list R * list R * bool :=
  if pure then (overwrite (f bufs.1.1) bufs.1.2, bufs.1.1, negb bufs.2)
  else bufs.

(** The four passes, over [bra1], [bra2], [ket1], [ket2]. *)
Definition solid_steps (bra1 bra2 ket1 ket2 : Shell.t)
  (bufs : list R * list R * bool) : list R * list R * bool :=
  let lof := fun s => Contraction.l (Shell.contr0 s) in
  let pureof := fun s => Contraction.pure (Shell.contr0 s) in
  let nr2_cart := Shell.cartesian_size bra2 in
  let nc1_cart := Shell.cartesian_size ket1 in
  let nc2_cart := Shell.cartesian_size ket2 in
  let ncol_cart := (nc1_cart * nc2_cart)%nat in
  let nrow := (Shell.size bra1 * Shell.size bra2)%nat in
  let bufs := solid_step (pureof bra1)
                (transform_first (lof bra1) (nr2_cart * ncol_cart)) bufs in
  let bufs := solid_step (pureof bra2)
                (transform_inner (Shell.size bra1) (lof bra2) ncol_cart) bufs in
  let bufs := solid_step (pureof ket1)
                (transform_inner nrow (lof ket1) nc2_cart) bufs in
  solid_step (pureof ket2)
    (transform_last (Shell.size bra1 * Shell.size bra2 * Shell.size ket1)
       (lof ket2)) bufs.

(** The branch [if (use_scratch)]: the transforms, the block copy, and the
    contents the two buffers are left with. *)
Definition restore (swap_braket swap_bra swap_ket : bool)
  (bra1 bra2 ket1 ket2 tbra1 tbra2 tket1 tket2 : Shell.t)
  (result : list R) (pd : list Libint_t) (e : t) : outcome (list R * t) :=
  let bufs := solid_steps bra1 bra2 ket1 ket2 (result, scratch_ e, false) in
  let mainbuf := bufs.1.1 in
  let scratchbuf := bufs.1.2 in
  tgt ← unpermute swap_braket swap_bra swap_ket
           (Shell.size bra1) (Shell.size bra2) (Shell.size ket1) (Shell.size ket2)
           (Shell.size tbra1) (Shell.size tbra2) (Shell.size tket1) (Shell.size tket2)
           mainbuf scratchbuf;
  let '(in_targets0, in_scratch) :=
    if bufs.2 then (tgt, mainbuf) else (mainbuf, tgt) in
  pd ← update_at pd 0 (fun r => mret (set_targets0 in_targets0 r));
  mret (tgt, with_scratch in_scratch (with_primdata pd e)).

(** [if (lmax == 0) primdata_[0].stack[0] = 0;] *)
Definition clear_stack (lmax : nat) (primdata : list Libint_t)
  : outcome (list Libint_t) :=
  if (lmax =? 0)%nat then
    update_at primdata 0 (fun r =>
      st ← update_at (stack r) 0 (fun _ => mret 0);
      mret (set_stack st r))
  else mret primdata.

Definition compute (e : t) (tbra1 tbra2 tket1 tket2 : Shell.t)
  : outcome (list R * t) :=
  _ ← assert ((Shell.ncontr tbra1 =? 1)%nat && (Shell.ncontr tbra2 =? 1)%nat &&
              (Shell.ncontr tket1 =? 1)%nat && (Shell.ncontr tket2 =? 1)%nat);
  _ ← assert (deriv_order_ e =? 0)%N;
  let lof := fun s => Contraction.l (Shell.contr0 s) in
  let pureof := fun s => Contraction.pure (Shell.contr0 s) in
  let swap_bra :=
    if SHELLQUARTET_SET_STANDARD then (lof tbra1 <? lof tbra2)%nat
    else (lof tbra2 <? lof tbra1)%nat in
  let swap_ket :=
    if SHELLQUARTET_SET_STANDARD then (lof tket1 <? lof tket2)%nat
    else (lof tket2 <? lof tket1)%nat in
  let swap_braket :=
    if SHELLQUARTET_SET_STANDARD
    then (lof tket1 + lof tket2 <? lof tbra1 + lof tbra2)%nat
    else (lof tbra1 + lof tbra2 <? lof tket1 + lof tket2)%nat in
  let '(bra1, bra2, ket1, ket2) :=
    canonical_order swap_braket swap_bra swap_ket tbra1 tbra2 tket1 tket2 in
  let tform := pureof tbra1 || pureof tbra2 || pureof tket1 || pureof tket2 in
  let use_scratch := swap_braket || swap_bra || swap_ket || tform in
  let lmax := ((lof bra1 `max` lof bra2) `max` (lof ket1 `max` lof ket2))%nat in
  _ ← assert (Z.of_nat lmax <=? lmax_ e)%Z;
  pd ← clear_stack lmax (primdata_ e);
  '(p, pd) ← assemble e bra1 bra2 ket1 ket2 pd;
  pd ← update_at pd 0 (fun r => mret (set_contrdepth p r));
  if (lmax =? 0)%nat then
    pd ← accumulate_ssss pd;
    pd ← update_at pd 0 (fun r => mret (set_targets0 (stack r) r));
    r0 ← at_index pd 0;
    mret (targets0 r0, with_primdata pd e)
  else
    let result := libint2_build_eri (lof bra1) (lof bra2) (lof ket1) (lof ket2) pd in
    if use_scratch then
      restore swap_braket swap_bra swap_ket bra1 bra2 ket1 ket2
        tbra1 tbra2 tket1 tket2 result pd e
    else
      pd ← update_at pd 0 (fun r => mret (set_targets0 result r));
      mret (result, with_primdata pd e).

End Engine.
End TwoBodyEngine.

(** * Vocabulary of the statements *)

(** Number of terms pushed before row [b]: 0 + 1 + ... + b. *)
Fixpoint triangle (b : nat) : nat :=
  match b with
  | O => 0%nat
  | S b' => (triangle b' + S b')%nat
  end.

(** The term [init_core_ints_params] pushes for the pair ([b], [k]). *)
Definition derived_term (ob ok : R * R) (b k : nat) : R * R :=
  (ob.1 + ok.1, 4 * ob.1 * ok.1 * (ob.2 * ok.2 * (if (b =? k)%nat then 1 else 2))).

(** Number of Cartesian functions of angular momentum [l]. *)
Definition ncart (l : nat) : nat := (((l + 1) * (l + 2)) `div` 2)%nat.

(** Squared distance of two centres. *)
Definition dist2 (A B : vec3) : R :=
  (A.[0] - B.[0]) * (A.[0] - B.[0]) + (A.[1] - B.[1]) * (A.[1] - B.[1]) +
  (A.[2] - B.[2]) * (A.[2] - B.[2]).

(** ** A small build of the library, for concrete runs *)

Definition example_config : Libint2Config := {|
  SHELLQUARTET_SET_STANDARD := true;
  LIBINT2_DEFINED := fun _ => true;
  LIBINT2_MAX_AM_overlap := 4;
  LIBINT2_MAX_AM_kinetic := 4;
  LIBINT2_MAX_AM_elecpot := 4;
  LIBINT2_MAX_AM_ERI := 4;
  LIBINT2_DERIV_ONEBODY_ORDER := 0;
  LIBINT2_DERIV_ERI_ORDER := 0
|}.

(** [f 0; f 1; ...; f (n-1)]. *)
Definition tabulate (n : nat) (f : nat -> R) : list R := map f (seq 0 n).

(** The leading [rows] x [cols] block of a row-major matrix of row length
    [stride]. *)
Definition leading_block (rows cols stride : nat) (c : list R) : list R :=
  tabulate (rows * cols) (fun k =>
    default 0 (c !! ((k `div` cols) * stride + k `mod` cols)%nat)).

(** The leading [n1] x [m] x [n2] block of a row-major array of extents
    [n1] x [stride] x [n2]. *)
Definition leading_slab (n1 m stride n2 : nat) (c : list R) : list R :=
  tabulate (n1 * m * n2) (fun k =>
    default 0 (c !! (((k `div` (m * n2)) * stride + (k `div` n2) `mod` m) * n2
                     + k `mod` n2)%nat)).

(** Kernels that return a zero block of the right size, an evaluator that
    returns 1 at every order, transforms that keep the first [2 l + 1]
    Cartesian components of every transformed index, and an initialiser
    that allocates a one-word stack for the first record. *)
Definition example_library : Libint2Library := {|
  fm_eval := fun _ _ _ => 1;
  gm_eval := fun _ _ _ _ _ _ => 1;
  libint2_build_overlap := fun lb lk _ => replicate (ncart lb * ncart lk) 0;
  libint2_build_kinetic := fun lb lk _ => replicate (ncart lb * ncart lk) 0;
  libint2_build_elecpot := fun lb lk _ => replicate (ncart lb * ncart lk) 0;
  libint2_build_eri := fun l1 l2 l3 l4 _ =>
    replicate (ncart l1 * ncart l2 * ncart l3 * ncart l4) 0;
  libint2_init := fun pd =>
    match pd with
    | [] => []
    | r :: pd' => set_stack [0] r :: pd'
    end;
  tform := fun l1 l2 c => leading_block (2 * l1 + 1) (2 * l2 + 1) (ncart l2) c;
  tform_rows := fun l1 n2 c => leading_block (2 * l1 + 1) n2 n2 c;
  tform_cols := fun n1 l2 c => leading_block n1 (2 * l2 + 1) (ncart l2) c;
  transform_first := fun l n c => leading_block (2 * l + 1) n n c;
  transform_inner := fun n1 l n2 c => leading_slab n1 (2 * l + 1) (ncart l) n2 c;
  transform_last := fun n l c => leading_block n (2 * l + 1) (ncart l) c
|}.

(** An s-type Cartesian shell with one primitive. *)
Definition s_shell (exponent coefficient : R) (origin : vec3) : Shell.t :=
  Shell.mk [exponent] [Contraction.mk 0 false [coefficient]] origin.

(** An s-type Cartesian shell with two primitives at the origin. *)
Definition s_shell_2prim : Shell.t :=
  Shell.mk [1; 1] [Contraction.mk 0 false [1; 1]] (0, 0, 0).

Definition example_geminal : ContractedGaussianGeminal := [(1, 2); (3, 4)].

Definition fresh_DelcGTG_square_engine : TwoBodyEngine.t :=
  TwoBodyEngine.mk DelcGTG_square [] 0 0 [] [].

(** A p-type solid-harmonics shell with one primitive. *)
Definition p_shell (exponent coefficient : R) (origin : vec3) : Shell.t :=
  Shell.mk [exponent] [Contraction.mk 1 true [coefficient]] origin.

(** A nuclear-attraction engine for shells up to p with one primitive
    each, with two nuclei configured. *)
Definition small_nuclear_engine : OneBodyEngine.t :=
  OneBodyEngine.mk OneBodyEngine.nuclear [set_stack [0] Libint_t_zero] 1 0
    [(1, (0, 0, 0)); (8, (0, 0, 1))] (replicate 9 0).

(** ** One-body seeds, as [compute_primdata] forms them *)

(** The kinetic-energy seed [rhop * (3 - 2 rhop AB2) * ovlp_ss]. *)
Definition kinetic_ss (v : OneBodyEngine.pair_locals) (c1 c2 : R) : R :=
  OneBodyEngine.rhop v * (3 - 2 * OneBodyEngine.rhop v * OneBodyEngine.AB2 v) *
  OneBodyEngine.ovlp_ss v c1 c2.

(** The argument [U = gammap * |P - C|^2] of the core function. *)
Definition elecpot_argument (v : OneBodyEngine.pair_locals) (C : vec3) : R :=
  OneBodyEngine.gammap v *
  ((OneBodyEngine.Px v - C.[0]) * (OneBodyEngine.Px v - C.[0]) +
   (OneBodyEngine.Py v - C.[1]) * (OneBodyEngine.Py v - C.[1]) +
   (OneBodyEngine.Pz v - C.[2]) * (OneBodyEngine.Pz v - C.[2])).

(** The factor [pfac] that scales every order of the core function. *)
Definition elecpot_pfac (charge : R) (v : OneBodyEngine.pair_locals) (c1 c2 : R) : R :=
  - charge * sqrt (OneBodyEngine.gammap v) * OneBodyEngine.two_o_sqrt_PI *
  OneBodyEngine.ovlp_ss v c1 c2.

(** Records that differ only in their scalar members. *)
Definition same_frame (r r' : Libint_t) : Prop :=
  LIBINT_T_SS_EREP_SS r' = LIBINT_T_SS_EREP_SS r /\
  contrdepth r' = contrdepth r /\ stack r' = stack r /\ targets0 r' = targets0 r.

(** The overlap seed as the specification words it:
    pi^(3/2) * gamma^(-1/2) * exp(- rho AB^2) * c1 c2. *)
Definition overlap_seed_as_worded (alpha1 alpha2 c1 c2 : R) (A B : vec3) : R :=
  let gamma := alpha1 + alpha2 in
  let rho := alpha1 * alpha2 / gamma in
  PI * sqrt PI * / sqrt gamma * exp (- rho * dist2 A B) * c1 * c2.

Definition origin : vec3 := (0, 0, 0).

(** An overlap engine with a single record and a one-word stack. *)
Definition small_overlap_engine : OneBodyEngine.t :=
  OneBodyEngine.mk OneBodyEngine.overlap [set_stack [0] Libint_t_zero] 0 0 [] [0].

(** ** Sums and one-body results *)

(** [f 0 + f 1 + ... + f (n-1)], added in index order from 0. *)
Fixpoint Rsum (n : nat) (f : nat -> R) : R :=
  match n with
  | O => 0
  | S n' => Rsum n' f + f n'
  end.

(** The seed of the primitive pair ([pb], [pk]) for operator component
    [oset]: the member [compute] adds up when both shells are s-type. *)
Definition ss_seed {L : Libint2Library} (e : OneBodyEngine.t)
  (bra ket : Shell.t) (oset pb pk : nat) : R :=
  let v := OneBodyEngine.locals bra ket pb pk in
  let c1 := Shell.coeff_at bra pb in
  let c2 := Shell.coeff_at ket pk in
  let ltot := (Contraction.l (Shell.contr0 bra) + Contraction.l (Shell.contr0 ket))%nat in
  match OneBodyEngine.type_ e with
  | OneBodyEngine.overlap => OneBodyEngine.ovlp_ss v c1 c2
  | OneBodyEngine.kinetic => kinetic_ss v c1 c2
  | OneBodyEngine.nuclear =>
      match OneBodyEngine.q_ e !! oset with
      | Some qC => fm_eval (elecpot_argument v qC.2) ltot 0 * elecpot_pfac qC.1 v c1 c2
      | None => 0
      end
  | OneBodyEngine._invalid => 0
  end.

(** The member of a record that carries the (s|s) seed. *)
Definition ss_member (ty : OneBodyEngine.type) (r : Libint_t) : R :=
  match ty with
  | OneBodyEngine.overlap => scalar r LIBINT_T_S_OVERLAP_S
  | OneBodyEngine.kinetic => scalar r LIBINT_T_S_KINETIC_S
  | OneBodyEngine.nuclear => LIBINT_T_S_ELECPOT_S r 0
  | OneBodyEngine._invalid => 0
  end.

(** The number of operator components. *)
Definition num_operset (e : OneBodyEngine.t) : nat :=
  if bool_decide (OneBodyEngine.type_ e = OneBodyEngine.nuclear)
  then length (OneBodyEngine.q_ e) else 1%nat.

(** The (s|s) integral: the seeds of all primitive pairs of all operator
    components. *)
Definition ss_total {L : Libint2Library} (e : OneBodyEngine.t) (bra ket : Shell.t) : R :=
  Rsum (num_operset e) (fun oset =>
    Rsum (Shell.nprim bra) (fun pb =>
      Rsum (Shell.nprim ket) (fun pk => ss_seed e bra ket oset pb pk))).

(** The first record exists and owns a stack. *)
Definition ready (pd : list Libint_t) : Prop :=
  exists r0, pd !! 0%nat = Some r0 /\ (0 < length (stack r0))%nat.

(** What a call leaves of an engine's set-up: the configuration, the
    capacity and the size of the scratch buffer. *)
Definition same_setup (e e' : OneBodyEngine.t) : Prop :=
  OneBodyEngine.type_ e' = OneBodyEngine.type_ e /\
  OneBodyEngine.lmax_ e' = OneBodyEngine.lmax_ e /\
  OneBodyEngine.deriv_order_ e' = OneBodyEngine.deriv_order_ e /\
  OneBodyEngine.q_ e' = OneBodyEngine.q_ e /\
  length (OneBodyEngine.primdata_ e') = length (OneBodyEngine.primdata_ e) /\
  (length (OneBodyEngine.scratch_ e) <= length (OneBodyEngine.scratch_ e'))%nat /\
  (ready (OneBodyEngine.primdata_ e) -> ready (OneBodyEngine.primdata_ e')).

(** A Coulomb engine as [TwoBodyEngine<Coulomb>(1, 0)] leaves it with the
    example library: one record, which owns a one-word stack. *)
Definition small_coulomb_engine : TwoBodyEngine.t :=
  TwoBodyEngine.mk Coulomb [set_stack [0] Libint_t_zero] 0 0 [] [0].

(** A Coulomb engine for shells up to p with one primitive each. *)
Definition p_coulomb_engine : TwoBodyEngine.t :=
  TwoBodyEngine.mk Coulomb [set_stack [0] Libint_t_zero] 1 0 [] (replicate 81 0).

(** ** Four-index blocks *)

(** Row-major offset of ([i1], [i2], [i3], [i4]) in a block whose last
    three extents are [n2], [n3], [n4]. *)
Definition row_major4 (n2 n3 n4 i1 i2 i3 i4 : nat) : nat :=
  (((i1 * n2 + i2) * n3 + i3) * n4 + i4)%nat.

(** ** What a one-body kernel is given *)

Section KernelInputs.
Context {C : Libint2Config} {L : Libint2Library}.
Import OneBodyEngine.

(** A guarded step of the assembler: a sequence of member assignments, or
    the assignment of one member that no macro guards. *)
Inductive stage : Type :=
| Write (b : bool) (ws : list (field * R))
| Assign (b : bool) (g : field) (v : R).

Definition run_stage (r : Libint_t) (st : stage) : Libint_t :=
  match st with
  | Write b ws => if b then write_all ws r else r
  | Assign b g v => if b then set_scalar g v r else r
  end.

Definition stage_writes (f : field) (st : stage) : Prop :=
  match st with
  | Write b ws => b = true /\ f ∈ ws.*1 /\ LIBINT2_DEFINED f = true
  | Assign b g v => b = true /\ f = g
  end.

(** The steps of [compute_primdata] up to the seeds, in source order. *)
Definition assembler_stages (e : t) (s1 s2 : Shell.t) (p1 p2 : nat) (qC : R * vec3)
  : list stage :=
  let A := Shell.O s1 in
  let B := Shell.O s2 in
  let alpha1 := Shell.alpha_at s1 p1 in
  let alpha2 := Shell.alpha_at s2 p2 in
  let c1 := Shell.coeff_at s1 p1 in
  let c2 := Shell.coeff_at s2 p2 in
  let v := locals s1 s2 p1 p2 in
  let is_kinetic := bool_decide (type_ e = kinetic) in
  let is_nuclear := bool_decide (type_ e = nuclear) in
  [ Write (SHELLQUARTET_SET_STANDARD || is_kinetic)
      [ (PA a_x, Px v - A.[0]); (PA a_y, Py v - A.[1]); (PA a_z, Pz v - A.[2]);
        (AB a_x, A.[0] - B.[0]); (AB a_y, A.[1] - B.[1]); (AB a_z, A.[2] - B.[2]) ];
    Write (negb SHELLQUARTET_SET_STANDARD || is_kinetic)
      [ (PB a_x, Px v - B.[0]); (PB a_y, Py v - B.[1]); (PB a_z, Pz v - B.[2]);
        (BA a_x, B.[0] - A.[0]); (BA a_y, B.[1] - A.[1]); (BA a_z, B.[2] - A.[2]) ];
    Write true [ (oo2z, 0.5 * oogammap v) ];
    Write is_kinetic
      [ (rho12_over_alpha1, alpha2 * oogammap v);
        (rho12_over_alpha2, alpha1 * oogammap v);
        (two_rho12, 2 * rhop v) ];
    Write is_nuclear
      [ (PC a_x, Px v - (qC.2).[0]); (PC a_y, Py v - (qC.2).[1]);
        (PC a_z, Pz v - (qC.2).[2]) ];
    Assign true LIBINT_T_S_OVERLAP_S (ovlp_ss v c1 c2);
    Assign is_kinetic LIBINT_T_S_KINETIC_S (kinetic_ss v c1 c2) ].

(** The record [compute_primdata] makes of [r] for derivative order 0, the
    charge and centre [qC] standing for [q_[oset]]. *)
Definition assembled_record (e : t) (r : Libint_t) (s1 s2 : Shell.t)
  (p1 p2 : nat) (qC : R * vec3) : Libint_t :=
  let v := locals s1 s2 p1 p2 in
  let c1 := Shell.coeff_at s1 p1 in
  let c2 := Shell.coeff_at s2 p2 in
  let ltot := (Contraction.l (Shell.contr0 s1) + Contraction.l (Shell.contr0 s2))%nat in
  let r := foldl run_stage r (assembler_stages e s1 s2 p1 p2 qC) in
  if bool_decide (type_ e = nuclear) &&
     (LIBINT2_DEFINED (PC a_x) && LIBINT2_DEFINED (PC a_y) && LIBINT2_DEFINED (PC a_z))
  then write_elecpot qC.1 ltot v c1 c2 r else r.

(** The scalar members [compute_primdata] assigns for operator [ty]. *)
Definition assembled_field (ty : type) (f : field) : bool :=
  let is_kinetic := bool_decide (ty = kinetic) in
  let is_nuclear := bool_decide (ty = nuclear) in
  match f with
  | PA _ | AB _ => (SHELLQUARTET_SET_STANDARD || is_kinetic) && LIBINT2_DEFINED f
  | PB _ | BA _ => (negb SHELLQUARTET_SET_STANDARD || is_kinetic) && LIBINT2_DEFINED f
  | oo2z => LIBINT2_DEFINED f
  | rho12_over_alpha1 | rho12_over_alpha2 | two_rho12 =>
      is_kinetic && LIBINT2_DEFINED f
  | PC _ => is_nuclear && LIBINT2_DEFINED f
  | LIBINT_T_S_OVERLAP_S => true
  | LIBINT_T_S_KINETIC_S => is_kinetic
  | _ => false
  end.

(** Two records carry the same input for a kernel of operator [ty] and
    total angular momentum [ltot]. *)
Definition same_inputs (ty : type) (ltot : nat) (r r' : Libint_t) : Prop :=
  (forall f, assembled_field ty f = true -> scalar r f = scalar r' f) /\
  (ty = nuclear ->
   LIBINT2_DEFINED (PC a_x) && LIBINT2_DEFINED (PC a_y) && LIBINT2_DEFINED (PC a_z) = true ->
   forall m, (m <= ltot)%nat -> LIBINT_T_S_ELECPOT_S r m = LIBINT_T_S_ELECPOT_S r' m).

(** Two record arrays carry the same input: the same contraction depth in
    the first record and the same input in every record below that depth. *)
Definition same_arrays (ty : type) (ltot : nat) (pd pd' : list Libint_t) : Prop :=
  exists r0 r0', pd !! 0%nat = Some r0 /\ pd' !! 0%nat = Some r0' /\
    contrdepth r0 = contrdepth r0' /\
    forall p, (p < contrdepth r0)%nat ->
      exists r r', pd !! p = Some r /\ pd' !! p = Some r' /\ same_inputs ty ltot r r'.

(** The kernel [compute] calls for operator [ty]. *)
Definition build (ty : type) (lb lk : nat) (pd : list Libint_t) : list R :=
  match ty with
  | overlap => libint2_build_overlap lb lk pd
  | kinetic => libint2_build_kinetic lb lk pd
  | nuclear => libint2_build_elecpot lb lk pd
  | _invalid => []
  end.

(** The records of operator component [oset], assembled into a fresh
    array, with the contraction depth set. *)
Definition reference_records (e : t) (bra ket : Shell.t) (oset : nat) : list Libint_t :=
  let n := (Shell.nprim bra * Shell.nprim ket)%nat in
  match assemble e bra ket oset (replicate (S n) Libint_t_zero) with
  | Returned (p12, pd) =>
      <[0%nat := set_contrdepth p12 (default Libint_t_zero (pd !! 0%nat))]> pd
  | _ => []
  end.

(** The Cartesian block of operator component [oset]. *)
Definition kernel_block (e : t) (bra ket : Shell.t) (oset : nat) : list R :=
  build (type_ e) (Contraction.l (Shell.contr0 bra)) (Contraction.l (Shell.contr0 ket))
    (reference_records e bra ket oset).

(** What the engine relies on from the generated kernels: a kernel reads
    the contraction depth and, below it, the members the engine assembles;
    it fills a block of [ncart lb * ncart lk] entries. *)
Record kernel_contract : Prop := {
  kernels_read_assembled : forall ty lb lk pd pd',
    same_arrays ty (lb + lk) pd pd' -> build ty lb lk pd = build ty lb lk pd';
  kernels_sized : forall ty lb lk pd,
    ty <> _invalid -> (ncart lb * ncart lk <= length (build ty lb lk pd))%nat
}.

End KernelInputs.

(** ** The one-body result *)

Section OneBodyResult.
Context {C : Libint2Config} {L : Libint2Library}.
Import OneBodyEngine.

(** The decision [swap] of [compute], and the canonical bra and ket. *)
Definition swap_of (s1 s2 : Shell.t) : bool :=
  let l1 := Contraction.l (Shell.contr0 s1) in
  let l2 := Contraction.l (Shell.contr0 s2) in
  if SHELLQUARTET_SET_STANDARD then (l1 <? l2)%nat else (l2 <? l1)%nat.

Definition bra_of (s1 s2 : Shell.t) : Shell.t := if negb (swap_of s1 s2) then s1 else s2.
Definition ket_of (s1 s2 : Shell.t) : Shell.t := if negb (swap_of s1 s2) then s2 else s1.

Definition lmax_of (s1 s2 : Shell.t) : nat :=
  (Contraction.l (Shell.contr0 s1) `max` Contraction.l (Shell.contr0 s2))%nat.

(** The entry of [braket] that [set12 += braket] (or its transpose) pairs
    with the entry ([i], [j]) of [set12]. *)
Definition block_index (swap : bool) (ncart_ket i j : nat) : nat :=
  if swap then (j * ncart_ket + i)%nat else (i * ncart_ket + j)%nat.

(** The entry ([i], [j]) of the Cartesian block in the caller's order: the
    (s|s) total, or the sum over the operator components of the entry of
    the kernel's block that [set12 += braket] pairs with ([i], [j]). *)
Definition cartesian_entry (e : t) (s1 s2 : Shell.t) (i j : nat) : R :=
  let bra := bra_of s1 s2 in
  let ket := ket_of s1 s2 in
  if (lmax_of s1 s2 =? 0)%nat then ss_total e bra ket
  else
    Rsum (num_operset e) (fun oset =>
      default 0
        (kernel_block e bra ket oset !!
           block_index (swap_of s1 s2) (Shell.cartesian_size ket) i j)).

(** The hypotheses under which [compute] runs its (s|s) path to the end. *)
Record ss_call (e : t) (s1 s2 : Shell.t) : Prop := {
  ss_ncontr1 : Shell.ncontr s1 = 1%nat;
  ss_ncontr2 : Shell.ncontr s2 = 1%nat;
  ss_deriv : deriv_order_ e = 0%N;
  ss_type : type_ e <> _invalid;
  ss_nuclei : type_ e = nuclear ->
    q_ e <> [] /\ LIBINT2_DEFINED (PC a_x) = true /\
    LIBINT2_DEFINED (PC a_y) = true /\ LIBINT2_DEFINED (PC a_z) = true;
  ss_l1 : Contraction.l (Shell.contr0 s1) = 0%nat;
  ss_l2 : Contraction.l (Shell.contr0 s2) = 0%nat;
  ss_no_wrap : (N.of_nat (Shell.nprim s1) * N.of_nat (Shell.nprim s2) < 2 ^ 64)%N;
  ss_capacity : (Shell.nprim s1 * Shell.nprim s2 <= length (primdata_ e))%nat;
  ss_lmax : (0 <= lmax_ e)%Z;
  ss_ready : ready (primdata_ e)
}.

(** The calls [compute] runs to the end. *)
Record admissible (e : t) (s1 s2 : Shell.t) : Prop := {
  adm_ncontr1 : Shell.ncontr s1 = 1%nat;
  adm_ncontr2 : Shell.ncontr s2 = 1%nat;
  adm_deriv : deriv_order_ e = 0%N;
  adm_type : type_ e <> _invalid;
  adm_nuclei : type_ e = nuclear ->
    q_ e <> [] /\ LIBINT2_DEFINED (PC a_x) = true /\
    LIBINT2_DEFINED (PC a_y) = true /\ LIBINT2_DEFINED (PC a_z) = true;
  adm_no_wrap : (N.of_nat (Shell.nprim s1) * N.of_nat (Shell.nprim s2) < 2 ^ 64)%N;
  adm_capacity : (Shell.nprim s1 * Shell.nprim s2 <= length (primdata_ e))%nat;
  adm_lmax : (Z.of_nat (lmax_of s1 s2) <= lmax_ e)%Z;
  adm_ready : ready (primdata_ e);
  adm_scratch :
    (Shell.cartesian_size s1 * Shell.cartesian_size s2 <= length (scratch_ e))%nat
}.

End OneBodyResult.

(** ** Contracts of the solid-harmonics routines, and sequences of calls *)

Section Calls.
Context {C : Libint2Config} {L : Libint2Library}.
Import OneBodyEngine.

(** What the engine relies on from the one-body solid-harmonics routines:
    each reads the Cartesian block it is given and fills the block of the
    transformed sizes. *)
Record transform_contract : Prop := {
  tform_reads_block : forall l1 l2 c c',
    take (ncart l1 * ncart l2) c = take (ncart l1 * ncart l2) c' ->
    tform l1 l2 c = tform l1 l2 c';
  tform_rows_reads_block : forall l1 n2 c c',
    take (ncart l1 * n2) c = take (ncart l1 * n2) c' ->
    tform_rows l1 n2 c = tform_rows l1 n2 c';
  tform_cols_reads_block : forall n1 l2 c c',
    take (n1 * ncart l2) c = take (n1 * ncart l2) c' ->
    tform_cols n1 l2 c = tform_cols n1 l2 c';
  tform_sized : forall l1 l2 c,
    length (tform l1 l2 c) = ((2 * l1 + 1) * (2 * l2 + 1))%nat;
  tform_rows_sized : forall l1 n2 c,
    length (tform_rows l1 n2 c) = ((2 * l1 + 1) * n2)%nat;
  tform_cols_sized : forall n1 l2 c,
    length (tform_cols n1 l2 c) = (n1 * (2 * l2 + 1))%nat
}.

(** The part of the returned buffer that is the result: the row-major
    [size s1] x [size s2] block at its front. *)
Definition result_view (s1 s2 : Shell.t) (buf : list R) : list R :=
  take (Shell.size s1 * Shell.size s2) buf.

(** The engine after a sequence of calls, each on the engine the call
    before left (a call that does not return leaves the engine as it was). *)
Definition run_calls (e : t) (calls : list (Shell.t * Shell.t)) : t :=
  foldl (fun e c =>
           match compute e c.1 c.2 with
           | Returned (_, e') => e'
           | _ => e
           end) e calls.

(** The share of operator component [oset] (nucleus [oset] of a
    nuclear-attraction engine) in the entry ([i], [j]) of the Cartesian
    block. *)
Definition operset_contribution (e : t) (s1 s2 : Shell.t) (oset i j : nat) : R :=
  let bra := bra_of s1 s2 in
  let ket := ket_of s1 s2 in
  if (lmax_of s1 s2 =? 0)%nat then
    Rsum (Shell.nprim bra) (fun pb =>
      Rsum (Shell.nprim ket) (fun pk => ss_seed e bra ket oset pb pk))
  else
    default 0
      (kernel_block e bra ket oset !!
         block_index (swap_of s1 s2) (Shell.cartesian_size ket) i j).




End Calls.

(** ** Loops over buffers and records *)

(** [stores V Pos W]: on a buffer that covers [Pos], [W] returns a buffer
    of the same length that is unchanged outside [Pos] and holds at every
    place of [Pos] a value that [V] relates to the place. *)
Definition stores (V : nat -> R -> Prop) (Pos : nat -> Prop)
  (W : list R -> outcome (list R)) : Prop :=
  forall t, (forall k, Pos k -> (k < length t)%nat) ->
    exists t', W t = Returned t' /\ length t' = length t /\
      (forall k, ~ Pos k -> t' !! k = t !! k) /\
      (forall k, t' !! k = t !! k \/ exists v, t' !! k = Some v /\ V k v) /\
      (forall k, Pos k -> exists v, t' !! k = Some v /\ V k v).

(** ** What a two-body kernel is given, and the two-body result *)

(** [fills n G W]: on an array with room for [n] records from the counter
    on, [W] returns with the counter advanced by [n], record [p + i] made
    into [G i] of what it was, and every other record as it was. *)
Definition fills (n : nat) (G : nat -> Libint_t -> Libint_t)
  (W : nat * list Libint_t -> outcome (nat * list Libint_t)) : Prop :=
  forall p pd, (p + n <= length pd)%nat ->
    exists pd', W (p, pd) = Returned ((p + n)%nat, pd') /\
      length pd' = length pd /\
      (forall k, (k < p \/ p + n <= k)%nat -> pd' !! k = pd !! k) /\
      (forall i, (i < n)%nat ->
         exists r, pd !! (p + i)%nat = Some r /\ pd' !! (p + i)%nat = Some (G i r)).

Section TwoBodyResult.
Context {C : Libint2Config} {L : Libint2Library}.
Import TwoBodyEngine.

(** The scalar members [compute_primdata] assigns before the derivative
    prefactors. *)
Definition eri_fields : list field :=
  [ PA a_x; PA a_y; PA a_z; PB a_x; PB a_y; PB a_z;
    QC a_x; QC a_y; QC a_z; QD a_x; QD a_y; QD a_z;
    AB a_x; AB a_y; AB a_z; BA a_x; BA a_y; BA a_z;
    CD a_x; CD a_y; CD a_z; DC a_x; DC a_y; DC a_z;
    WP a_x; WP a_y; WP a_z; WQ a_x; WQ a_y; WQ a_z;
    oo2z; oo2e; oo2ze; roz; roe ].

(** Two records carry the same input for a kernel of total angular
    momentum [mmax]. *)
Definition same_inputs2 (mmax : nat) (r r' : Libint_t) : Prop :=
  (forall m, (m <= mmax)%nat -> LIBINT_T_SS_EREP_SS r m = LIBINT_T_SS_EREP_SS r' m) /\
  (mmax <> 0%nat -> forall f, f ∈ eri_fields -> LIBINT2_DEFINED f = true ->
     scalar r f = scalar r' f).

Definition same_arrays2 (mmax : nat) (pd pd' : list Libint_t) : Prop :=
  exists r0 r0', pd !! 0%nat = Some r0 /\ pd' !! 0%nat = Some r0' /\
    contrdepth r0 = contrdepth r0' /\
    forall p, (p < contrdepth r0)%nat ->
      exists r r', pd !! p = Some r /\ pd' !! p = Some r' /\ same_inputs2 mmax r r'.

(** What the engine relies on from the generated two-body kernels. *)
Record eri_contract : Prop := {
  eri_reads_assembled : forall l1 l2 l3 l4 pd pd',
    same_arrays2 (l1 + l2 + l3 + l4) pd pd' ->
    libint2_build_eri l1 l2 l3 l4 pd = libint2_build_eri l1 l2 l3 l4 pd';
  eri_sized : forall l1 l2 l3 l4 pd,
    (ncart l1 * ncart l2 * ncart l3 * ncart l4 <=
     length (libint2_build_eri l1 l2 l3 l4 pd))%nat
}.

(** What the engine relies on from the four-index solid-harmonics
    routines. *)
Record transform4_contract : Prop := {
  first_reads_block : forall l n c c',
    take (ncart l * n) c = take (ncart l * n) c' ->
    transform_first l n c = transform_first l n c';
  inner_reads_block : forall n1 l n2 c c',
    take (n1 * ncart l * n2) c = take (n1 * ncart l * n2) c' ->
    transform_inner n1 l n2 c = transform_inner n1 l n2 c';
  last_reads_block : forall n l c c',
    take (n * ncart l) c = take (n * ncart l) c' ->
    transform_last n l c = transform_last n l c';
  first_sized : forall l n c,
    length (transform_first l n c) = ((2 * l + 1) * n)%nat;
  inner_sized : forall n1 l n2 c,
    length (transform_inner n1 l n2 c) = (n1 * (2 * l + 1) * n2)%nat;
  last_sized : forall n l c,
    length (transform_last n l c) = (n * (2 * l + 1))%nat
}.

(** The three decisions of [compute]: ([swap_braket], [swap_bra],
    [swap_ket]). *)
Definition swaps_of (tbra1 tbra2 tket1 tket2 : Shell.t) : bool * bool * bool :=
  let lof := fun s => Contraction.l (Shell.contr0 s) in
  let swap_bra :=
    if SHELLQUARTET_SET_STANDARD then (lof tbra1 <? lof tbra2)%nat
    else (lof tbra2 <? lof tbra1)%nat in
  let swap_ket :=
    if SHELLQUARTET_SET_STANDARD then (lof tket1 <? lof tket2)%nat
    else (lof tket2 <? lof tket1)%nat in
  let swap_braket :=
    if SHELLQUARTET_SET_STANDARD
    then (lof tket1 + lof tket2 <? lof tbra1 + lof tbra2)%nat
    else (lof tbra1 + lof tbra2 <? lof tket1 + lof tket2)%nat in
  (swap_braket, swap_bra, swap_ket).

(** The caller's order taken to the order of the kernel. *)
Definition reorder {A : Type} (tbra1 tbra2 tket1 tket2 : Shell.t) (a1 a2 a3 a4 : A)
  : A * A * A * A :=
  let '(swap_braket, swap_bra, swap_ket) := swaps_of tbra1 tbra2 tket1 tket2 in
  canonical_order swap_braket swap_bra swap_ket a1 a2 a3 a4.

Definition lmax4 (s1 s2 s3 s4 : Shell.t) : nat :=
  let lof := fun s => Contraction.l (Shell.contr0 s) in
  ((lof s1 `max` lof s2) `max` (lof s3 `max` lof s4))%nat.

Definition nprim4 (s1 s2 s3 s4 : Shell.t) : nat :=
  (Shell.nprim s1 * (Shell.nprim s2 * (Shell.nprim s3 * Shell.nprim s4)))%nat.

(** What [compute_primdata] makes of record [k], in the order of the
    loops of [compute]. *)
Definition quartet_record (e : t) (bra1 bra2 ket1 ket2 : Shell.t) (k : nat)
  (r : Libint_t) : Libint_t :=
  let n4 := Shell.nprim ket2 in
  let n34 := (Shell.nprim ket1 * n4)%nat in
  let n234 := (Shell.nprim bra2 * n34)%nat in
  compute_primdata e r bra1 bra2 ket1 ket2
    (k `div` n234) ((k `mod` n234) `div` n34)
    (((k `mod` n234) `mod` n34) `div` n4) (((k `mod` n234) `mod` n34) `mod` n4).

(** The records of a quartet, assembled into a fresh array, with the
    contraction depth set. *)
Definition reference_records2 (e : t) (bra1 bra2 ket1 ket2 : Shell.t)
  : list Libint_t :=
  let n := nprim4 bra1 bra2 ket1 ket2 in
  <[0%nat := set_contrdepth n (quartet_record e bra1 bra2 ket1 ket2 0 Libint_t_zero)]>
    (map (fun k => quartet_record e bra1 bra2 ket1 ket2 k Libint_t_zero) (seq 0 (S n))).

(** The result of the four solid-harmonics passes on a block. *)
Definition to_solid4 (bra1 bra2 ket1 ket2 : Shell.t) (c : list R) : list R :=
  let lof := fun s => Contraction.l (Shell.contr0 s) in
  let pureof := fun s => Contraction.pure (Shell.contr0 s) in
  let ncol_cart := (Shell.cartesian_size ket1 * Shell.cartesian_size ket2)%nat in
  let c := if pureof bra1
           then transform_first (lof bra1) (Shell.cartesian_size bra2 * ncol_cart) c
           else c in
  let c := if pureof bra2
           then transform_inner (Shell.size bra1) (lof bra2) ncol_cart c else c in
  let c := if pureof ket1
           then transform_inner (Shell.size bra1 * Shell.size bra2) (lof ket1)
                  (Shell.cartesian_size ket2) c
           else c in
  if pureof ket2
  then transform_last (Shell.size bra1 * Shell.size bra2 * Shell.size ket1) (lof ket2) c
  else c.

(** The block of a quartet in the order of the kernel: the (ss|ss) total,
    or the kernel's block after the solid-harmonics passes. *)
Definition canonical_block (e : t) (bra1 bra2 ket1 ket2 : Shell.t) : list R :=
  let lof := fun s => Contraction.l (Shell.contr0 s) in
  if (lmax4 bra1 bra2 ket1 ket2 =? 0)%nat then
    [ Rsum (nprim4 bra1 bra2 ket1 ket2) (fun k =>
        LIBINT_T_SS_EREP_SS (quartet_record e bra1 bra2 ket1 ket2 k Libint_t_zero) 0) ]
  else
    to_solid4 bra1 bra2 ket1 ket2
      (libint2_build_eri (lof bra1) (lof bra2) (lof ket1) (lof ket2)
         (reference_records2 e bra1 bra2 ket1 ket2)).

(** The two buffers during the solid-harmonics passes: the first [n]
    entries of [mainbuf] are those of the block [c], and the two buffers
    have the lengths [la] (of the kernel's block) and [lb] (of the
    scratch), exchanged when the pointers are. *)
Definition buffers_hold (la lb n : nat) (c : list R)
  (bufs : list R * list R * bool) : Prop :=
  take n bufs.1.1 = take n c /\ (n <= length c)%nat /\
  length bufs.1.1 = (if bufs.2 then lb else la) /\
  length bufs.1.2 = (if bufs.2 then la else lb).

(** The calls the two-body [compute] runs to the end. *)
Record admissible4 (e : t) (tbra1 tbra2 tket1 tket2 : Shell.t) : Prop := {
  adm4_ncontr1 : Shell.ncontr tbra1 = 1%nat;
  adm4_ncontr2 : Shell.ncontr tbra2 = 1%nat;
  adm4_ncontr3 : Shell.ncontr tket1 = 1%nat;
  adm4_ncontr4 : Shell.ncontr tket2 = 1%nat;
  adm4_deriv : deriv_order_ e = 0%N;
  adm4_capacity :
    (Shell.nprim tbra1 * Shell.nprim tbra2 * Shell.nprim tket1 * Shell.nprim tket2
     <= length (primdata_ e))%nat;
  adm4_lmax : (Z.of_nat (lmax4 tbra1 tbra2 tket1 tket2) <= lmax_ e)%Z;
  adm4_ready : ready (primdata_ e);
  adm4_scratch :
    (Shell.cartesian_size tbra1 * Shell.cartesian_size tbra2 *
     Shell.cartesian_size tket1 * Shell.cartesian_size tket2
     <= length (scratch_ e))%nat
}.

(** What a call leaves of a two-body engine's set-up. *)
Definition same_setup2 (e e' : t) : Prop :=
  Kernel e' = Kernel e /\ lmax_ e' = lmax_ e /\ deriv_order_ e' = deriv_order_ e /\
  core_ints_params_ e' = core_ints_params_ e /\
  length (primdata_ e') = length (primdata_ e) /\
  length (scratch_ e') = length (scratch_ e) /\
  (ready (primdata_ e) -> ready (primdata_ e')).

(** The front of the returned buffer that is the result. *)
Definition result_view4 (s1 s2 s3 s4 : Shell.t) (buf : list R) : list R :=
  take (Shell.size s1 * Shell.size s2 * Shell.size s3 * Shell.size s4) buf.

(** The engine after a sequence of calls. *)
Definition run_calls4 (e : t) (calls : list (Shell.t * Shell.t * Shell.t * Shell.t))
  : t :=
  foldl (fun e c =>
           match compute e c.1.1.1 c.1.1.2 c.1.2 c.2 with
           | Returned (_, e') => e'
           | _ => e
           end) e calls.

End TwoBodyResult.

(** ** Construction *)

Section Construction.
Context {C : Libint2Config} {L : Libint2Library}.

(** The bound [initialize] asserts for an operator type. *)
Definition max_am (ty : OneBodyEngine.type) : Z :=
  match ty with
  | OneBodyEngine.overlap => LIBINT2_MAX_AM_overlap
  | OneBodyEngine.kinetic => LIBINT2_MAX_AM_kinetic
  | OneBodyEngine.nuclear => LIBINT2_MAX_AM_elecpot
  | OneBodyEngine._invalid => -1
  end.

(** What the engines rely on from [libint2_init_*]: the array keeps its
    length and its first record is given a stack. *)
Record init_contract : Prop := {
  init_length : forall pd, length (libint2_init pd) = length pd;
  init_ready : forall pd, (0 < length pd)%nat -> ready (libint2_init pd)
}.

(** A build of the library with first derivatives of one-body integrals. *)
Definition deriv_config : Libint2Config := {|
  SHELLQUARTET_SET_STANDARD := true;
  LIBINT2_DEFINED := fun _ => true;
  LIBINT2_MAX_AM_overlap := 4;
  LIBINT2_MAX_AM_kinetic := 4;
  LIBINT2_MAX_AM_elecpot := 4;
  LIBINT2_MAX_AM_ERI := 4;
  LIBINT2_DERIV_ONEBODY_ORDER := 1;
  LIBINT2_DERIV_ERI_ORDER := 1
|}.



End Construction.

(** ** Closed forms of the (s|s) seeds *)


(** The centre [(alpha1 A + alpha2 B) / (alpha1 + alpha2)]. *)
Definition weighted_centre (alpha1 alpha2 : R) (A B : vec3) : vec3 :=
  ((alpha1 * A.[0] + alpha2 * B.[0]) / (alpha1 + alpha2),
   (alpha1 * A.[1] + alpha2 * B.[1]) / (alpha1 + alpha2),
   (alpha1 * A.[2] + alpha2 * B.[2]) / (alpha1 + alpha2)).


(** ** Two-body construction and capacity *)


(** [overruns n W]: on an array without room for [n] more records, [W]
    runs past its end. *)
Definition overruns (n : nat)
  (W : nat * list Libint_t -> outcome (nat * list Libint_t)) : Prop :=
  forall p pd, (p <= length pd)%nat -> (length pd < p + n)%nat ->
    W (p, pd) = OutOfBounds.

(** ** Closed forms of the two-body seeds *)

(** The factor of the (ss|ss) seed of a primitive quadruple, with
    [2 pi^(5/2)] as the source's literal. *)
Definition eri_pfac (alpha0 alpha1 alpha2 alpha3 c0 c1 c2 c3 : R) (A B C D : vec3) : R :=
  let gammap := alpha0 + alpha1 in
  let gammaq := alpha2 + alpha3 in
  TwoBodyEngine.two_times_M_PI_to_25 *
  exp (- (alpha0 * alpha1 / gammap) * dist2 A B) *
  exp (- (alpha2 * alpha3 / gammaq) * dist2 C D) *
  / (gammap * gammaq * sqrt (gammap + gammaq)) * (c0 * c1 * c2 * c3).

(** The reduced exponent [rho] and the argument [T = rho |P - Q|^2] of
    the core function. *)
Definition eri_rho (alpha0 alpha1 alpha2 alpha3 : R) : R :=
  (alpha0 + alpha1) * (alpha2 + alpha3) / (alpha0 + alpha1 + (alpha2 + alpha3)).

Definition eri_T (alpha0 alpha1 alpha2 alpha3 : R) (A B C D : vec3) : R :=
  eri_rho alpha0 alpha1 alpha2 alpha3 *
  dist2 (weighted_centre alpha0 alpha1 A B) (weighted_centre alpha2 alpha3 C D).

(** The seed of order [m] of the primitive quadruple ([p1], [p2], [p3],
    [p4]) of four shells. *)
Definition eri_seed {L : Libint2Library} (e : TwoBodyEngine.t) (s1 s2 s3 s4 : Shell.t)
  (p1 p2 p3 p4 mmax m : nat) : R :=
  let alpha0 := Shell.alpha_at s1 p1 in
  let alpha1 := Shell.alpha_at s2 p2 in
  let alpha2 := Shell.alpha_at s3 p3 in
  let alpha3 := Shell.alpha_at s4 p4 in
  TwoBodyEngine.core_eval e mmax
    (eri_T alpha0 alpha1 alpha2 alpha3 (Shell.O s1) (Shell.O s2) (Shell.O s3) (Shell.O s4))
    (eri_rho alpha0 alpha1 alpha2 alpha3) m *
  eri_pfac alpha0 alpha1 alpha2 alpha3
    (Shell.coeff_at s1 p1) (Shell.coeff_at s2 p2)
    (Shell.coeff_at s3 p3) (Shell.coeff_at s4 p4)
    (Shell.O s1) (Shell.O s2) (Shell.O s3) (Shell.O s4).


(** ** Geminals as functions *)



(** ** The records of the one-body kernels in closed form *)





Section NuclearContribution.
Context {C : Libint2Config} {L : Libint2Library}.


End NuclearContribution.


(** * Properties *)

(** ** Loops and vector accesses *)

Section Loops.
Local Open Scope nat_scope.

Lemma bind_Returned {A B : Type} (m : outcome A) (f : A -> outcome B) (a : A) :
  m = Returned a -> (m ≫= f) = f a.
Proof. intros ->. reflexivity. Qed.

Lemma at_index_Returned {A : Type} (v : list A) (i : nat) (a : A) :
  v !! i = Some a -> at_index v i = Returned a.
Proof. unfold at_index. intros ->. reflexivity. Qed.

Lemma at_index_OutOfBounds {A : Type} (v : list A) (i : nat) :
  length v <= i -> at_index v i = OutOfBounds.
Proof.
  intros Hle. unfold at_index.
  rewrite (proj2 (lookup_ge_None v i)) by exact Hle. reflexivity.
Qed.

Lemma update_at_Returned {A : Type} (v : list A) (i : nat)
  (f : A -> outcome A) (a a' : A) :
  v !! i = Some a -> f a = Returned a' ->
  update_at v i f = Returned (<[i := a']> v).
Proof.
  intros Hv Hf. unfold update_at.
  rewrite (at_index_Returned _ _ _ Hv). cbn. rewrite Hf. reflexivity.
Qed.

(** The invariant rule of [for_loop]: the loop returns, and what holds
    before it and across every iteration holds after it. *)
Lemma for_loop_inv {S : Type} (I : nat -> S -> Prop) (n : nat)
  (body : nat -> S -> outcome S) (s : S) :
  I 0 s ->
  (forall i s, i < n -> I i s -> exists s', body i s = Returned s' /\ I (Datatypes.S i) s') ->
  exists s', for_loop n body s = Returned s' /\ I n s'.
Proof.
  intros H0 Hstep. induction n as [|n IH].
  - exists s. split; [reflexivity | exact H0].
  - destruct IH as (s1 & Hs1 & HI1).
    { intros i s0 Hi. apply Hstep. lia. }
    destruct (Hstep n s1 (Nat.lt_succ_diag_r n) HI1) as (s2 & Hs2 & HI2).
    exists s2. split; [|exact HI2].
    cbn [for_loop]. rewrite (bind_Returned _ _ _ Hs1). exact Hs2.
Qed.

End Loops.

(** ** Geminal parameters of the [DelcGTG_square] kernel *)

Section Geminal.
Local Open Scope nat_scope.

Lemma triangle_closed (b : nat) : triangle b = (b * (b + 1)) `div` 2.
Proof.
  induction b as [|b IH]; [reflexivity|].
  cbn [triangle]. rewrite IH.
  replace (S b * (S b + 1)) with (b * (b + 1) + S b * 2) by lia.
  rewrite Nat.div_add by lia. lia.
Qed.

Lemma triangle_index_lt (b k n : nat) : k <= b -> b < n -> triangle b + k < triangle n.
Proof.
  intros Hk Hb. induction n as [|n IH]; [lia|].
  cbn [triangle]. destruct (decide (b = n)) as [->|Hne]; [lia|].
  specialize (IH ltac:(lia)). lia.
Qed.

Lemma init_core_ints_params_DelcGTG_square_returns
  (oparams ps0 : ContractedGaussianGeminal) :
  exists ps,
    TwoBodyEngine.init_core_ints_params_DelcGTG_square oparams ps0 = Returned ps /\
    length ps = length ps0 + triangle (length oparams) /\
    (forall i, i < length ps0 -> ps !! i = ps0 !! i) /\
    (forall b k ob ok, oparams !! b = Some ob -> oparams !! k = Some ok -> k <= b ->
       ps !! (length ps0 + triangle b + k) = Some (derived_term ob ok b k)) /\
    (forall i t, length ps0 <= i -> ps !! i = Some t ->
       exists b k ob ok, k <= b /\ oparams !! b = Some ob /\ oparams !! k = Some ok /\
         i = length ps0 + triangle b + k /\ t = derived_term ob ok b k).
Proof.
  unfold TwoBodyEngine.init_core_ints_params_DelcGTG_square.
  set (n := length oparams).
  pose (I := fun (b : nat) (ps : list (R * R)) =>
    length ps = length ps0 + triangle b /\
    (forall i, i < length ps0 -> ps !! i = ps0 !! i) /\
    (forall b' k ob ok, b' < b -> oparams !! b' = Some ob -> oparams !! k = Some ok ->
       k <= b' -> ps !! (length ps0 + triangle b' + k) = Some (derived_term ob ok b' k)) /\
    (forall i t, length ps0 <= i -> ps !! i = Some t ->
       exists b' k ob ok, k <= b' /\ oparams !! b' = Some ob /\ oparams !! k = Some ok /\
         i = length ps0 + triangle b' + k /\ t = derived_term ob ok b' k)).
  match goal with |- context [for_loop ?n ?body ?s] =>
    destruct (for_loop_inv I n body s) as (ps & Hps & Hlen & Hold & Hnew & Hall) end.
  - unfold I. split; [cbn; lia|]. split; [reflexivity|]. split; [intros; lia|].
    intros i t Hi Ht. apply lookup_lt_Some in Ht. lia.
  - intros b ps Hb (Hlen & Hold & Hnew & Hall).
    destruct (lookup_lt_is_Some_2 oparams b Hb) as [ob Hob].
    pose (J := fun (k : nat) (ps : list (R * R)) =>
      length ps = length ps0 + triangle b + k /\
      (forall i, i < length ps0 -> ps !! i = ps0 !! i) /\
      (forall b' k' ob ok, b' < b -> oparams !! b' = Some ob -> oparams !! k' = Some ok ->
         k' <= b' -> ps !! (length ps0 + triangle b' + k') = Some (derived_term ob ok b' k')) /\
      (forall k' ok, k' < k -> oparams !! k' = Some ok ->
         ps !! (length ps0 + triangle b + k') = Some (derived_term ob ok b k')) /\
      (forall i t, length ps0 <= i -> ps !! i = Some t ->
         exists b' k' ob ok, k' <= b' /\ oparams !! b' = Some ob /\
           oparams !! k' = Some ok /\
           i = length ps0 + triangle b' + k' /\ t = derived_term ob ok b' k')).
    match goal with |- context [for_loop ?n ?body ?s] =>
      destruct (for_loop_inv J n body s)
        as (ps' & Hps' & Hlen' & Hold' & Hnew' & Hrow' & Hall') end.
    + unfold J. split; [lia|]. split; [exact Hold|]. split; [exact Hnew|].
      split; [intros; lia | exact Hall].
    + intros k ps1 Hk (Hl1 & Ho1 & Hn1 & Hr1 & Ha1).
      destruct (lookup_lt_is_Some_2 oparams k ltac:(lia)) as [ok Hok].
      eexists. split.
      { rewrite (at_index_Returned _ _ _ Hob). cbn.
        rewrite (at_index_Returned _ _ _ Hok). reflexivity. }
      unfold J. split; [|split; [|split; [|split]]].
      * rewrite length_app. cbn. lia.
      * intros i Hi. rewrite lookup_app_l by lia. apply Ho1, Hi.
      * intros b' k' ob' ok' Hb' Hob' Hok' Hk'.
        rewrite lookup_app_l.
        { apply Hn1; assumption. }
        pose proof (triangle_index_lt b' k' b Hk' Hb'). lia.
      * intros k' ok' Hk' Hok'.
        destruct (decide (k' = k)) as [->|Hne].
        { rewrite lookup_app_r by lia.
          replace (length ps0 + triangle b + k - length ps1) with 0 by lia.
          cbn. rewrite Hok in Hok'. injection Hok' as <-. reflexivity. }
        rewrite lookup_app_l by lia. apply Hr1; [lia | exact Hok'].
      * intros i t Hi Ht.
        destruct (decide (i < length ps1)) as [Hlt|Hge].
        { rewrite lookup_app_l in Ht by exact Hlt. apply Ha1; assumption. }
        rewrite lookup_app_r in Ht by lia.
        destruct (i - length ps1) as [|d] eqn:Hd; [|discriminate Ht].
        cbn in Ht. injection Ht as <-.
        exists b, k, ob, ok. split; [lia|]. split; [exact Hob|]. split; [exact Hok|].
        split; [lia | reflexivity].
    + exists ps'. split; [exact Hps'|]. unfold I. split; [|split; [|split]].
      * cbn [triangle]. lia.
      * exact Hold'.
      * intros b' k ob' ok Hb' Hob' Hok Hk.
        destruct (decide (b' = b)) as [->|Hne].
        { rewrite Hob in Hob'. injection Hob' as <-. apply Hrow'; [lia | exact Hok]. }
        apply Hnew'; [lia | assumption..].
      * exact Hall'.
  - exists ps. split; [exact Hps|]. split; [exact Hlen|]. split; [exact Hold|].
    split; [|exact Hall].
    intros b k ob ok Hob Hok Hk. apply Hnew; try assumption.
    apply lookup_lt_Some in Hob. exact Hob.
Qed.

End Geminal.

(** ** [initialize] of the two-body engine *)

Section TwoBodyInitialize.
Context {C : Libint2Config} {L : Libint2Library}.
Import TwoBodyEngine.

(** [initialize] fails an assertion, throws from [resize], leaves the
    engine alone, or initialises the records and resizes the scratch
    buffer. *)
Lemma initialize4_cases (e : t) :
  initialize e = AssertionFailed \/ initialize e = Thrown length_error \/
  initialize e = Returned e \/
  exists k, initialize e =
    Returned (mk (Kernel e) (libint2_init (primdata_ e)) (lmax_ e) (deriv_order_ e)
                (core_ints_params_ e) (resize k 0%R (scratch_ e))).
Proof.
  unfold initialize, assert, resize_int. cbv zeta.
  repeat case_match; cbn [mbind outcome_bind mret outcome_ret];
    first [ left; reflexivity
          | right; left; reflexivity
          | right; right; left; reflexivity
          | right; right; right; eexists; reflexivity ].
Qed.

End TwoBodyInitialize.

(** C7.  For a [DelcGTG_square] engine whose parameter set is still empty,
    [init_core_ints_params] returns, leaves every other field alone and
    stores [n(n+1)/2] derived terms for a geminal of [n] terms: the pair of
    positions [k <= b] contributes, at position [b(b+1)/2 + k], the exponent
    [a_b + a_k] and the coefficient [4 a_b a_k c_b c_k], doubled off the
    diagonal; every stored term is one of these.  The constructor [make]
    stores exactly this set. *)
Theorem geminal_square_parameters
  {C : Libint2Config} {L : Libint2Library}
  (oparams : ContractedGaussianGeminal) (e : TwoBodyEngine.t) :
  TwoBodyEngine.Kernel e = DelcGTG_square ->
  TwoBodyEngine.core_ints_params_ e = [] ->
  exists ps,
    TwoBodyEngine.init_core_ints_params oparams e =
      Returned (TwoBodyEngine.with_core_ints_params ps e) /\
    length ps = ((length oparams * (length oparams + 1)) `div` 2)%nat /\
    (forall b k ab cb ak ck,
       oparams !! b = Some (ab, cb) -> oparams !! k = Some (ak, ck) -> (k <= b)%nat ->
       ps !! (((b * (b + 1)) `div` 2) + k)%nat =
         Some (ab + ak, 4 * ab * ak * cb * ck * (if decide (b = k) then 1 else 2))) /\
    (forall i t, ps !! i = Some t ->
       exists b k ob ok, (k <= b)%nat /\ oparams !! b = Some ob /\
         oparams !! k = Some ok /\ i = (triangle b + k)%nat /\
         t = derived_term ob ok b k) /\
    (forall max_nprim max_l deriv_order,
       TwoBodyEngine.Kernel e = DelcGTG_square ->
       forall e', TwoBodyEngine.make DelcGTG_square max_nprim max_l deriv_order oparams
                  = Returned e' ->
       TwoBodyEngine.core_ints_params_ e' = ps).
Proof.
  intros HK Hempty.
  destruct (init_core_ints_params_DelcGTG_square_returns oparams [])
    as (ps & Hps & Hlen & _ & Hnew & Hall).
  exists ps. split; [|split; [|split; [|split]]].
  - unfold TwoBodyEngine.init_core_ints_params. rewrite HK, Hempty, Hps. reflexivity.
  - rewrite Hlen, triangle_closed. reflexivity.
  - intros b k ab cb ak ck Hb Hk Hle.
    rewrite <- triangle_closed.
    pose proof (Hnew b k _ _ Hb Hk Hle) as Hterm. cbn [length Nat.add] in Hterm.
    rewrite Hterm. unfold derived_term. cbn [fst snd].
    destruct (decide (b = k)) as [->|Hne].
    + rewrite Nat.eqb_refl. f_equal. f_equal. ring.
    + rewrite (proj2 (Nat.eqb_neq b k) Hne). f_equal. f_equal. ring.
  - intros i t Ht. destruct (Hall i t ltac:(cbn; lia) Ht) as (b & k & ob & ok & H).
    exists b, k, ob, ok. exact H.
  - intros max_nprim max_l deriv_order _ e' Hmake.
    unfold TwoBodyEngine.make in Hmake.
    match type of Hmake with context [TwoBodyEngine.initialize ?e0] =>
      destruct (initialize4_cases e0) as [Hinit|[Hinit|[Hinit|(k & Hinit)]]];
        rewrite Hinit in Hmake; cbn [mbind outcome_bind] in Hmake;
        try discriminate Hmake
    end;
      unfold TwoBodyEngine.init_core_ints_params in Hmake;
      cbn [TwoBodyEngine.Kernel TwoBodyEngine.core_ints_params_] in Hmake;
      rewrite Hps in Hmake; cbn [mbind outcome_bind mret outcome_ret] in Hmake;
      injection Hmake as <-; reflexivity.
Qed.

Lemma geminal_square_parameters_witness :
  exists ps,
    TwoBodyEngine.init_core_ints_params example_geminal fresh_DelcGTG_square_engine =
      Returned (TwoBodyEngine.with_core_ints_params ps fresh_DelcGTG_square_engine) /\
    length ps = 3%nat /\
    ps !! 1%nat = Some (3 + 1, 4 * 3 * 1 * 4 * 2 * 2).
Proof.
  destruct (geminal_square_parameters (C := example_config) (L := example_library)
              example_geminal fresh_DelcGTG_square_engine eq_refl eq_refl)
    as (ps & Hret & Hlen & Hterm & _).
  exists ps. split; [exact Hret|]. split; [exact Hlen|].
  exact (Hterm 1%nat 0%nat 3 4 1 2 eq_refl eq_refl (Nat.le_0_l 1)).
Defined.

(** ** Writes to a primitive-data record *)

Section Records.
Context {C : Libint2Config}.

Lemma scalar_set_scalar (f g : field) (v : R) (r : Libint_t) :
  scalar (set_scalar f v r) g = if decide (g = f) then v else scalar r g.
Proof. reflexivity. Qed.

Lemma scalar_set_if_defined (f g : field) (v : R) (r : Libint_t) :
  scalar (set_if_defined f v r) g =
    if decide (g = f) then (if LIBINT2_DEFINED f then v else scalar r g)
    else scalar r g.
Proof.
  unfold set_if_defined. destruct (LIBINT2_DEFINED f); cbn;
    destruct (decide (g = f)); reflexivity.
Qed.

Lemma write_all_frame (ws : list (field * R)) (r : Libint_t) :
  LIBINT_T_S_ELECPOT_S (write_all ws r) = LIBINT_T_S_ELECPOT_S r /\
  same_frame r (write_all ws r).
Proof.
  unfold write_all, same_frame. revert r.
  induction ws as [|[f v] ws IH]; intros r; [repeat split|].
  cbn [foldl fst snd]. destruct (IH (set_if_defined f v r)) as (H1 & H2 & H3 & H4 & H5).
  split; [|split; [|split; [|split]]]; (etrans; [eassumption|]);
    unfold set_if_defined; destruct (LIBINT2_DEFINED f); reflexivity.
Qed.

Lemma same_frame_refl (r : Libint_t) : same_frame r r.
Proof. repeat split. Qed.

Lemma same_frame_trans (r1 r2 r3 : Libint_t) :
  same_frame r1 r2 -> same_frame r2 r3 -> same_frame r1 r3.
Proof. unfold same_frame. intuition congruence. Qed.

Lemma same_frame_write_all (ws : list (field * R)) (r : Libint_t) :
  same_frame r (write_all ws r).
Proof. apply write_all_frame. Qed.

(** A member no assignment of the sequence names keeps its value. *)
Lemma scalar_write_all_other (ws : list (field * R)) (r : Libint_t) (f : field) :
  f ∉ ws.*1 -> scalar (write_all ws r) f = scalar r f.
Proof.
  unfold write_all. revert r.
  induction ws as [|[g v] ws IH]; intros r Hnot; [reflexivity|].
  cbn [foldl fst snd]. rewrite IH.
  - rewrite scalar_set_if_defined.
    destruct (decide (f = g)) as [->|]; [|reflexivity].
    exfalso. apply Hnot. cbn. left.
  - intros Hin. apply Hnot. cbn. right. exact Hin.
Qed.

(** A defined member an assignment of the sequence names no longer depends
    on the record the sequence started from. *)
Lemma scalar_write_all_agree (ws : list (field * R)) (r1 r2 : Libint_t) (f : field) :
  scalar r1 f = scalar r2 f \/ (f ∈ ws.*1 /\ LIBINT2_DEFINED f = true) ->
  scalar (write_all ws r1) f = scalar (write_all ws r2) f.
Proof.
  unfold write_all. revert r1 r2.
  induction ws as [|[g v] ws IH]; intros r1 r2 H.
  - destruct H as [H|[H _]]; [exact H|]. cbn in H. inversion H.
  - cbn [foldl fst snd]. apply IH. rewrite !scalar_set_if_defined.
    destruct (decide (f = g)) as [->|Hne].
    + destruct (LIBINT2_DEFINED g) eqn:Hg; [left; reflexivity|].
      destruct H as [H|[_ H]]; [left; exact H | discriminate H].
    + destruct H as [H|[Hin Hdef]]; [left; exact H|].
      right. split; [|exact Hdef]. cbn in Hin.
      apply elem_of_cons in Hin. destruct Hin as [->|Hin]; [contradiction | exact Hin].
Qed.

(** The value of a defined member named once. *)
Lemma scalar_write_all_value (ws : list (field * R)) (r : Libint_t)
  (i : nat) (f : field) (v : R) :
  NoDup ws.*1 -> ws !! i = Some (f, v) -> LIBINT2_DEFINED f = true ->
  scalar (write_all ws r) f = v.
Proof.
  unfold write_all. revert r i.
  induction ws as [|[g w] ws IH]; intros r i Hnd Hin Hdef.
  - discriminate Hin.
  - cbn [foldl fst snd]. cbn in Hnd. apply NoDup_cons in Hnd. destruct Hnd as [Hg Hnd].
    destruct i as [|i].
    + cbn in Hin. injection Hin as -> ->.
      change (foldl _ ?r0 ws) with (write_all ws r0).
      rewrite scalar_write_all_other by exact Hg.
      rewrite scalar_set_if_defined.
      destruct (decide (f = f)); [|contradiction]. rewrite Hdef. reflexivity.
    + cbn in Hin. apply (IH _ i); assumption.
Qed.

End Records.

(** The members a sequence of assignments names are pairwise distinct. *)
Ltac distinct_members :=
  cbn [fmap list_fmap fst]; apply (bool_decide_unpack _); vm_compute; exact I.


(** ** One-body engine: nuclear charges and the checks of [compute] *)

Section OneBodyChecks.
Context {C : Libint2Config} {L : Libint2Library}.
Import OneBodyEngine.

(** C3.  A nuclear-attraction engine without charges: for single-contraction
    shells and derivative order 0 (the configuration the engine supports),
    [compute] throws the "no nuclei" error, an outcome distinct from a failed
    assertion and from a return, whatever the record array, the scratch
    buffer, the capacity and the primitive counts are. *)
Theorem nuclear_without_charges_throws (e : t) (s1 s2 : Shell.t) :
  type_ e = nuclear ->
  q_ e = [] ->
  deriv_order_ e = 0%N ->
  Shell.ncontr s1 = 1%nat ->
  Shell.ncontr s2 = 1%nat ->
  compute e s1 s2 = Thrown no_nuclei_message /\
  compute e s1 s2 <> AssertionFailed /\
  (forall r, compute e s1 s2 <> Returned r) /\
  (forall pd sc,
     compute (with_scratch sc (with_primdata pd e)) s1 s2 = Thrown no_nuclei_message).
Proof.
  intros Hty Hq Hd H1 H2.
  assert (Hthrow : forall pd sc,
    compute (with_scratch sc (with_primdata pd e)) s1 s2 = Thrown no_nuclei_message).
  { intros pd sc. unfold compute. cbn [deriv_order_ with_scratch with_primdata type_ q_].
    rewrite H1, H2, Hd, Hty, Hq. reflexivity. }
  assert (Hc : compute e s1 s2 = Thrown no_nuclei_message).
  { unfold compute. rewrite H1, H2, Hd, Hty, Hq. reflexivity. }
  rewrite Hc. split; [reflexivity|]. split; [discriminate|]. split; [discriminate|].
  exact Hthrow.
Qed.

End OneBodyChecks.

Lemma nuclear_without_charges_throws_witness :
  OneBodyEngine.compute (C := example_config) (L := example_library)
    (OneBodyEngine.mk OneBodyEngine.nuclear [] 0 0 [] [])
    (s_shell 1 1 (0, 0, 0)) s_shell_2prim
  = Thrown OneBodyEngine.no_nuclei_message.
Proof.
  apply (nuclear_without_charges_throws (C := example_config) (L := example_library)
           (OneBodyEngine.mk OneBodyEngine.nuclear [] 0 0 [] [])
           (s_shell 1 1 (0, 0, 0)) s_shell_2prim
           eq_refl eq_refl eq_refl eq_refl eq_refl).
Defined.

(** ** The one-body assembler *)

Section OneBodyPrimdata.
Context {C : Libint2Config} {L : Libint2Library}.
Import OneBodyEngine.

(** [compute_primdata] returns for derivative order 0 and an operator
    component in range; the seeds it stores are those of the primitive pair. *)
Lemma compute_primdata_returns (e : t) (r : Libint_t) (s1 s2 : Shell.t)
  (p1 p2 oset : nat) :
  deriv_order_ e = 0%N ->
  (type_ e = nuclear -> is_Some (q_ e !! oset)) ->
  let v := locals s1 s2 p1 p2 in
  let c1 := Shell.coeff_at s1 p1 in
  let c2 := Shell.coeff_at s2 p2 in
  let ltot := (Contraction.l (Shell.contr0 s1) + Contraction.l (Shell.contr0 s2))%nat in
  exists r',
    compute_primdata e r s1 s2 p1 p2 oset = Returned r' /\
    same_frame r r' /\
    scalar r' LIBINT_T_S_OVERLAP_S = ovlp_ss v c1 c2 /\
    (type_ e = kinetic -> scalar r' LIBINT_T_S_KINETIC_S = kinetic_ss v c1 c2) /\
    (type_ e = nuclear ->
     forall qC, q_ e !! oset = Some qC ->
       LIBINT2_DEFINED (PC a_x) = true -> LIBINT2_DEFINED (PC a_y) = true ->
       LIBINT2_DEFINED (PC a_z) = true ->
       forall m, (m <= ltot)%nat ->
         LIBINT_T_S_ELECPOT_S r' m =
           fm_eval (elecpot_argument v qC.2) ltot m * elecpot_pfac qC.1 v c1 c2).
Proof.
  intros Hd Hq v c1 c2 ltot. unfold compute_primdata.
  fold v c1 c2 ltot. rewrite Hd. change (0 <? 0)%N with false. cbv iota.
  set (r1 := if SHELLQUARTET_SET_STANDARD || bool_decide (type_ e = kinetic)
             then write_bra_offsets (Shell.O s1) (Shell.O s2) v r else r).
  set (r2 := if negb SHELLQUARTET_SET_STANDARD || bool_decide (type_ e = kinetic)
             then write_ket_offsets (Shell.O s1) (Shell.O s2) v r1 else r1).
  set (r3 := write_all [(oo2z, 0.5 * oogammap v)] r2).
  set (r4 := if bool_decide (type_ e = kinetic)
             then write_kinetic_factors (Shell.alpha_at s1 p1) (Shell.alpha_at s2 p2) v r3
             else r3).
  assert (F4 : same_frame r r4).
  { unfold r4, r3, r2, r1, write_bra_offsets, write_ket_offsets, write_kinetic_factors.
    repeat match goal with
           | |- context [if ?b then _ else _] => destruct b
           end;
      repeat first [ apply same_frame_refl
                   | eapply same_frame_trans; [|apply same_frame_write_all] ]. }
  destruct (type_ e) eqn:Hty.
  - (* overlap *)
    rewrite !(bool_decide_eq_false_2 (overlap = _)) by discriminate.
    cbn. eexists. split; [reflexivity|].
    split; [exact F4|]. split; [reflexivity|]. split; intros; discriminate.
  - (* kinetic *)
    rewrite (bool_decide_eq_true_2 (kinetic = kinetic)) by reflexivity.
    rewrite (bool_decide_eq_false_2 (kinetic = nuclear)) by discriminate.
    cbn. eexists. split; [reflexivity|].
    split; [exact F4|]. split; [reflexivity|]. split; [reflexivity | intros; discriminate].
  - (* nuclear *)
    rewrite (bool_decide_eq_true_2 (nuclear = nuclear)) by reflexivity.
    rewrite (bool_decide_eq_false_2 (nuclear = kinetic)) by discriminate.
    destruct (Hq eq_refl) as [qC HqC].
    rewrite (at_index_Returned _ _ _ HqC). cbn [mbind outcome_bind mret outcome_ret].
    destruct (write_all_frame [(PC a_x, Px v - (qC.2).[0]); (PC a_y, Py v - (qC.2).[1]);
                               (PC a_z, Pz v - (qC.2).[2])] r4) as [_ F5].
    fold (write_PC qC.2 v r4) in F5.
    assert (F : same_frame r (write_PC qC.2 v r4)).
    { eapply same_frame_trans; [exact F4 | exact F5]. }
    destruct (LIBINT2_DEFINED (PC a_x) && LIBINT2_DEFINED (PC a_y) &&
              LIBINT2_DEFINED (PC a_z)) eqn:Hdef.
    + eexists. split; [reflexivity|].
      split; [exact F|]. split; [reflexivity|]. split; [intros; discriminate|].
      intros _ qC' HqC' Hx Hy Hz m Hm. rewrite HqC in HqC'. injection HqC' as <-.
      unfold write_elecpot, eval_and_scale. cbn [set_elecpot LIBINT_T_S_ELECPOT_S].
      replace (m <=? _)%nat with true by (symmetry; apply Nat.leb_le; exact Hm).
      rewrite !scalar_set_scalar.
      repeat (destruct (decide (PC _ = LIBINT_T_S_OVERLAP_S)); [discriminate|]).
      unfold write_PC.
      rewrite (scalar_write_all_value _ r4 0 (PC a_x) (Px v - (qC.2).[0]));
        [|distinct_members | reflexivity | exact Hx].
      rewrite (scalar_write_all_value _ r4 1 (PC a_y) (Py v - (qC.2).[1]));
        [|distinct_members | reflexivity | exact Hy].
      rewrite (scalar_write_all_value _ r4 2 (PC a_z) (Pz v - (qC.2).[2]));
        [|distinct_members | reflexivity | exact Hz].
      reflexivity.
    + eexists. split; [reflexivity|].
      split; [exact F|]. split; [reflexivity|]. split; [intros; discriminate|].
      intros _ qC' _ Hx Hy Hz. rewrite Hx, Hy, Hz in Hdef. discriminate Hdef.
  - (* _invalid *)
    rewrite !(bool_decide_eq_false_2 (_invalid = _)) by discriminate.
    cbn. eexists. split; [reflexivity|].
    split; [exact F4|]. split; [reflexivity|]. split; intros; discriminate.
Qed.

End OneBodyPrimdata.

(** ** Numerical constants *)

Section Constants.

Lemma PI_bounds : 3.1415926535 < PI < 3.1415926536.
Proof.
  pose proof (PI_2_3_7_ineq 5) as H.
  unfold sum_f_R0, tg_alt, PI_2_3_7_tg, Ratan_seq in H.
  cbn [Nat.mul Nat.add pow] in H.
  repeat rewrite S_INR in H. rewrite INR_0 in H.
  lra.
Qed.

Lemma sqrt_between (a b x : R) :
  0 <= a -> 0 <= b -> a * a < x -> x < b * b -> a < sqrt x < b.
Proof.
  intros Ha Hb Hax Hxb. split.
  - rewrite <- (sqrt_square a Ha). apply sqrt_lt_1_alt. nra.
  - rewrite <- (sqrt_square b Hb). apply sqrt_lt_1_alt. nra.
Qed.

Lemma sqrt_PI_bounds : 1.77245385 < sqrt PI < 1.77245386.
Proof. pose proof PI_bounds. apply sqrt_between; lra. Qed.

Lemma sqrt_2_bounds : 1.41421 < sqrt 2 < 1.41422.
Proof. apply sqrt_between; lra. Qed.

(** The literal [sqrt_PI_cubed] of the source is pi^(3/2) to seven places. *)
Lemma sqrt_PI_cubed_approx :
  Rabs (OneBodyEngine.sqrt_PI_cubed - PI * sqrt PI) < 1 / 10 ^ 7.
Proof.
  pose proof PI_bounds. pose proof sqrt_PI_bounds.
  unfold OneBodyEngine.sqrt_PI_cubed. apply Rabs_def1; nra.
Qed.

End Constants.

(** ** The overlap seed *)

Section OverlapSeed.
Context {C : Libint2Config} {L : Libint2Library}.
Import OneBodyEngine.

Lemma ovlp_ss_closed_form (s1 s2 : Shell.t) (p1 p2 : nat) (c1 c2 : R) :
  let alpha1 := Shell.alpha_at s1 p1 in
  let alpha2 := Shell.alpha_at s2 p2 in
  let gamma := alpha1 + alpha2 in
  0 < gamma ->
  ovlp_ss (locals s1 s2 p1 p2) c1 c2 =
    sqrt_PI_cubed * / (gamma * sqrt gamma) *
    exp (- (alpha1 * alpha2 / gamma) * dist2 (Shell.O s1) (Shell.O s2)) * c1 * c2.
Proof.
  intros alpha1 alpha2 gamma Hg.
  unfold ovlp_ss, locals. cbn [rhop AB2 oogammap]. fold alpha1 alpha2 gamma.
  unfold dist2.
  replace (1 / gamma) with (/ gamma) by (unfold Rdiv; ring).
  rewrite sqrt_inv.
  assert (Hs : 0 < sqrt gamma) by (apply sqrt_lt_R0; exact Hg).
  replace (alpha1 * alpha2 * / gamma) with (alpha1 * alpha2 / gamma)
    by (unfold Rdiv; ring).
  field. split; lra.
Qed.

(** C1, as amended.  For derivative order 0 and an operator component in
    range, [compute_primdata] returns and stores as the overlap seed
    [sqrt_PI_cubed * gamma^(-3/2) * exp(- rho AB^2) * c1 c2], with
    [gamma = alpha1 + alpha2 > 0] and [rho = alpha1 alpha2 / gamma];
    [sqrt_PI_cubed] is the source's literal for pi^(3/2). *)
Theorem overlap_seed (e : t) (r : Libint_t) (s1 s2 : Shell.t) (p1 p2 oset : nat) :
  let alpha1 := Shell.alpha_at s1 p1 in
  let alpha2 := Shell.alpha_at s2 p2 in
  let c1 := Shell.coeff_at s1 p1 in
  let c2 := Shell.coeff_at s2 p2 in
  let gamma := alpha1 + alpha2 in
  let rho := alpha1 * alpha2 / gamma in
  deriv_order_ e = 0%N ->
  (type_ e = nuclear -> is_Some (q_ e !! oset)) ->
  0 < gamma ->
  (exists r',
     compute_primdata e r s1 s2 p1 p2 oset = Returned r' /\
     scalar r' LIBINT_T_S_OVERLAP_S =
       sqrt_PI_cubed * / (gamma * sqrt gamma) *
       exp (- rho * dist2 (Shell.O s1) (Shell.O s2)) * c1 * c2) /\
  Rabs (sqrt_PI_cubed - PI * sqrt PI) < 1 / 10 ^ 7.
Proof.
  intros alpha1 alpha2 c1 c2 gamma rho Hd Hq Hg.
  split; [|exact sqrt_PI_cubed_approx].
  destruct (compute_primdata_returns e r s1 s2 p1 p2 oset Hd Hq)
    as (r' & Hret & _ & Hov & _).
  exists r'. split; [exact Hret|]. rewrite Hov.
  apply ovlp_ss_closed_form. exact Hg.
Qed.

End OverlapSeed.

Lemma overlap_seed_witness :
  exists r',
    OneBodyEngine.compute_primdata (C := example_config) (L := example_library)
      small_overlap_engine Libint_t_zero (s_shell 1 1 origin) (s_shell 1 1 origin) 0 0 0
    = Returned r'.
Proof.
  destruct (overlap_seed (C := example_config) (L := example_library)
              small_overlap_engine Libint_t_zero
              (s_shell 1 1 origin) (s_shell 1 1 origin) 0 0 0) as [(r' & Hret & _) _].
  - reflexivity.
  - discriminate.
  - cbn. lra.
  - exists r'. exact Hret.
Defined.

(** C1, as worded, fails: for two coinciding primitives of exponent 1 and
    coefficient 1 the stored seed is [sqrt_PI_cubed * 2^(-3/2)], half of what
    the worded formula gives. *)
Lemma overlap_seed_as_worded_fails :
  exists r',
    OneBodyEngine.compute_primdata (C := example_config) (L := example_library)
      small_overlap_engine Libint_t_zero (s_shell 1 1 origin) (s_shell 1 1 origin) 0 0 0
    = Returned r' /\
    scalar r' LIBINT_T_S_OVERLAP_S <> overlap_seed_as_worded 1 1 1 1 origin origin.
Proof.
  destruct (compute_primdata_returns (C := example_config) (L := example_library)
              small_overlap_engine Libint_t_zero
              (s_shell 1 1 origin) (s_shell 1 1 origin) 0 0 0 eq_refl)
    as (r' & Hret & _ & Hov & _); [discriminate|].
  exists r'. split; [exact Hret|]. rewrite Hov.
  rewrite ovlp_ss_closed_form by (cbn; lra).
  unfold overlap_seed_as_worded, dist2, origin. cbn.
  replace (- (1 * 1 / (1 + 1)) * ((0 - 0) * (0 - 0) + (0 - 0) * (0 - 0) + (0 - 0) * (0 - 0)))
    with 0 by field.
  rewrite exp_0.
  pose proof PI_bounds. pose proof sqrt_PI_bounds.
  assert (H2 : 0 < sqrt (1 + 1)) by (apply sqrt_lt_R0; lra).
  assert (Hi : 0 < / sqrt (1 + 1)) by (apply Rinv_0_lt_compat; exact H2).
  unfold OneBodyEngine.sqrt_PI_cubed.
  rewrite Rinv_mult.
  assert (Hq : 3 < PI * sqrt PI) by nra.
  set (q := PI * sqrt PI) in *. set (t := / sqrt (1 + 1)) in *.
  clearbody q t. intros Heq. nra.
Qed.

(** ** Finite sums *)

Section Sums.

Lemma Rsum_ext (n : nat) (f g : nat -> R) :
  (forall i, (i < n)%nat -> f i = g i) -> Rsum n f = Rsum n g.
Proof.
  induction n as [|n IH]; intros H; [reflexivity|].
  cbn [Rsum]. rewrite IH by (intros i Hi; apply H; lia).
  rewrite (H n) by lia. reflexivity.
Qed.

Lemma Rsum_add (a b : nat) (f : nat -> R) :
  Rsum (a + b) f = Rsum a f + Rsum b (fun i => f (a + i)%nat).
Proof.
  induction b as [|b IH].
  - rewrite Nat.add_0_r. cbn [Rsum]. ring.
  - rewrite Nat.add_succ_r. cbn [Rsum]. rewrite IH. ring.
Qed.


Lemma Rsum_zero (n : nat) : Rsum n (fun _ => 0) = 0.
Proof. induction n as [|n IH]; cbn [Rsum]; [reflexivity | rewrite IH; ring]. Qed.

(** A sum over the row-major index of a pair is the double sum. *)
Lemma Rsum_flatten (n m : nat) (g : nat -> R) (f : nat -> nat -> R) :
  (forall i j, (i < n)%nat -> (j < m)%nat -> g (i * m + j)%nat = f i j) ->
  Rsum (n * m) g = Rsum n (fun i => Rsum m (f i)).
Proof.
  induction n as [|n IH]; intros H; [reflexivity|].
  replace (S n * m)%nat with (n * m + m)%nat by lia.
  rewrite Rsum_add. cbn [Rsum]. rewrite IH by (intros i j Hi Hj; apply H; lia).
  f_equal. apply Rsum_ext. intros j Hj. apply H; lia.
Qed.


(** The running sum of a loop that starts from [a]. *)
Lemma running_sum (n : nat) (body : nat -> R -> outcome R) (f : nat -> R) (a : R) :
  (forall p acc, (p < n)%nat -> body p acc = Returned (acc + f p)) ->
  for_loop n body a = Returned (a + Rsum n f).
Proof.
  induction n as [|n IH]; intros H.
  - cbn. f_equal. ring.
  - cbn [for_loop Rsum]. rewrite IH by (intros p acc Hp; apply H; lia). cbn.
    rewrite (H n) by lia. f_equal. ring.
Qed.

End Sums.

(** ** The primitive-pair loop *)

Section OneBodyLoops.
Context {C : Libint2Config} {L : Libint2Library}.
Import OneBodyEngine.
Local Open Scope nat_scope.

(** [assemble] returns when the records fit: it visits the pairs in
    row-major order and replaces the record of each by what
    [compute_primdata] makes of it. *)
Lemma assemble_returns (e : t) (bra ket : Shell.t) (oset : nat) (pd : list Libint_t) :
  deriv_order_ e = 0%N ->
  (type_ e = nuclear -> is_Some (q_ e !! oset)) ->
  Shell.nprim bra * Shell.nprim ket <= length pd ->
  exists pd',
    assemble e bra ket oset pd = Returned (Shell.nprim bra * Shell.nprim ket, pd') /\
    length pd' = length pd /\
    (forall pb pk, pb < Shell.nprim bra -> pk < Shell.nprim ket ->
       exists r r', pd !! (pb * Shell.nprim ket + pk) = Some r /\
         compute_primdata e r bra ket pb pk oset = Returned r' /\
         pd' !! (pb * Shell.nprim ket + pk) = Some r') /\
    (forall p, Shell.nprim bra * Shell.nprim ket <= p -> pd' !! p = pd !! p).
Proof.
  intros Hd Hq Hfit. unfold assemble.
  set (nb := Shell.nprim bra) in *. set (nk := Shell.nprim ket) in *.
  pose (done_before := fun (pb pk : nat) (pd' : list Libint_t) =>
    forall pb' pk', pk' < nk -> pb' < pb \/ (pb' = pb /\ pk' < pk) ->
      exists r r', pd !! (pb' * nk + pk') = Some r /\
        compute_primdata e r bra ket pb' pk' oset = Returned r' /\
        pd' !! (pb' * nk + pk') = Some r').
  pose (I := fun (pb : nat) (st : nat * list Libint_t) =>
    st.1 = pb * nk /\ length st.2 = length pd /\ done_before pb 0 st.2 /\
    (forall p, pb * nk <= p -> st.2 !! p = pd !! p)).
  match goal with |- context [for_loop ?n ?body ?s] =>
    destruct (for_loop_inv I n body s) as ([p12 pd'] & Hret & Hp & Hlen & Hdone & Hrest) end.
  - unfold I, done_before. cbn. split; [lia|]. split; [reflexivity|].
    split; [intros; lia | reflexivity].
  - intros pb [p0 pd0] Hpb (Hp0 & Hl0 & Hdone0 & Hrest0). cbn in Hp0, Hl0, Hdone0, Hrest0.
    pose (J := fun (pk : nat) (st : nat * list Libint_t) =>
      st.1 = pb * nk + pk /\ length st.2 = length pd /\ done_before pb pk st.2 /\
      (forall p, pb * nk + pk <= p -> st.2 !! p = pd !! p)).
    match goal with |- context [for_loop ?n ?body ?s] =>
      destruct (for_loop_inv J n body s) as ([p1 pd1] & Hret1 & Hp1 & Hl1 & Hdone1 & Hrest1) end.
    + unfold J. cbn. split; [lia|]. split; [exact Hl0|]. split; [exact Hdone0|].
      intros p Hp. apply Hrest0. lia.
    + intros pk [p2 pd2] Hpk (Hp2 & Hl2 & Hdone2 & Hrest2). cbn in Hp2, Hl2, Hdone2, Hrest2.
      assert (Hidx : p2 < length pd) by (subst p2; nia).
      destruct (lookup_lt_is_Some_2 pd p2 Hidx) as [r Hr].
      destruct (compute_primdata_returns e r bra ket pb pk oset Hd Hq) as (r' & Hr' & _).
      exists (S p2, <[p2 := r']> pd2). split.
      { rewrite (update_at_Returned pd2 p2 _ r r'); [reflexivity | | exact Hr'].
        rewrite Hrest2 by lia. exact Hr. }
      unfold J. cbn. split; [lia|]. split; [rewrite length_insert; exact Hl2|]. split.
      * intros pb' pk' Hk' Hcase.
        destruct (decide (pb' = pb /\ pk' = pk)) as [[-> ->]|Hne].
        -- exists r, r'. rewrite <- Hp2. split; [exact Hr|]. split; [exact Hr'|].
           apply list_lookup_insert_eq. lia.
        -- destruct (Hdone2 pb' pk' Hk') as (r0 & r0' & H1 & H2 & H3); [lia|].
           exists r0, r0'. split; [exact H1|]. split; [exact H2|].
           rewrite list_lookup_insert_ne; [exact H3|]. nia.
      * intros p Hp. rewrite list_lookup_insert_ne by lia. apply Hrest2. lia.
    + exists (p1, pd1). split; [exact Hret1|]. unfold I. cbn in *.
      split; [lia|]. split; [exact Hl1|]. split.
      * intros pb' pk' Hk' Hcase. apply Hdone1; [exact Hk'|]. lia.
      * intros p Hp. apply Hrest1. lia.
  - cbn in Hp, Hlen, Hdone, Hrest. exists pd'. subst p12.
    split; [exact Hret|]. split; [exact Hlen|]. split.
    + intros pb pk Hpb Hpk. apply Hdone; [exact Hpk | left; exact Hpb].
    + exact Hrest.
Qed.


(** The member [compute] adds up for two s-type shells is the seed of the
    primitive pair, whatever the record held before. *)
Lemma ss_member_computed (e : t) (r r' : Libint_t) (bra ket : Shell.t)
  (pb pk oset : nat) :
  deriv_order_ e = 0%N ->
  (type_ e = nuclear ->
     is_Some (q_ e !! oset) /\ LIBINT2_DEFINED (PC a_x) = true /\
     LIBINT2_DEFINED (PC a_y) = true /\ LIBINT2_DEFINED (PC a_z) = true) ->
  compute_primdata e r bra ket pb pk oset = Returned r' ->
  ss_member (type_ e) r' = ss_seed e bra ket oset pb pk /\ same_frame r r'.
Proof.
  intros Hd Hq Hret.
  destruct (compute_primdata_returns e r bra ket pb pk oset Hd)
    as (r'' & Hret' & Hframe & Hov & Hkin & Hnuc).
  { intros Hty. apply Hq, Hty. }
  rewrite Hret in Hret'. injection Hret' as <-.
  split; [|exact Hframe].
  unfold ss_member, ss_seed. destruct (type_ e) eqn:Hty.
  - exact Hov.
  - apply Hkin. reflexivity.
  - destruct (Hq eq_refl) as ([qC HqC] & Hx & Hy & Hz). rewrite HqC.
    apply (Hnuc eq_refl qC HqC Hx Hy Hz 0). lia.
  - reflexivity.
Qed.

Lemma accumulate_ss_returns (member : Libint_t -> R) (pd : list Libint_t)
  (r0 : Libint_t) (a : R) (st : list R) (f : nat -> R) :
  pd !! 0 = Some r0 ->
  stack r0 = a :: st ->
  (forall p, p < contrdepth r0 -> exists r, pd !! p = Some r /\ member r = f p) ->
  accumulate_ss member pd =
    Returned (<[0 := set_stack ((a + Rsum (contrdepth r0) f)%R :: st) r0]> pd).
Proof.
  intros H0 Hst Hf. unfold accumulate_ss.
  rewrite (at_index_Returned _ _ _ H0). cbn [mbind outcome_bind].
  rewrite Hst. cbn [at_index lookup list_lookup mbind outcome_bind].
  rewrite (running_sum _ _ f).
  - cbn [mbind outcome_bind].
    rewrite (update_at_Returned pd 0 _ r0
               (set_stack ((a + Rsum (contrdepth r0) f)%R :: st) r0)); [reflexivity | exact H0|].
    rewrite Hst. reflexivity.
  - intros p acc Hp. destruct (Hf p Hp) as (r & Hr & Hm).
    rewrite (at_index_Returned _ _ _ Hr). cbn. rewrite Hm. reflexivity.
Qed.


(** One pass over an operator component for two s-type shells: the first
    word of the stack grows by the seeds of all primitive pairs. *)
Lemma operset_pass_ss (e : t) (bra ket : Shell.t) (swap use_scratch : bool)
  (ncart1 ncart2 oset : nat) (r0 : Libint_t) (a : R) (st : list R) :
  deriv_order_ e = 0%N ->
  type_ e <> _invalid ->
  (type_ e = nuclear ->
     is_Some (q_ e !! oset) /\ LIBINT2_DEFINED (PC a_x) = true /\
     LIBINT2_DEFINED (PC a_y) = true /\ LIBINT2_DEFINED (PC a_z) = true) ->
  Shell.nprim bra * Shell.nprim ket <= length (primdata_ e) ->
  primdata_ e !! 0 = Some r0 ->
  stack r0 = a :: st ->
  exists pd' r0',
    operset_pass bra ket swap use_scratch 0 ncart1 ncart2 oset e
      = Returned (with_primdata pd' e) /\
    length pd' = length (primdata_ e) /\
    pd' !! 0 = Some r0' /\
    stack r0' =
      (a + Rsum (Shell.nprim bra) (fun pb =>
             Rsum (Shell.nprim ket) (fun pk => ss_seed e bra ket oset pb pk)))%R :: st /\
    targets0 r0' = stack r0'.
Proof.
  intros Hd Hty Hq Hfit H0 Hst. unfold operset_pass.
  set (nb := Shell.nprim bra) in *. set (nk := Shell.nprim ket) in *.
  destruct (assemble_returns e bra ket oset (primdata_ e) Hd) as
    (pd1 & Hret & Hlen & Hdone & Hrest); [intros H; apply Hq, H | exact Hfit |].
  fold nb nk in Hret, Hdone, Hrest.
  rewrite Hret. cbn [mbind outcome_bind].
  assert (Hr1 : exists r1, pd1 !! 0 = Some r1 /\ stack r1 = a :: st).
  { destruct (decide (nb * nk = 0)) as [Hz|Hnz].
    - exists r0. split; [|exact Hst]. rewrite Hrest by lia. exact H0.
    - destruct (Hdone 0 0) as (r & r' & Hr & Hc & Hr'); [nia | nia |].
      cbn in Hr, Hr'. rewrite H0 in Hr. injection Hr as <-.
      exists r'. split; [exact Hr'|].
      destruct (ss_member_computed e r0 r' bra ket 0 0 oset Hd Hq Hc) as [_ (_ & _ & Hs & _)].
      rewrite Hs. exact Hst. }
  destruct Hr1 as (r1 & Hr1 & Hst1).
  rewrite (update_at_Returned pd1 0 _ r1 (set_contrdepth (nb * nk) r1) Hr1 eq_refl).
  cbn [mbind outcome_bind Nat.eqb].
  set (pd2 := <[0 := set_contrdepth (nb * nk) r1]> pd1).
  assert (Hlen2 : length pd2 = length (primdata_ e)).
  { unfold pd2. rewrite length_insert. exact Hlen. }
  assert (H02 : pd2 !! 0 = Some (set_contrdepth (nb * nk) r1)).
  { unfold pd2. apply list_lookup_insert_eq. apply lookup_lt_Some in Hr1. exact Hr1. }
  pose (f := fun p => ss_seed e bra ket oset (p `div` nk) (p `mod` nk)).
  assert (Hacc : accumulate_ss (ss_member (type_ e)) pd2 =
    Returned (<[0 := set_stack ((a + Rsum (nb * nk) f)%R :: st)
                       (set_contrdepth (nb * nk) r1)]> pd2)).
  { apply (accumulate_ss_returns _ pd2 (set_contrdepth (nb * nk) r1) a st f H02 Hst1).
    cbn [contrdepth set_contrdepth]. intros p Hp.
    assert (Hnk : 0 < nk) by nia.
    assert (Hpb : p `div` nk < nb) by (apply Nat.Div0.div_lt_upper_bound; nia).
    assert (Hpk : p `mod` nk < nk) by (apply Nat.mod_upper_bound; lia).
    destruct (Hdone (p `div` nk) (p `mod` nk) Hpb Hpk) as (r & r' & Hr & Hc & Hr').
    replace (p `div` nk * nk + p `mod` nk) with p in Hr, Hr'
      by (rewrite (Nat.div_mod_eq p nk) at 1; lia).
    destruct (ss_member_computed e r r' bra ket _ _ oset Hd Hq Hc) as [Hm _].
    destruct (decide (p = 0)) as [->|Hp0].
    - exists (set_contrdepth (nb * nk) r1). split; [exact H02|].
      rewrite Hr1 in Hr'. injection Hr' as <-. unfold f. rewrite <- Hm.
      destruct (type_ e); reflexivity.
    - exists r'. split; [|exact Hm]. unfold pd2.
      rewrite list_lookup_insert_ne by lia. exact Hr'. }
  assert (Hsum : Rsum (nb * nk) f =
                 Rsum nb (fun pb => Rsum nk (fun pk => ss_seed e bra ket oset pb pk))).
  { apply Rsum_flatten. intros i j Hi Hj. unfold f.
    rewrite Nat.div_add_l by lia. rewrite (Nat.div_small j nk) by lia.
    rewrite Nat.add_0_r.
    replace (i * nk + j) with (j + i * nk) by lia.
    rewrite Nat.Div0.mod_add. rewrite Nat.mod_small by lia. reflexivity. }
  rewrite Hsum in Hacc.
  set (r3 := set_stack _ _) in Hacc.
  assert (Hacc' :
    match type_ e with
    | overlap => accumulate_ss (fun r => scalar r LIBINT_T_S_OVERLAP_S) pd2
    | kinetic => accumulate_ss (fun r => scalar r LIBINT_T_S_KINETIC_S) pd2
    | nuclear => accumulate_ss (fun r => LIBINT_T_S_ELECPOT_S r 0) pd2
    | _invalid => _ ← assert false; mret pd2
    end = Returned (<[0 := r3]> pd2)).
  { destruct (type_ e); try exact Hacc. contradiction. }
  rewrite Hacc'. cbn [mbind outcome_bind].
  assert (H03 : <[0 := r3]> pd2 !! 0 = Some r3).
  { apply list_lookup_insert_eq. apply lookup_lt_Some in H02. exact H02. }
  rewrite (update_at_Returned _ 0 _ r3 (set_targets0 (stack r3) r3) H03 eq_refl).
  cbn [mbind outcome_bind mret outcome_ret].
  eexists _, (set_targets0 (stack r3) r3). split; [reflexivity|].
  split; [rewrite !length_insert; exact Hlen2|].
  split; [apply list_lookup_insert_eq; rewrite length_insert; apply lookup_lt_Some in H02; exact H02|].
  split; reflexivity.
Qed.

End OneBodyLoops.

(** ** The assembled record as a function of the primitive pair *)

Section Assembled.
Context {C : Libint2Config} {L : Libint2Library}.
Import OneBodyEngine.

Lemma compute_primdata_eq (e : t) (r : Libint_t) (s1 s2 : Shell.t)
  (p1 p2 oset : nat) (qC : R * vec3) :
  deriv_order_ e = 0%N ->
  (type_ e = nuclear -> q_ e !! oset = Some qC) ->
  compute_primdata e r s1 s2 p1 p2 oset =
    Returned (assembled_record e r s1 s2 p1 p2 qC).
Proof.
  intros Hd Hq. unfold compute_primdata, assembled_record, assembler_stages.
  rewrite Hd. change (0 <? 0)%N with false. cbv iota.
  destruct (type_ e) eqn:Hty.
  - rewrite !(bool_decide_eq_false_2 (overlap = _)) by discriminate. reflexivity.
  - rewrite (bool_decide_eq_true_2 (kinetic = kinetic)) by reflexivity.
    rewrite (bool_decide_eq_false_2 (kinetic = nuclear)) by discriminate. reflexivity.
  - rewrite (bool_decide_eq_true_2 (nuclear = nuclear)) by reflexivity.
    rewrite (bool_decide_eq_false_2 (nuclear = kinetic)) by discriminate.
    rewrite (at_index_Returned _ _ _ (Hq eq_refl)).
    cbn [mbind outcome_bind mret outcome_ret andb foldl run_stage assembler_stages].
    destruct (LIBINT2_DEFINED (PC a_x) && LIBINT2_DEFINED (PC a_y) &&
              LIBINT2_DEFINED (PC a_z)); reflexivity.
  - rewrite !(bool_decide_eq_false_2 (_invalid = _)) by discriminate. reflexivity.
Qed.

Lemma run_stage_agree (st : stage) (r1 r2 : Libint_t) (f : field) :
  scalar r1 f = scalar r2 f \/ stage_writes f st ->
  scalar (run_stage r1 st) f = scalar (run_stage r2 st) f.
Proof.
  intros H. destruct st as [b ws|b g v]; cbn [run_stage stage_writes] in *.
  - destruct b.
    + apply scalar_write_all_agree. destruct H as [H|(_ & H1 & H2)]; [left|right]; auto.
    + destruct H as [H|(H & _)]; [exact H | discriminate H].
  - destruct b.
    + rewrite !scalar_set_scalar. destruct (decide (f = g)); [reflexivity|].
      destruct H as [H|[_ H]]; [exact H | contradiction].
    + destruct H as [H|(H & _)]; [exact H | discriminate H].
Qed.

(** A member some step assigns no longer depends on the record the steps
    started from. *)
Lemma run_stages_agree (sts : list stage) (r1 r2 : Libint_t) (f : field) :
  scalar r1 f = scalar r2 f \/ Exists (stage_writes f) sts ->
  scalar (foldl run_stage r1 sts) f = scalar (foldl run_stage r2 sts) f.
Proof.
  revert r1 r2. induction sts as [|st sts IH]; intros r1 r2 H.
  - destruct H as [H|H]; [exact H | inversion H].
  - cbn [foldl]. apply IH.
    destruct H as [H|H].
    + left. apply run_stage_agree. left. exact H.
    + apply Exists_cons in H. destruct H as [H|H]; [|right; exact H].
      left. apply run_stage_agree. right. exact H.
Qed.

Lemma run_stage_frame (st : stage) (r : Libint_t) :
  LIBINT_T_S_ELECPOT_S (run_stage r st) = LIBINT_T_S_ELECPOT_S r /\
  same_frame r (run_stage r st).
Proof.
  destruct st as [[] ws|[] g v]; cbn [run_stage];
    try (split; [reflexivity | apply same_frame_refl]).
  - apply write_all_frame.
  - split; [reflexivity | repeat split].
Qed.

Lemma run_stages_frame (sts : list stage) (r : Libint_t) :
  LIBINT_T_S_ELECPOT_S (foldl run_stage r sts) = LIBINT_T_S_ELECPOT_S r /\
  same_frame r (foldl run_stage r sts).
Proof.
  revert r. induction sts as [|st sts IH]; intros r.
  - split; [reflexivity | apply same_frame_refl].
  - cbn [foldl]. destruct (IH (run_stage r st)) as [H1 H2].
    destruct (run_stage_frame st r) as [H3 H4].
    split; [congruence | eapply same_frame_trans; eassumption].
Qed.

Lemma scalar_write_elecpot (b : bool) (charge : R) (ltot : nat) (v : pair_locals)
  (c1 c2 : R) (r : Libint_t) (f : field) :
  scalar (if b then write_elecpot charge ltot v c1 c2 r else r) f = scalar r f.
Proof. destruct b; reflexivity. Qed.

End Assembled.

(** Closes [stage_writes f st] for a step that names [f], from the
    hypothesis [H] that [f] is assembled. *)
Ltac written_here H :=
  cbn [stage_writes]; first
  [ split; [first [reflexivity | exact H] | reflexivity]
  | split; [| split];
    [ first [ reflexivity | apply (proj1 (andb_prop _ _ H)) ]
    | cbn [fmap list_fmap fst]; apply (bool_decide_unpack _); vm_compute; exact I
    | first [ exact H | apply (proj2 (andb_prop _ _ H)) ] ] ].

Section AssembledAgree.
Context {C : Libint2Config} {L : Libint2Library}.
Import OneBodyEngine.

(** Every member a kernel reads is assigned afresh: two records assembled
    for the same primitive pair carry the same input. *)
Lemma assembled_record_agree (e : t) (r1 r2 : Libint_t) (s1 s2 : Shell.t)
  (p1 p2 : nat) (qC : R * vec3) :
  same_inputs (type_ e)
    (Contraction.l (Shell.contr0 s1) + Contraction.l (Shell.contr0 s2))
    (assembled_record e r1 s1 s2 p1 p2 qC) (assembled_record e r2 s1 s2 p1 p2 qC).
Proof.
  split.
  - intros f Hf. unfold assembled_record. rewrite !scalar_write_elecpot.
    apply run_stages_agree. right. unfold assembler_stages.
    unfold assembled_field in Hf.
    destruct f as [[]|[]|[]|[]|[]|[]|[]|[]|[]|[]|[]| | | | | | | | | | | | | | | | | | | | | | | | ];
      try discriminate Hf;
      repeat first [ apply Exists_cons_hd; solve [written_here Hf]
                   | apply Exists_cons_tl ].
  - intros Hty Hdef m Hm. unfold assembled_record.
    rewrite Hty. rewrite (bool_decide_eq_true_2 (nuclear = nuclear)) by reflexivity.
    rewrite Hdef. cbn [andb].
    unfold write_elecpot, eval_and_scale. cbn [set_elecpot LIBINT_T_S_ELECPOT_S].
    replace (m <=? _)%nat with true by (symmetry; apply Nat.leb_le; exact Hm).
    f_equal. f_equal. f_equal.
    assert (HPC : forall a, scalar (foldl run_stage r1 (assembler_stages e s1 s2 p1 p2 qC)) (PC a)
                          = scalar (foldl run_stage r2 (assembler_stages e s1 s2 p1 p2 qC)) (PC a)).
    { intros a. apply run_stages_agree. right. unfold assembler_stages.
      apply andb_prop in Hdef. destruct Hdef as [Hxy Hz].
      apply andb_prop in Hxy. destruct Hxy as [Hx Hy].
      do 4 apply Exists_cons_tl. apply Exists_cons_hd. cbn [stage_writes].
      split; [apply bool_decide_eq_true_2; exact Hty|].
      split; [cbn [fmap list_fmap fst]; destruct a;
              apply (bool_decide_unpack _); vm_compute; exact I|].
      destruct a; assumption. }
    rewrite !HPC. reflexivity.
Qed.

Lemma assembled_record_frame (e : t) (r : Libint_t) (s1 s2 : Shell.t)
  (p1 p2 : nat) (qC : R * vec3) :
  same_frame r (assembled_record e r s1 s2 p1 p2 qC).
Proof.
  unfold assembled_record.
  destruct (run_stages_frame (assembler_stages e s1 s2 p1 p2 qC) r) as [_ H].
  destruct (_ && _); [|exact H].
  eapply same_frame_trans; [exact H | repeat split].
Qed.

End AssembledAgree.
(** ** The assembled record in closed form *)


Section Closed.
Context {C : Libint2Config} {L : Libint2Library}.
Import OneBodyEngine.
Local Open Scope R_scope.







End Closed.

(** ** [compute] on two s-type shells *)

Section OneBodySS.
Context {C : Libint2Config} {L : Libint2Library}.
Import OneBodyEngine.

Lemma size_mul_small (a b : N) : (a * b < 2 ^ 64)%N -> size_mul a b = (a * b)%N.
Proof. intros H. unfold size_mul. apply N.mod_small. exact H. Qed.

Lemma ss_seed_setup (e e' : t) (bra ket : Shell.t) (oset pb pk : nat) :
  type_ e' = type_ e -> q_ e' = q_ e ->
  ss_seed e' bra ket oset pb pk = ss_seed e bra ket oset pb pk.
Proof. intros Ht Hq. unfold ss_seed. rewrite Ht, Hq. reflexivity. Qed.

Lemma compute_ss (e : t) (s1 s2 : Shell.t) :
  ss_call e s1 s2 ->
  exists cart e',
    compute e s1 s2 =
      Returned
        (if Contraction.pure (Shell.contr0 s1) || Contraction.pure (Shell.contr0 s2)
         then overwrite (to_solid s1 s2 cart) (scratch_ e) else cart, e') /\
    cart !! 0%nat = Some (ss_total e s1 s2) /\
    same_setup e e'.
Proof.
  intros [Hn1 Hn2 Hd Hty Hnuc Hl1 Hl2 Hwrap Hcap Hlmax (r0 & H0 & Hstack)].
  unfold compute. rewrite Hn1, Hn2, Hd, Hl1, Hl2.
  cbn [Nat.eqb andb assert mbind outcome_bind N.eqb Nat.ltb Nat.leb negb orb Nat.max].
  assert (Hthrow : bool_decide (type_ e = nuclear) && (length (q_ e) =? 0)%nat = false).
  { destruct (bool_decide (type_ e = nuclear)) eqn:Hb; [|reflexivity].
    apply bool_decide_eq_true in Hb. destruct (Hnuc Hb) as [Hq _].
    destruct (q_ e); [contradiction | reflexivity]. }
  rewrite Hthrow.
  assert (Hswap : (if SHELLQUARTET_SET_STANDARD then false else false) = false)
    by (destruct SHELLQUARTET_SET_STANDARD; reflexivity).
  rewrite Hswap. cbn [negb orb].
  rewrite (size_mul_small _ _ Hwrap).
  replace (N.of_nat (Shell.nprim s1) * N.of_nat (Shell.nprim s2) <=?
           N.of_nat (length (primdata_ e)))%N with true
    by (symmetry; apply N.leb_le; lia).
  replace (Z.of_nat 0 <=? lmax_ e)%Z with true by (symmetry; apply Z.leb_le; lia).
  cbn [assert mbind outcome_bind].
  (* the accumulation target is cleared *)
  destruct (stack r0) as [|a0 st] eqn:Hst; [cbn in Hstack; lia|].
  unfold clear_target. cbn [Nat.eqb].
  rewrite (update_at_Returned (primdata_ e) 0 _ r0 (set_stack (0 :: st) r0) H0);
    [|rewrite Hst; reflexivity].
  cbn [mbind outcome_bind mret outcome_ret].
  set (e1 := with_primdata _ e).
  (* the loop over operator components *)
  set (S := fun oset => Rsum (Shell.nprim s1) (fun pb =>
              Rsum (Shell.nprim s2) (fun pk => ss_seed e s1 s2 oset pb pk))).
  pose (I := fun (k : nat) (ek : t) =>
    type_ ek = type_ e /\ lmax_ ek = lmax_ e /\ deriv_order_ ek = deriv_order_ e /\
    q_ ek = q_ e /\ scratch_ ek = scratch_ e /\
    length (primdata_ ek) = length (primdata_ e) /\
    exists rk, primdata_ ek !! 0%nat = Some rk /\ stack rk = Rsum k S :: st /\
               ((0 < k)%nat -> targets0 rk = stack rk)).
  assert (Hloop : exists ek,
    for_loop (num_operset e)
      (operset_pass s1 s2 false (bool_decide (type_ e = nuclear)) 0
         (Shell.cartesian_size s1) (Shell.cartesian_size s2)) e1 = Returned ek /\
    I (num_operset e) ek).
  { apply for_loop_inv.
    - unfold I, e1. cbn. repeat (split; [reflexivity|]).
      split; [apply length_insert|].
      exists (set_stack (0 :: st) r0). split; [|split; [reflexivity | lia]].
      apply list_lookup_insert_eq. apply lookup_lt_Some in H0. exact H0.
    - intros k ek Hk (Ht & Hlm & Hde & Hq & Hsc & Hlen & rk & Hrk & Hsk & _).
      destruct (operset_pass_ss ek s1 s2 false (bool_decide (type_ e = nuclear))
                  (Shell.cartesian_size s1) (Shell.cartesian_size s2) k rk (Rsum k S) st)
        as (pd' & rk' & Hret & Hlen' & Hrk' & Hsk' & Htg').
      + rewrite Hde. exact Hd.
      + rewrite Ht. exact Hty.
      + rewrite Ht, Hq. intros Hn. destruct (Hnuc Hn) as (_ & Hx & Hy & Hz).
        split; [|split; [exact Hx | split; [exact Hy | exact Hz]]].
        apply lookup_lt_is_Some_2. unfold num_operset in Hk.
        rewrite (bool_decide_eq_true_2 _ Hn) in Hk. exact Hk.
      + rewrite Hlen. exact Hcap.
      + exact Hrk.
      + exact Hsk.
      + exists (with_primdata pd' ek). split; [exact Hret|].
        unfold I. cbn. split; [exact Ht|]. split; [exact Hlm|]. split; [exact Hde|].
        split; [exact Hq|]. split; [exact Hsc|]. split; [rewrite Hlen'; exact Hlen|].
        exists rk'. split; [exact Hrk'|]. split; [|intros _; exact Htg'].
        rewrite Hsk'. cbn [Rsum]. unfold S at 2. f_equal. f_equal.
        apply Rsum_ext. intros pb _. apply Rsum_ext. intros pk _.
        apply ss_seed_setup; assumption. }
  destruct Hloop as (ek & Hek & Ht & Hlm & Hde & Hq & Hsc & Hlen & rk & Hrk & Hsk & Htg).
  assert (Hnum : (if bool_decide (type_ e = nuclear) then length (q_ e1) else 1%nat)
                 = num_operset e) by reflexivity.
  rewrite Hnum, Hek. cbn [mbind outcome_bind].
  assert (Hpos : (0 < num_operset e)%nat).
  { unfold num_operset. destruct (bool_decide (type_ e = nuclear)) eqn:Hb; [|lia].
    apply bool_decide_eq_true in Hb. destruct (Hnuc Hb) as [Hq0 _].
    destruct (q_ e); [contradiction | cbn; lia]. }
  (* the result pointer *)
  unfold finish. rewrite (at_index_Returned _ _ _ Hrk).
  cbn [mbind outcome_bind Nat.eqb negb andb].
  rewrite andb_false_r.
  exists (targets0 rk).
  assert (Hready : ready (primdata_ ek)).
  { exists rk. split; [exact Hrk|]. rewrite Hsk. cbn. lia. }
  destruct (Contraction.pure (Shell.contr0 s1) || Contraction.pure (Shell.contr0 s2)).
  - eexists. rewrite Hsc. split; [reflexivity|]. split.
    + rewrite (Htg Hpos), Hsk. reflexivity.
    + unfold same_setup. cbn. repeat (split; [assumption|]).
      split; [|intros _; exact Hready].
      unfold overwrite. rewrite length_app, length_drop. lia.
  - exists ek. split; [reflexivity|]. split.
    + rewrite (Htg Hpos), Hsk. reflexivity.
    + unfold same_setup. repeat (split; [assumption|]).
      split; [rewrite Hsc; lia | intros _; exact Hready].
Qed.

End OneBodySS.

(** ** The overlap of two unit s-type primitives *)

Section UnitOverlap.
Context {C : Libint2Config} {L : Libint2Library}.
Import OneBodyEngine.

Lemma Rpower_three_halves (a : R) : 0 < a -> Rpower a (3 / 2) = a * sqrt a.
Proof.
  intros Ha. replace (3 / 2) with (1 + / 2) by field.
  rewrite Rpower_plus, Rpower_1, Rpower_sqrt by exact Ha. reflexivity.
Qed.

Lemma unit_overlap_value :
  let v := sqrt_PI_cubed * / ((1 + 1) * sqrt (1 + 1)) in
  Rabs (v - Rpower (PI / (1 + 1)) (3 / 2)) < 1 / 10 ^ 7 /\
  Rabs (v - 1.9687) < 1 / 10 ^ 4.
Proof.
  intros v. unfold v.
  pose proof PI_bounds as HPI. pose proof sqrt_PI_bounds as HsPI.
  pose proof sqrt_2_bounds as Hs2.
  replace (1 + 1) with 2 by ring.
  rewrite Rpower_three_halves by lra.
  rewrite sqrt_div_alt by lra.
  pose proof sqrt_PI_cubed_approx as HK. apply Rabs_def2 in HK.
  set (K := sqrt_PI_cubed) in *. set (q := PI * sqrt PI) in *.
  assert (Hi : / 1.41422 < / sqrt 2 < / 1.41421).
  { split; apply Rinv_lt_contravar; nra. }
  assert (HKv : 5.5683279 < K < 5.568328) by (unfold K, sqrt_PI_cubed; lra).
  set (t := / sqrt 2) in *.
  assert (Ht : 0.7071 < t < 0.70711) by lra.
  replace (K * / (2 * sqrt 2)) with (K * t / 2) by (unfold t; field; lra).
  replace (PI / 2 * (sqrt PI / sqrt 2)) with (q * t / 2) by (unfold q, t; field; lra).
  clearbody K q t. split; apply Rabs_def1; nra.
Qed.

(** C4.  Two s-type Cartesian shells at a common centre, each with one
    primitive of exponent 1 and coefficient 1: on an overlap engine of
    derivative order 0 whose first record owns a stack, [compute] returns a
    block of one entry, [sqrt_PI_cubed * 2^(-3/2)]; it is [(pi/2)^(3/2)] to
    seven places and [1.9687] to four. *)
Theorem unit_s_overlap (e : t) (centre : vec3) :
  type_ e = overlap ->
  deriv_order_ e = 0%N ->
  (0 <= lmax_ e)%Z ->
  ready (primdata_ e) ->
  let s := s_shell 1 1 centre in
  (Shell.size s * Shell.size s = 1)%nat /\
  exists buf e' v,
    compute e s s = Returned (buf, e') /\
    buf !! 0%nat = Some v /\
    v = sqrt_PI_cubed * / ((1 + 1) * sqrt (1 + 1)) /\
    Rabs (v - Rpower (PI / (1 + 1)) (3 / 2)) < 1 / 10 ^ 7 /\
    Rabs (v - 1.9687) < 1 / 10 ^ 4.
Proof.
  intros Hty Hd Hlmax Hready s. split; [reflexivity|].
  destruct (compute_ss e s s) as (cart & e' & Hret & Hcart & _).
  { constructor; try reflexivity; try assumption.
    - rewrite Hty. discriminate.
    - rewrite Hty. discriminate.
    - destruct Hready as (r0 & H0 & _). apply lookup_lt_Some in H0. cbn. lia. }
  cbn [s s_shell Shell.contr0 Shell.contr Contraction.pure lookup list_lookup
       default orb] in Hret.
  exists cart, e', (ss_total e s s).
  split; [exact Hret|]. split; [exact Hcart|].
  assert (Hv : ss_total e s s = sqrt_PI_cubed * / ((1 + 1) * sqrt (1 + 1))).
  { unfold ss_total, num_operset, ss_seed. rewrite Hty.
    rewrite bool_decide_eq_false_2 by discriminate.
    cbn [Rsum Shell.nprim s s_shell Shell.alpha length].
    rewrite ovlp_ss_closed_form by (cbn; lra).
    unfold s.
    change (Shell.alpha_at (s_shell 1 1 centre) 0) with 1.
    change (Shell.coeff_at (s_shell 1 1 centre) 0) with 1.
    change (Shell.O (s_shell 1 1 centre)) with centre.
    replace (dist2 centre centre) with 0 by (unfold dist2; ring).
    rewrite Rmult_0_r, exp_0. ring. }
  split; [exact Hv|]. rewrite Hv. exact unit_overlap_value.
Qed.

End UnitOverlap.

Lemma unit_s_overlap_witness :
  exists buf e' v,
    OneBodyEngine.compute (C := example_config) (L := example_library)
      small_overlap_engine (s_shell 1 1 origin) (s_shell 1 1 origin) = Returned (buf, e') /\
    buf !! 0%nat = Some v /\
    Rabs (v - 1.9687) < 1 / 10 ^ 4.
Proof.
  destruct (unit_s_overlap (C := example_config) (L := example_library)
              small_overlap_engine origin eq_refl eq_refl) as [_ (buf & e' & v & H)].
  - cbn. lia.
  - exists (set_stack [0] Libint_t_zero). split; [reflexivity | cbn; lia].
  - exists buf, e', v. destruct H as (H1 & H2 & _ & _ & H5).
    split; [exact H1|]. split; [exact H2 | exact H5].
Defined.

(** ** The capacity of the record array *)

Section Capacity.
Context {C : Libint2Config} {L : Libint2Library}.

(** The one-body engine checks the number of primitive pairs: past the
    capacity the assertion fails. *)
Lemma one_body_over_capacity (e : OneBodyEngine.t) (s1 s2 : Shell.t) :
  Shell.ncontr s1 = 1%nat -> Shell.ncontr s2 = 1%nat ->
  OneBodyEngine.deriv_order_ e = 0%N ->
  (OneBodyEngine.type_ e = OneBodyEngine.nuclear -> OneBodyEngine.q_ e <> []) ->
  (N.of_nat (Shell.nprim s1) * N.of_nat (Shell.nprim s2) < 2 ^ 64)%N ->
  (length (OneBodyEngine.primdata_ e) < Shell.nprim s1 * Shell.nprim s2)%nat ->
  OneBodyEngine.compute e s1 s2 = AssertionFailed.
Proof.
  intros Hn1 Hn2 Hd Hq Hwrap Hover. unfold OneBodyEngine.compute.
  rewrite Hn1, Hn2, Hd. cbn [Nat.eqb andb assert mbind outcome_bind N.eqb].
  assert (Hthrow : bool_decide (OneBodyEngine.type_ e = OneBodyEngine.nuclear) &&
                   (length (OneBodyEngine.q_ e) =? 0)%nat = false).
  { destruct (bool_decide _) eqn:Hb; [|reflexivity].
    apply bool_decide_eq_true in Hb. specialize (Hq Hb).
    destruct (OneBodyEngine.q_ e); [contradiction | reflexivity]. }
  rewrite Hthrow.
  match goal with |- context [size_mul ?a ?b] =>
    assert (Hsz : size_mul a b = (N.of_nat (Shell.nprim s1) * N.of_nat (Shell.nprim s2))%N)
  end.
  { destruct (negb _); rewrite size_mul_small; lia. }
  rewrite Hsz.
  replace (_ <=? _)%N with false by (symmetry; apply N.leb_gt; lia).
  reflexivity.
Qed.

End Capacity.

(** C2 at the failing input.  [TwoBodyEngine<Coulomb>(1, 0)] has room for
    one record.  Called on four s-type shells of two primitives each (16
    quadruples), it fails no assertion: under the comment "assert # of
    primitive pairs" nothing is checked, and the second quadruple is written
    past the end of the record array. *)
Theorem two_body_over_capacity_unchecked :
  TwoBodyEngine.make (C := example_config) (L := example_library) Coulomb 1 0 0 []
    = Returned small_coulomb_engine /\
  length (TwoBodyEngine.primdata_ small_coulomb_engine) = 1%nat /\
  TwoBodyEngine.compute (C := example_config) (L := example_library)
    small_coulomb_engine s_shell_2prim s_shell_2prim s_shell_2prim s_shell_2prim
  = OutOfBounds.
Proof. split; [|split]; lazy; reflexivity. Qed.

(** ** Loops that store into a buffer *)

Section Writers.
Local Open Scope nat_scope.

Lemma for_loop_ext {S : Type} (n : nat) (body body' : nat -> S -> outcome S) (s : S) :
  (forall i s, i < n -> body i s = body' i s) ->
  for_loop n body s = for_loop n body' s.
Proof.
  induction n as [|n IH]; intros H; [reflexivity|].
  cbn [for_loop]. rewrite IH by (intros i s0 Hi; apply H; lia).
  destruct (for_loop n body' s); cbn; try reflexivity. apply H. lia.
Qed.

(** A loop that advances a pointer by [d] beside its buffer is the loop
    over the buffer alone, the pointer being [c0 + i * d] in pass [i]. *)
Lemma for_loop_pointer {T : Type} (n d c0 : nat)
  (B : nat -> nat -> T -> outcome T) (t0 : T) :
  for_loop n (fun i '(c, t) => t' ← B i c t; mret (c + d, t')) (c0, t0) =
  (t' ← for_loop n (fun i t => B i (c0 + i * d) t) t0; mret (c0 + n * d, t')).
Proof.
  induction n as [|n IH].
  - cbn. rewrite Nat.add_0_r. reflexivity.
  - cbn [for_loop]. rewrite IH.
    destruct (for_loop n (fun i t => B i (c0 + i * d) t) t0) as [t1| | |]; cbn;
      try reflexivity.
    destruct (B n (c0 + n * d) t1); cbn; try reflexivity.
    do 2 f_equal. lia.
Qed.

Lemma stores_update (V : nat -> R -> Prop) (k0 : nat) (expr : outcome R) (v : R)
  (f : R -> outcome R) :
  (forall old, f old = expr) -> expr = Returned v -> V k0 v ->
  stores V (fun k => k = k0) (fun t => update_at t k0 f).
Proof.
  intros Hf Hexpr HV t Hcover.
  specialize (Hcover k0 eq_refl).
  destruct (lookup_lt_is_Some_2 t k0 Hcover) as [old Hold].
  exists (<[k0 := v]> t). split.
  { apply (update_at_Returned t k0 f old v Hold). rewrite Hf. exact Hexpr. }
  split; [apply length_insert|]. split; [|split].
  - intros k Hk. apply list_lookup_insert_ne. congruence.
  - intros k. destruct (decide (k = k0)) as [->|Hne].
    + right. exists v. split; [apply list_lookup_insert_eq; exact Hcover | exact HV].
    + left. apply list_lookup_insert_ne. congruence.
  - intros k ->. exists v. split; [apply list_lookup_insert_eq; exact Hcover | exact HV].
Qed.

Lemma stores_loop (V : nat -> R -> Prop) (n : nat) (Pos : nat -> nat -> Prop)
  (body : nat -> list R -> outcome (list R)) :
  (forall i, i < n -> stores V (Pos i) (body i)) ->
  stores V (fun k => exists i, i < n /\ Pos i k) (for_loop n body).
Proof.
  induction n as [|n IH]; intros Hbody t Hcover.
  - exists t. split; [reflexivity|]. split; [reflexivity|]. split; [reflexivity|].
    split; [left; reflexivity|]. intros k (i & Hi & _). lia.
  - destruct (IH (fun i Hi => Hbody i (Nat.lt_lt_succ_r _ _ Hi)) t) as
      (t1 & Hret1 & Hlen1 & Hout1 & Hany1 & Hin1).
    { intros k (i & Hi & HP). apply Hcover. exists i. split; [lia | exact HP]. }
    destruct (Hbody n (Nat.lt_succ_diag_r n) t1) as (t2 & Hret2 & Hlen2 & Hout2 & Hany2 & Hin2).
    { intros k HP. rewrite Hlen1. apply Hcover. exists n. split; [lia | exact HP]. }
    exists t2. split.
    { cbn [for_loop]. rewrite Hret1. exact Hret2. }
    split; [lia|]. split; [|split].
    + intros k Hk. rewrite Hout2, Hout1; [reflexivity | |].
      * intros (i & Hi & HP). apply Hk. exists i. split; [lia | exact HP].
      * intros HP. apply Hk. exists n. split; [lia | exact HP].
    + intros k. destruct (Hany2 k) as [Heq|Hv]; [|right; exact Hv].
      rewrite Heq. apply Hany1.
    + intros k (i & Hi & HP).
      destruct (decide (i = n)) as [->|Hne]; [apply Hin2; exact HP|].
      destruct (Hany2 k) as [Heq|Hv]; [|exact Hv].
      rewrite Heq. apply Hin1. exists i. split; [lia | exact HP].
Qed.

Lemma stores_ext (V : nat -> R -> Prop) (Pos Pos' : nat -> Prop)
  (W W' : list R -> outcome (list R)) :
  (forall k, Pos k <-> Pos' k) -> (forall t, W t = W' t) ->
  stores V Pos W -> stores V Pos' W'.
Proof.
  intros HP HW H t Hcover.
  destruct (H t) as (t' & Hret & Hlen & Hout & Hany & Hin).
  { intros k Hk. apply Hcover, HP, Hk. }
  exists t'. rewrite <- HW. split; [exact Hret|]. split; [exact Hlen|].
  split; [|split; [exact Hany|]].
  - intros k Hk. apply Hout. intros Hk'. apply Hk, HP, Hk'.
  - intros k Hk. apply Hin, HP, Hk.
Qed.

(** [assign_block] stores the [rows] x [cols] entries of its expression. *)
Lemma stores_assign_block (V : nat -> R -> Prop) (rows cols : nat)
  (tgt_index : nat -> nat -> nat) (expr : nat -> nat -> outcome R) :
  (forall i j, i < rows -> j < cols ->
     exists v, expr i j = Returned v /\ V (tgt_index i j) v) ->
  stores V (fun k => exists i, i < rows /\ exists j, j < cols /\ k = tgt_index i j)
    (assign_block rows cols tgt_index expr).
Proof.
  intros Hexpr. unfold assign_block.
  apply (stores_loop V rows (fun i k => exists j, j < cols /\ k = tgt_index i j)).
  intros i Hi.
  apply (stores_loop V cols (fun j k => k = tgt_index i j)).
  intros j Hj. destruct (Hexpr i j Hi Hj) as (v & Hv & HV).
  apply (stores_update V (tgt_index i j) (expr i j) v); [reflexivity | exact Hv | exact HV].
Qed.

End Writers.

(** ** The un-permutation of the two-body engine *)

Section Unpermute.
Import TwoBodyEngine.
Local Open Scope nat_scope.

Lemma row_major_lt (n m i j : nat) : i < n -> j < m -> i * m + j < n * m.
Proof.
  intros Hi Hj. apply Nat.lt_le_trans with (S i * m); [lia|].
  apply Nat.mul_le_mono_r. lia.
Qed.

Lemma row_major_inj (m i j i' j' : nat) :
  j < m -> j' < m -> i * m + j = i' * m + j' -> i = i' /\ j = j'.
Proof.
  intros Hj Hj' Heq. apply (Nat.div_mod_unique m); [exact Hj | exact Hj' | lia].
Qed.

Lemma row_major4_lt (n1 n2 n3 n4 i1 i2 i3 i4 : nat) :
  i1 < n1 -> i2 < n2 -> i3 < n3 -> i4 < n4 ->
  row_major4 n2 n3 n4 i1 i2 i3 i4 < n1 * n2 * n3 * n4.
Proof.
  intros H1 H2 H3 H4. unfold row_major4.
  apply row_major_lt; [|exact H4]. apply row_major_lt; [|exact H3].
  apply row_major_lt; assumption.
Qed.

Lemma row_major4_inj (n2 n3 n4 i1 i2 i3 i4 j1 j2 j3 j4 : nat) :
  i2 < n2 -> i3 < n3 -> i4 < n4 -> j2 < n2 -> j3 < n3 -> j4 < n4 ->
  row_major4 n2 n3 n4 i1 i2 i3 i4 = row_major4 n2 n3 n4 j1 j2 j3 j4 ->
  i1 = j1 /\ i2 = j2 /\ i3 = j3 /\ i4 = j4.
Proof.
  unfold row_major4. intros H2 H3 H4 K2 K3 K4 Heq.
  apply row_major_inj in Heq; [|assumption..]. destruct Heq as [Heq ->].
  apply row_major_inj in Heq; [|assumption..]. destruct Heq as [Heq ->].
  apply row_major_inj in Heq; [|assumption..]. destruct Heq as [-> ->].
  repeat split.
Qed.

(** [unpermute] is the doubly nested loop over the source rows, the row
    pointer being [(r1 * nr2 + r2) * ncol]. *)
Lemma unpermute_loops (swap_braket swap_bra swap_ket : bool)
  (nr1 nr2 nc1 nc2 n1 n2 n3 n4 : nat) (mainbuf scratchbuf : list R) :
  unpermute swap_braket swap_bra swap_ket nr1 nr2 nc1 nc2 n1 n2 n3 n4
    mainbuf scratchbuf =
  for_loop nr1 (fun r1 t =>
    for_loop nr2 (fun r2 t =>
      copy_source_row swap_braket swap_bra swap_ket nr1 nr2 nc1 nc2 n1 n2 n3 n4
        mainbuf r1 r2 ((r1 * nr2 + r2) * (nc1 * nc2)) t) t) scratchbuf.
Proof.
  unfold unpermute.
  set (row := copy_source_row swap_braket swap_bra swap_ket nr1 nr2 nc1 nc2
                n1 n2 n3 n4 mainbuf).
  set (ncol := nc1 * nc2).
  rewrite (for_loop_ext nr1 _
    (fun r1 '(c, t) =>
       t' ← for_loop nr2 (fun r2 t => row r1 r2 (c + r2 * ncol) t) t;
       mret (c + nr2 * ncol, t'))).
  - rewrite (for_loop_pointer nr1 (nr2 * ncol) 0
               (fun r1 c t => for_loop nr2 (fun r2 t => row r1 r2 (c + r2 * ncol) t) t)).
    rewrite (for_loop_ext nr1 _
      (fun r1 t => for_loop nr2 (fun r2 t => row r1 r2 ((r1 * nr2 + r2) * ncol) t) t)).
    + destruct (for_loop nr1 _ scratchbuf); reflexivity.
    + intros r1 t _. apply for_loop_ext. intros r2 t' _. f_equal. lia.
  - intros r1 [c t] _.
    apply (for_loop_pointer nr2 ncol c (fun r2 c' t' => row r1 r2 c' t') t).
Qed.

(** Rows of blocks scattered into a four-index target: when every store
    of the loops is the store the caller's index [to_caller r1 r2 i j] asks
    for, and every caller's index is met by a pass of the loops, the target
    holds at each caller's index the source entry [SRC] names. *)
Lemma scatter_rows (nr1 nr2 rows cols n1 n2 n3 n4 : nat) (mainbuf scratchbuf : list R)
  (tgt_index sidx : nat -> nat -> nat -> nat -> nat)
  (SRC : nat -> nat -> nat -> nat -> nat)
  (to_caller from_caller : nat -> nat -> nat -> nat -> nat * nat * nat * nat) :
  n1 * n2 * n3 * n4 <= length scratchbuf ->
  (forall r1 r2 i j, r1 < nr1 -> r2 < nr2 -> i < rows -> j < cols ->
     let '(i1, i2, i3, i4) := to_caller r1 r2 i j in
     i1 < n1 /\ i2 < n2 /\ i3 < n3 /\ i4 < n4 /\
     tgt_index r1 r2 i j = row_major4 n2 n3 n4 i1 i2 i3 i4 /\
     sidx r1 r2 i j = SRC i1 i2 i3 i4) ->
  (forall i1 i2 i3 i4, i1 < n1 -> i2 < n2 -> i3 < n3 -> i4 < n4 ->
     SRC i1 i2 i3 i4 < length mainbuf /\
     let '(r1, r2, i, j) := from_caller i1 i2 i3 i4 in
     r1 < nr1 /\ r2 < nr2 /\ i < rows /\ j < cols /\
     to_caller r1 r2 i j = (i1, i2, i3, i4)) ->
  exists tgt,
    for_loop nr1 (fun r1 t =>
      for_loop nr2 (fun r2 t =>
        assign_block rows cols (tgt_index r1 r2)
          (fun i j => at_index mainbuf (sidx r1 r2 i j)) t) t) scratchbuf
      = Returned tgt /\
    length tgt = length scratchbuf /\
    (forall i1 i2 i3 i4, i1 < n1 -> i2 < n2 -> i3 < n3 -> i4 < n4 ->
       tgt !! row_major4 n2 n3 n4 i1 i2 i3 i4 = mainbuf !! SRC i1 i2 i3 i4) /\
    (forall k, n1 * n2 * n3 * n4 <= k -> tgt !! k = scratchbuf !! k).
Proof.
  intros Hroom Hto Hfrom.
  pose (V := fun (k : nat) (v : R) =>
    exists i1 i2 i3 i4, i1 < n1 /\ i2 < n2 /\ i3 < n3 /\ i4 < n4 /\
      k = row_major4 n2 n3 n4 i1 i2 i3 i4 /\ mainbuf !! SRC i1 i2 i3 i4 = Some v).
  pose (Pos := fun (k : nat) =>
    exists r1, r1 < nr1 /\ exists r2, r2 < nr2 /\
    exists i, i < rows /\ exists j, j < cols /\ k = tgt_index r1 r2 i j).
  assert (Hstores : stores V Pos (for_loop nr1 (fun r1 t =>
      for_loop nr2 (fun r2 t =>
        assign_block rows cols (tgt_index r1 r2)
          (fun i j => at_index mainbuf (sidx r1 r2 i j)) t) t))).
  { apply (stores_loop V nr1 (fun r1 k => exists r2, r2 < nr2 /\
             exists i, i < rows /\ exists j, j < cols /\ k = tgt_index r1 r2 i j)).
    intros r1 Hr1.
    apply (stores_loop V nr2 (fun r2 k =>
             exists i, i < rows /\ exists j, j < cols /\ k = tgt_index r1 r2 i j)).
    intros r2 Hr2. apply stores_assign_block. intros i j Hi Hj.
    specialize (Hto r1 r2 i j Hr1 Hr2 Hi Hj).
    destruct (to_caller r1 r2 i j) as [[[i1 i2] i3] i4].
    destruct Hto as (H1 & H2 & H3 & H4 & Ht & Hs).
    destruct (Hfrom i1 i2 i3 i4 H1 H2 H3 H4) as [Hlt _].
    destruct (lookup_lt_is_Some_2 mainbuf _ Hlt) as [v Hv].
    exists v. rewrite Hs. split; [apply at_index_Returned; exact Hv|].
    exists i1, i2, i3, i4. repeat (split; [assumption|]). exact Hv. }
  assert (Hcover : forall k, Pos k -> k < n1 * n2 * n3 * n4).
  { intros k (r1 & Hr1 & r2 & Hr2 & i & Hi & j & Hj & ->).
    specialize (Hto r1 r2 i j Hr1 Hr2 Hi Hj).
    destruct (to_caller r1 r2 i j) as [[[i1 i2] i3] i4].
    destruct Hto as (H1 & H2 & H3 & H4 & -> & _). apply row_major4_lt; assumption. }
  destruct (Hstores scratchbuf) as (tgt & Hret & Hlen & Hout & Hany & Hin).
  { intros k Hk. specialize (Hcover k Hk). lia. }
  exists tgt. split; [exact Hret|]. split; [exact Hlen|]. split.
  - intros i1 i2 i3 i4 H1 H2 H3 H4.
    destruct (Hfrom i1 i2 i3 i4 H1 H2 H3 H4) as [_ Hf].
    destruct (from_caller i1 i2 i3 i4) as [[[r1 r2] i] j].
    destruct Hf as (Hr1 & Hr2 & Hi & Hj & Hback).
    pose proof (Hto r1 r2 i j Hr1 Hr2 Hi Hj) as Hto'. rewrite Hback in Hto'.
    destruct Hto' as (_ & _ & _ & _ & Ht & _).
    destruct (Hin (row_major4 n2 n3 n4 i1 i2 i3 i4)) as (v & Hv & HV).
    { exists r1. split; [exact Hr1|]. exists r2. split; [exact Hr2|].
      exists i. split; [exact Hi|]. exists j. split; [exact Hj|]. symmetry. exact Ht. }
    destruct HV as (i1' & i2' & i3' & i4' & H1' & H2' & H3' & H4' & Heq & Hsrc).
    apply row_major4_inj in Heq; [|assumption..].
    destruct Heq as (-> & -> & -> & ->). rewrite Hv, Hsrc. reflexivity.
  - intros k Hk. apply Hout. intros HP. specialize (Hcover k HP). lia.
Qed.

(** Reads the stores of the goal's loops and applies [scatter_rows]. *)
Ltac apply_scatter SRC to_caller from_caller Hroom :=
  lazymatch goal with
  | |- context [for_loop ?nr1 (fun r1 t => for_loop ?nr2 (fun r2 t' =>
         assign_block ?rows ?cols (@?ti r1 r2)
           (fun i j => at_index ?main (@?sx r1 r2 i j)) t') t) ?scratch] =>
      let tgt := fresh "tgt" in
      let Hret := fresh "Hret" in
      let Hlen := fresh "Hlen" in
      let Hval := fresh "Hval" in
      let Hkeep := fresh "Hkeep" in
      destruct (scatter_rows nr1 nr2 rows cols _ _ _ _ main scratch
                  (fun r1 r2 i j => ti r1 r2 i j) sx SRC to_caller from_caller Hroom)
        as (tgt & Hret & Hlen & Hval & Hkeep);
      [ | | exists tgt; split; [exact Hret|]; split; [exact Hlen|];
            split; [exact Hval | exact Hkeep] ]
  end.

(** A source offset is inside the source block. *)
Ltac source_in_range Hmain :=
  try lazymatch goal with
      | Ha : ?a < ?na |- ((?a * ?n2 + ?b) * ?n3 + ?c) * ?n4 + ?d < _ =>
          apply Nat.lt_le_trans with (na * n2 * n3 * n4);
          [ apply (row_major4_lt na n2 n3 n4 a b c d); assumption
          | eapply Nat.le_trans; [|exact Hmain]; apply Nat.eq_le_incl; ring ]
      end.

(** For every combination of the three swap decisions and all extents
    [n1 .. n4] of the caller's shells, with the source of the canonical
    extents and both buffers large enough: [unpermute] returns, and the
    entry ([i1], [i2], [i3], [i4]) of the target, row-major in the caller's
    extents, is the entry of the source at the canonical indices, row-major
    in the canonical extents; entries past the block are kept. *)
Lemma unpermute_returns
  (swap_braket swap_bra swap_ket : bool) (n1 n2 n3 n4 : nat)
  (mainbuf scratchbuf : list R) :
  let '(nr1, nr2, nc1, nc2) := canonical_order swap_braket swap_bra swap_ket n1 n2 n3 n4 in
  n1 * n2 * n3 * n4 <= length mainbuf ->
  n1 * n2 * n3 * n4 <= length scratchbuf ->
  exists tgt,
    unpermute swap_braket swap_bra swap_ket nr1 nr2 nc1 nc2 n1 n2 n3 n4
      mainbuf scratchbuf = Returned tgt /\
    length tgt = length scratchbuf /\
    (forall i1 i2 i3 i4, i1 < n1 -> i2 < n2 -> i3 < n3 -> i4 < n4 ->
       let '(j1, j2, j3, j4) :=
         canonical_order swap_braket swap_bra swap_ket i1 i2 i3 i4 in
       tgt !! row_major4 n2 n3 n4 i1 i2 i3 i4 =
         mainbuf !! row_major4 nr2 nc1 nc2 j1 j2 j3 j4) /\
    (forall k, n1 * n2 * n3 * n4 <= k -> tgt !! k = scratchbuf !! k).
Proof.
  pose (SRC := fun i1 i2 i3 i4 =>
    let '(nr1, nr2, nc1, nc2) :=
      canonical_order swap_braket swap_bra swap_ket n1 n2 n3 n4 in
    let '(j1, j2, j3, j4) :=
      canonical_order swap_braket swap_bra swap_ket i1 i2 i3 i4 in
    row_major4 nr2 nc1 nc2 j1 j2 j3 j4).
  destruct swap_braket.
  - (* bra and ket exchanged: a source row is a target column *)
    pose (to_caller := fun r1 r2 i j : nat =>
      (i, j, if swap_ket then r2 else r1, if swap_ket then r1 else r2)).
    pose (from_caller := fun i1 i2 i3 i4 : nat =>
      (if swap_ket then i4 else i3, if swap_ket then i3 else i4, i1, i2)).
    destruct swap_bra, swap_ket; cbn [canonical_order]; intros Hmain Hroom;
      rewrite unpermute_loops; unfold copy_source_row; cbn [negb]; cbv beta;
      apply_scatter SRC to_caller from_caller Hroom;
      unfold to_caller, from_caller, SRC, row_major4; cbn [canonical_order];
      intros; repeat split; try assumption; try lia; try ring;
      source_in_range Hmain.
  - (* bra and ket in place: a source row is a target row *)
    pose (to_caller := fun r1 r2 i j : nat =>
      (if swap_bra then r2 else r1, if swap_bra then r1 else r2, i, j)).
    pose (from_caller := fun i1 i2 i3 i4 : nat =>
      (if swap_bra then i2 else i1, if swap_bra then i1 else i2, i3, i4)).
    destruct swap_bra, swap_ket; cbn [canonical_order]; intros Hmain Hroom;
      rewrite unpermute_loops; unfold copy_source_row; cbn [negb]; cbv beta;
      apply_scatter SRC to_caller from_caller Hroom;
      unfold to_caller, from_caller, SRC, row_major4; cbn [canonical_order];
      intros; repeat split; try assumption; try lia; try ring;
      source_in_range Hmain.
Qed.

End Unpermute.

(** ** The scratch buffer of the one-body engine *)

Section Scratch.
Import OneBodyEngine.
Local Open Scope nat_scope.

Lemma memset0_returns (n : nat) (sc : list R) :
  n <= length sc ->
  exists sc', memset0 n sc = Returned sc' /\ length sc' = length sc /\
    (forall k, k < n -> sc' !! k = Some 0%R) /\
    (forall k, n <= k -> sc' !! k = sc !! k).
Proof.
  intros Hn.
  destruct (stores_loop (fun _ v => v = 0%R) n (fun i k => k = i)
              (fun i sc => update_at sc i (fun _ => mret 0%R))) with (t := sc)
    as (sc' & Hret & Hlen & Hout & _ & Hin).
  - intros i Hi. apply (stores_update _ i (mret 0%R) 0%R); reflexivity.
  - intros k (i & Hi & ->). lia.
  - exists sc'. split; [exact Hret|]. split; [exact Hlen|]. split.
    + intros k Hk. destruct (Hin k) as (v & Hv & ->); [|exact Hv].
      exists k. split; [exact Hk | reflexivity].
    + intros k Hk. apply Hout. intros (i & Hi & ->). lia.
Qed.

(** [set12 += braket] (or its transpose) adds to each entry of the
    [ncart1] x [ncart2] block the entry of [braket] it is paired with. *)
Lemma add_to_set12_returns (swap : bool) (ncart_bra ncart_ket ncart1 ncart2 : nat)
  (braket scratch : list R) :
  ncart1 * ncart2 <= length scratch ->
  (forall i j, i < ncart1 -> j < ncart2 ->
     (if swap then j * ncart_ket + i else i * ncart_ket + j) < length braket) ->
  exists sc',
    add_to_set12 swap ncart_bra ncart_ket ncart1 ncart2 braket scratch = Returned sc' /\
    length sc' = length scratch /\
    (forall i j, i < ncart1 -> j < ncart2 ->
       exists old b, scratch !! (i * ncart2 + j) = Some old /\
         braket !! (if swap then j * ncart_ket + i else i * ncart_ket + j) = Some b /\
         sc' !! (i * ncart2 + j) = Some (old + b)%R) /\
    (forall k, ncart1 * ncart2 <= k -> sc' !! k = scratch !! k).
Proof.
  intros Hroom Hsrc. unfold add_to_set12.
  set (idx := fun i j => if swap then j * ncart_ket + i else i * ncart_ket + j) in *.
  pose (done_before := fun (i j : nat) (sc' : list R) =>
    forall i' j', j' < ncart2 -> i' < i \/ (i' = i /\ j' < j) ->
      exists old b, scratch !! (i' * ncart2 + j') = Some old /\
        braket !! idx i' j' = Some b /\ sc' !! (i' * ncart2 + j') = Some (old + b)%R).
  pose (I := fun (i : nat) (sc' : list R) =>
    length sc' = length scratch /\ done_before i 0 sc' /\
    (forall k, i * ncart2 <= k -> sc' !! k = scratch !! k)).
  match goal with |- context [for_loop ?n ?body ?s] =>
    destruct (for_loop_inv I n body s) as (sc' & Hret & Hlen & Hdone & Hrest) end.
  - unfold I, done_before. split; [reflexivity|]. split; [intros; lia | reflexivity].
  - intros i sc0 Hi (Hl0 & Hdone0 & Hrest0).
    pose (J := fun (j : nat) (sc' : list R) =>
      length sc' = length scratch /\ done_before i j sc' /\
      (forall k, i * ncart2 + j <= k -> sc' !! k = scratch !! k)).
    match goal with |- context [for_loop ?n ?body ?s] =>
      destruct (for_loop_inv J n body s) as (sc1 & Hret1 & Hl1 & Hdone1 & Hrest1) end.
    + unfold J. split; [exact Hl0|]. split; [exact Hdone0|].
      intros k Hk. apply Hrest0. lia.
    + intros j sc2 Hj (Hl2 & Hdone2 & Hrest2).
      assert (Hpos : i * ncart2 + j < length scratch).
      { pose proof (row_major_lt ncart1 ncart2 i j Hi Hj). lia. }
      destruct (lookup_lt_is_Some_2 scratch _ Hpos) as [old Hold].
      destruct (lookup_lt_is_Some_2 braket _ (Hsrc i j Hi Hj)) as [b Hb].
      exists (<[i * ncart2 + j := (old + b)%R]> sc2). split.
      { apply (update_at_Returned sc2 _ _ old).
        - rewrite Hrest2 by lia. exact Hold.
        - cbv beta. rewrite (at_index_Returned _ _ _ Hb). reflexivity. }
      unfold J. split; [rewrite length_insert; exact Hl2|]. split.
      * intros i' j' Hj' Hcase.
        destruct (decide (i' = i /\ j' = j)) as [[-> ->]|Hne].
        -- exists old, b. split; [exact Hold|]. split; [exact Hb|].
           apply list_lookup_insert_eq. lia.
        -- destruct (Hdone2 i' j' Hj') as (old' & b' & H1 & H2 & H3); [lia|].
           exists old', b'. split; [exact H1|]. split; [exact H2|].
           rewrite list_lookup_insert_ne; [exact H3|].
           intros Heq. apply row_major_inj in Heq; [|assumption..]. lia.
      * intros k Hk. rewrite list_lookup_insert_ne by lia. apply Hrest2. lia.
    + exists sc1. split; [exact Hret1|]. unfold I. split; [exact Hl1|]. split.
      * intros i' j' Hj' Hcase. apply Hdone1; [exact Hj'|]. lia.
      * intros k Hk. apply Hrest1. lia.
  - exists sc'. split; [exact Hret|]. split; [exact Hlen|]. split.
    + intros i j Hi Hj. apply Hdone; [exact Hj | left; exact Hi].
    + exact Hrest.
Qed.

End Scratch.

(** ** [compute] through a recurrence kernel *)

Section OneBodyGeneral.
Context {C : Libint2Config} {L : Libint2Library}.
Import OneBodyEngine.
Local Open Scope nat_scope.

Lemma cartesian_size_single (s : Shell.t) :
  Shell.ncontr s = 1 -> Shell.cartesian_size s = ncart (Contraction.l (Shell.contr0 s)).
Proof.
  unfold Shell.ncontr, Shell.cartesian_size, Shell.contr0, ncart,
    Contraction.cartesian_size.
  destruct (Shell.contr s) as [|c [|c' cs]]; cbn; intros H; try discriminate H. lia.
Qed.

(** [compute_primdata] reads of the engine its type, its derivative order
    and its charges. *)
Lemma compute_primdata_setup (e e' : t) (r : Libint_t) (s1 s2 : Shell.t)
  (p1 p2 oset : nat) :
  type_ e' = type_ e -> deriv_order_ e' = deriv_order_ e -> q_ e' = q_ e ->
  compute_primdata e' r s1 s2 p1 p2 oset = compute_primdata e r s1 s2 p1 p2 oset.
Proof. intros Ht Hd Hq. unfold compute_primdata. rewrite Ht, Hd, Hq. reflexivity. Qed.

Lemma assemble_setup (e e' : t) (bra ket : Shell.t) (oset : nat) (pd : list Libint_t) :
  type_ e' = type_ e -> deriv_order_ e' = deriv_order_ e -> q_ e' = q_ e ->
  assemble e' bra ket oset pd = assemble e bra ket oset pd.
Proof.
  intros Ht Hd Hq. unfold assemble.
  apply for_loop_ext. intros pb st _. apply for_loop_ext. intros pk [p12 pd0] _.
  unfold update_at. destruct (at_index pd0 p12); cbn; try reflexivity.
  rewrite (compute_primdata_setup e e') by assumption. reflexivity.
Qed.

Lemma kernel_block_setup (e e' : t) (bra ket : Shell.t) (oset : nat) :
  type_ e' = type_ e -> deriv_order_ e' = deriv_order_ e -> q_ e' = q_ e ->
  kernel_block e' bra ket oset = kernel_block e bra ket oset.
Proof.
  intros Ht Hd Hq. unfold kernel_block, reference_records.
  rewrite Ht, (assemble_setup e e') by assumption. reflexivity.
Qed.

(** After the primitive-pair loop and the store of the contraction depth,
    the record array carries the input of the reference records. *)
Lemma assembled_same_arrays (e : t) (bra ket : Shell.t) (oset : nat)
  (pd pd1 : list Libint_t) (r1 : Libint_t) :
  deriv_order_ e = 0%N ->
  (type_ e = nuclear -> is_Some (q_ e !! oset)) ->
  Shell.nprim bra * Shell.nprim ket <= length pd ->
  assemble e bra ket oset pd = Returned (Shell.nprim bra * Shell.nprim ket, pd1) ->
  pd1 !! 0 = Some r1 ->
  same_arrays (type_ e)
    (Contraction.l (Shell.contr0 bra) + Contraction.l (Shell.contr0 ket))
    (<[0 := set_contrdepth (Shell.nprim bra * Shell.nprim ket) r1]> pd1)
    (reference_records e bra ket oset).
Proof.
  intros Hd Hq Hfit Hasm Hr1.
  set (n := Shell.nprim bra * Shell.nprim ket) in *.
  destruct (assemble_returns e bra ket oset pd Hd Hq Hfit)
    as (pd1' & Hret & Hlen & Hdone & _).
  fold n in Hret. rewrite Hasm in Hret. injection Hret as <-.
  destruct (assemble_returns e bra ket oset (replicate (S n) Libint_t_zero) Hd Hq)
    as (pdz & Hretz & Hlenz & Hdonez & _).
  { rewrite length_replicate. fold n. lia. }
  fold n in Hretz. unfold reference_records. fold n. rewrite Hretz.
  assert (Hz0 : exists rz, pdz !! 0 = Some rz).
  { apply lookup_lt_is_Some_2. rewrite Hlenz, length_replicate. lia. }
  destruct Hz0 as [rz Hrz]. rewrite Hrz. cbn [default from_option].
  assert (H1len : 0 < length pd1) by (apply lookup_lt_Some in Hr1; exact Hr1).
  assert (Hzlen : 0 < length pdz) by (apply lookup_lt_Some in Hrz; exact Hrz).
  exists (set_contrdepth n r1), (set_contrdepth n rz).
  split; [apply list_lookup_insert_eq; exact H1len|].
  split; [apply list_lookup_insert_eq; exact Hzlen|].
  split; [reflexivity|].
  cbn [contrdepth set_contrdepth]. intros p Hp.
  set (nk := Shell.nprim ket) in *. set (nb := Shell.nprim bra) in *.
  assert (Hnk : 0 < nk) by (unfold n in Hp; nia).
  assert (Hpb : p `div` nk < nb) by (apply Nat.Div0.div_lt_upper_bound; unfold n in Hp; nia).
  assert (Hpk : p `mod` nk < nk) by (apply Nat.mod_upper_bound; lia).
  destruct (Hdone _ _ Hpb Hpk) as (ra & ra' & Hra & Hca & Hra').
  destruct (Hdonez _ _ Hpb Hpk) as (rb & rb' & Hrb & Hcb & Hrb').
  replace (p `div` nk * nk + p `mod` nk) with p in *
    by (rewrite (Nat.div_mod_eq p nk) at 1; lia).
  assert (Hq' : exists qC, type_ e = nuclear -> q_ e !! oset = Some qC).
  { destruct (decide (type_ e = nuclear)) as [Hty|Hty].
    - destruct (Hq Hty) as [qC HqC]. exists qC. intros _. exact HqC.
    - exists (0%R, (0%R, 0%R, 0%R)). intros Hn. contradiction. }
  destruct Hq' as [qC HqC].
  rewrite (compute_primdata_eq e ra bra ket _ _ oset qC Hd HqC) in Hca.
  rewrite (compute_primdata_eq e rb bra ket _ _ oset qC Hd HqC) in Hcb.
  injection Hca as <-. injection Hcb as <-.
  pose proof (assembled_record_agree e ra rb bra ket (p `div` nk) (p `mod` nk) qC) as Hagree.
  destruct (decide (p = 0)) as [->|Hp0].
  - rewrite Hr1 in Hra'. injection Hra' as ->. rewrite Hrz in Hrb'. injection Hrb' as ->.
    eexists _, _. split; [apply list_lookup_insert_eq; exact H1len|].
    split; [apply list_lookup_insert_eq; exact Hzlen|]. exact Hagree.
  - eexists _, _. rewrite !list_lookup_insert_ne by lia.
    split; [exact Hra'|]. split; [exact Hrb'|]. exact Hagree.
Qed.


(** One pass over an operator component through the kernel: the block of
    the component is what [targets[0]] points to, and with [use_scratch] it
    has been added to the scratch block. *)
Lemma operset_pass_general (ek : t) (bra ket : Shell.t) (swap use_scratch : bool)
  (lmax ncart1 ncart2 oset : nat) (r0 : Libint_t) :
  kernel_contract ->
  lmax <> 0 ->
  deriv_order_ ek = 0%N ->
  type_ ek <> _invalid ->
  (type_ ek = nuclear -> is_Some (q_ ek !! oset)) ->
  Shell.nprim bra * Shell.nprim ket <= length (primdata_ ek) ->
  primdata_ ek !! 0 = Some r0 ->
  (use_scratch = true ->
     ncart1 * ncart2 <= length (scratch_ ek) /\
     forall i j, i < ncart1 -> j < ncart2 ->
       block_index swap (Shell.cartesian_size ket) i j
       < ncart (Contraction.l (Shell.contr0 bra)) * ncart (Contraction.l (Shell.contr0 ket))) ->
  exists pd' r0' sc',
    operset_pass bra ket swap use_scratch lmax ncart1 ncart2 oset ek
      = Returned (with_scratch sc' (with_primdata pd' ek)) /\
    length pd' = length (primdata_ ek) /\
    pd' !! 0 = Some r0' /\ stack r0' = stack r0 /\
    targets0 r0' = kernel_block ek bra ket oset /\
    (if use_scratch then
       length sc' = length (scratch_ ek) /\
       (forall i j, i < ncart1 -> j < ncart2 ->
          exists old, scratch_ ek !! (i * ncart2 + j) = Some old /\
            sc' !! (i * ncart2 + j) =
              Some (old + default 0%R
                      (kernel_block ek bra ket oset !!
                         block_index swap (Shell.cartesian_size ket) i j))%R) /\
       (forall k, ncart1 * ncart2 <= k -> sc' !! k = scratch_ ek !! k)
     else sc' = scratch_ ek).
Proof.
  intros [Hread Hsized] Hlmax Hd Hty Hq Hfit H0 Hscratch. unfold operset_pass.
  set (nb := Shell.nprim bra) in *. set (nk := Shell.nprim ket) in *.
  destruct (assemble_returns ek bra ket oset (primdata_ ek) Hd Hq Hfit) as
    (pd1 & Hret & Hlen & Hdone & Hrest).
  fold nb nk in Hret, Hdone, Hrest.
  rewrite Hret. cbn [mbind outcome_bind].
  assert (Hr1 : exists r1, pd1 !! 0 = Some r1 /\ stack r1 = stack r0).
  { destruct (decide (nb * nk = 0)) as [Hz|Hnz].
    - exists r0. split; [|reflexivity]. rewrite Hrest by lia. exact H0.
    - destruct (Hdone 0 0) as (r & r' & Hr & Hc & Hr'); [nia | nia |].
      cbn in Hr, Hr'. rewrite H0 in Hr. injection Hr as <-.
      exists r'. split; [exact Hr'|].
      destruct (compute_primdata_returns ek r0 bra ket 0 0 oset Hd Hq)
        as (r'' & Hc' & (_ & _ & Hs & _) & _).
      rewrite Hc in Hc'. injection Hc' as <-. exact Hs. }
  destruct Hr1 as (r1 & Hr1 & Hst1).
  rewrite (update_at_Returned pd1 0 _ r1 (set_contrdepth (nb * nk) r1) Hr1 eq_refl).
  cbn [mbind outcome_bind].
  replace (lmax =? 0) with false by (symmetry; apply Nat.eqb_neq; exact Hlmax).
  set (pd2 := <[0 := set_contrdepth (nb * nk) r1]> pd1).
  set (lb := Contraction.l (Shell.contr0 bra)) in *.
  set (lk := Contraction.l (Shell.contr0 ket)) in *.
  assert (Hout :
    match type_ ek with
    | overlap => mret (libint2_build_overlap lb lk pd2)
    | kinetic => mret (libint2_build_kinetic lb lk pd2)
    | nuclear => mret (libint2_build_elecpot lb lk pd2)
    | _invalid => _ ← assert false; mret []
    end = Returned (kernel_block ek bra ket oset)).
  { assert (Hk : build (type_ ek) lb lk pd2 = kernel_block ek bra ket oset).
    { unfold kernel_block. fold lb lk. apply Hread.
      apply (assembled_same_arrays ek bra ket oset (primdata_ ek) pd1 r1 Hd Hq Hfit Hret Hr1). }
    rewrite <- Hk. unfold build. destruct (type_ ek); try reflexivity. contradiction. }
  rewrite Hout. cbn [mbind outcome_bind].
  set (K := kernel_block ek bra ket oset) in *.
  assert (H02 : pd2 !! 0 = Some (set_contrdepth (nb * nk) r1)).
  { unfold pd2. apply list_lookup_insert_eq. apply lookup_lt_Some in Hr1. exact Hr1. }
  rewrite (update_at_Returned pd2 0 _ _ (set_targets0 K (set_contrdepth (nb * nk) r1))
             H02 eq_refl).
  cbn [mbind outcome_bind].
  set (pd3 := <[0 := _]> pd2).
  assert (Hlen3 : length pd3 = length (primdata_ ek)).
  { unfold pd3, pd2. rewrite !length_insert. exact Hlen. }
  assert (H03 : pd3 !! 0 = Some (set_targets0 K (set_contrdepth (nb * nk) r1))).
  { unfold pd3. apply list_lookup_insert_eq. apply lookup_lt_Some in H02. exact H02. }
  destruct use_scratch.
  - destruct (Hscratch eq_refl) as [Hroom Hidx].
    destruct (add_to_set12_returns swap (Shell.cartesian_size bra) (Shell.cartesian_size ket)
                ncart1 ncart2 K (scratch_ ek) Hroom) as (sc' & Hadd & Hlsc & Hval & Hkeep).
    { intros i j Hi Hj. eapply Nat.lt_le_trans; [apply Hidx; assumption|].
      unfold K, kernel_block. apply Hsized. exact Hty. }
    cbn [scratch_ with_primdata]. rewrite Hadd. cbn [mbind outcome_bind mret outcome_ret].
    exists pd3, (set_targets0 K (set_contrdepth (nb * nk) r1)), sc'.
    split; [reflexivity|]. split; [exact Hlen3|]. split; [exact H03|].
    split; [exact Hst1|]. split; [reflexivity|].
    split; [exact Hlsc|]. split; [|exact Hkeep].
    intros i j Hi Hj. destruct (Hval i j Hi Hj) as (old & b & Hold & Hb & Hnew).
    exists old. split; [exact Hold|]. unfold block_index. rewrite Hb. exact Hnew.
  - exists pd3, (set_targets0 K (set_contrdepth (nb * nk) r1)), (scratch_ ek).
    split; [reflexivity|]. split; [exact Hlen3|]. split; [exact H03|].
    split; [exact Hst1|]. split; reflexivity.
Qed.


Lemma nprim_bra_ket (s1 s2 : Shell.t) :
  Shell.nprim (bra_of s1 s2) * Shell.nprim (ket_of s1 s2) = Shell.nprim s1 * Shell.nprim s2.
Proof. unfold bra_of, ket_of. destruct (swap_of s1 s2); cbn; lia. Qed.

Lemma block_index_lt (s1 s2 : Shell.t) (i j : nat) :
  Shell.ncontr s1 = 1 -> Shell.ncontr s2 = 1 ->
  i < Shell.cartesian_size s1 -> j < Shell.cartesian_size s2 ->
  block_index (swap_of s1 s2) (Shell.cartesian_size (ket_of s1 s2)) i j
  < ncart (Contraction.l (Shell.contr0 (bra_of s1 s2))) *
    ncart (Contraction.l (Shell.contr0 (ket_of s1 s2))).
Proof.
  intros H1 H2 Hi Hj. unfold block_index, bra_of, ket_of.
  rewrite (cartesian_size_single s1 H1) in *. rewrite (cartesian_size_single s2 H2) in *.
  destruct (swap_of s1 s2); cbn [negb].
  - rewrite (cartesian_size_single s1 H1). apply row_major_lt; assumption.
  - rewrite (cartesian_size_single s2 H2). apply row_major_lt; assumption.
Qed.

Lemma compute_general (e : t) (s1 s2 : Shell.t) :
  kernel_contract ->
  admissible e s1 s2 ->
  lmax_of s1 s2 <> 0 ->
  exists cart tgt e',
    compute e s1 s2 =
      Returned
        (if Contraction.pure (Shell.contr0 s1) || Contraction.pure (Shell.contr0 s2)
         then overwrite (to_solid s1 s2 cart) tgt else cart, e') /\
    (forall i j, i < Shell.cartesian_size s1 -> j < Shell.cartesian_size s2 ->
       cart !! (i * Shell.cartesian_size s2 + j) = Some (cartesian_entry e s1 s2 i j)) /\
    same_setup e e'.
Proof.
  intros HK [Hn1 Hn2 Hd Hty Hnuc Hwrap Hcap Hlmax (r0 & H0 & Hstack) Hroom] Hl.
  unfold compute. rewrite Hn1, Hn2, Hd.
  cbn [Nat.eqb andb assert mbind outcome_bind N.eqb].
  assert (Hthrow : bool_decide (type_ e = nuclear) && (length (q_ e) =? 0) = false).
  { destruct (bool_decide (type_ e = nuclear)) eqn:Hb; [|reflexivity].
    apply bool_decide_eq_true in Hb. destruct (Hnuc Hb) as [Hq _].
    destruct (q_ e); [contradiction | reflexivity]. }
  rewrite Hthrow.
  fold (swap_of s1 s2). fold (bra_of s1 s2) (ket_of s1 s2) (lmax_of s1 s2).
  set (swap := swap_of s1 s2). set (bra := bra_of s1 s2). set (ket := ket_of s1 s2).
  set (us := swap || bool_decide (type_ e = nuclear)).
  set (nc1 := Shell.cartesian_size s1) in *. set (nc2 := Shell.cartesian_size s2) in *.
  rewrite size_mul_small
    by (unfold bra, ket, bra_of, ket_of; destruct (swap_of s1 s2); cbn [negb]; lia).
  replace (_ <=? N.of_nat (length (primdata_ e)))%N with true
    by (symmetry; apply N.leb_le; pose proof (nprim_bra_ket s1 s2); unfold bra, ket; lia).
  replace (Z.of_nat (lmax_of s1 s2) <=? lmax_ e)%Z with true
    by (symmetry; apply Z.leb_le; exact Hlmax).
  cbn [assert mbind outcome_bind].
  (* the scratch block is cleared *)
  assert (Hclear : exists sc0,
    clear_target (lmax_of s1 s2) us nc1 nc2 e = Returned (with_scratch sc0 e) /\
    length sc0 = length (scratch_ e) /\
    (us = true -> forall k, k < nc1 * nc2 -> sc0 !! k = Some 0%R) /\
    (us = false -> sc0 = scratch_ e)).
  { unfold clear_target.
    replace (lmax_of s1 s2 =? 0) with false by (symmetry; apply Nat.eqb_neq; exact Hl).
    destruct us.
    - destruct (memset0_returns (nc1 * nc2) (scratch_ e) Hroom) as (sc0 & Hm & Hl0 & Hz & _).
      rewrite Hm. exists sc0. split; [reflexivity|]. split; [exact Hl0|].
      split; [intros _; exact Hz | discriminate].
    - exists (scratch_ e). split; [destruct e; reflexivity|]. split; [reflexivity|].
      split; [discriminate | reflexivity]. }
  destruct Hclear as (sc0 & Hclear & Hlsc0 & Hzero & Hsame).
  rewrite Hclear. cbn [mbind outcome_bind].
  set (e1 := with_scratch sc0 e).
  set (entry := fun oset i j =>
    default 0%R (kernel_block e bra ket oset !! block_index swap (Shell.cartesian_size ket) i j)).
  pose (I := fun (k : nat) (ek : t) =>
    type_ ek = type_ e /\ lmax_ ek = lmax_ e /\ deriv_order_ ek = deriv_order_ e /\
    q_ ek = q_ e /\ length (primdata_ ek) = length (primdata_ e) /\
    (exists rk, primdata_ ek !! 0 = Some rk /\ stack rk = stack r0 /\
       (0 < k -> targets0 rk = kernel_block e bra ket (k - 1))) /\
    length (scratch_ ek) = length (scratch_ e) /\
    (us = true -> forall i j, i < nc1 -> j < nc2 ->
       scratch_ ek !! (i * nc2 + j) = Some (Rsum k (fun oset => entry oset i j))) /\
    (us = false -> scratch_ ek = scratch_ e)).
  assert (Hloop : exists ek,
    for_loop (num_operset e) (operset_pass bra ket swap us (lmax_of s1 s2) nc1 nc2) e1
      = Returned ek /\ I (num_operset e) ek).
  { apply for_loop_inv.
    - unfold I, e1. cbn. repeat (split; [reflexivity|]).
      split; [exists r0; split; [exact H0|]; split; [reflexivity | lia]|].
      split; [exact Hlsc0|]. split; [|exact Hsame].
      intros Hus i j Hi Hj. apply Hzero; [exact Hus|]. apply row_major_lt; assumption.
    - intros k ek Hk (Ht & Hlm & Hde & Hq & Hlen & (rk & Hrk & Hsk & _) & Hls & Hsum & Hkeep).
      destruct (operset_pass_general ek bra ket swap us (lmax_of s1 s2) nc1 nc2 k rk HK Hl)
        as (pd' & rk' & sc' & Hret & Hlen' & Hrk' & Hsk' & Htg' & Hsc').
      + rewrite Hde. exact Hd.
      + rewrite Ht. exact Hty.
      + rewrite Ht, Hq. intros Hn. apply lookup_lt_is_Some_2. unfold num_operset in Hk.
        rewrite (bool_decide_eq_true_2 _ Hn) in Hk. exact Hk.
      + rewrite Hlen. pose proof (nprim_bra_ket s1 s2). unfold bra, ket. lia.
      + exact Hrk.
      + intros _. split; [rewrite Hls; exact Hroom|].
        intros i j Hi Hj. apply block_index_lt; assumption.
      + rewrite (kernel_block_setup e ek) in Htg', Hsc' by assumption.
        exists (with_scratch sc' (with_primdata pd' ek)). split; [exact Hret|].
        unfold I. cbn. split; [exact Ht|]. split; [exact Hlm|]. split; [exact Hde|].
        split; [exact Hq|]. split; [rewrite Hlen'; exact Hlen|].
        split; [exists rk'; split; [exact Hrk'|]; split; [congruence|];
                intros _; rewrite Nat.sub_0_r; exact Htg'|].
        destruct us.
        * destruct Hsc' as (Hl' & Hval & _). split; [rewrite Hl'; exact Hls|].
          split; [|discriminate]. intros _ i j Hi Hj.
          destruct (Hval i j Hi Hj) as (old & Hold & Hnew).
          rewrite (Hsum eq_refl i j Hi Hj) in Hold. injection Hold as <-.
          rewrite Hnew. reflexivity.
        * subst sc'. split; [exact Hls|]. split; [discriminate | exact Hkeep]. }
  destruct Hloop as (ek & Hek & Ht & Hlm & Hde & Hq & Hlen & (rk & Hrk & Hsk & Htg)
                     & Hls & Hsum & Hkeep).
  assert (Hnum : (if bool_decide (type_ e = nuclear) then length (q_ e1) else 1)
                 = num_operset e) by reflexivity.
  rewrite Hnum, Hek. cbn [mbind outcome_bind].
  assert (Hpos : 0 < num_operset e).
  { unfold num_operset. destruct (bool_decide (type_ e = nuclear)) eqn:Hb; [|lia].
    apply bool_decide_eq_true in Hb. destruct (Hnuc Hb) as [Hq0 _].
    destruct (q_ e); [contradiction | cbn; lia]. }
  unfold finish. rewrite (at_index_Returned _ _ _ Hrk). cbn [mbind outcome_bind].
  replace (lmax_of s1 s2 =? 0) with false by (symmetry; apply Nat.eqb_neq; exact Hl).
  cbn [negb]. rewrite andb_true_r.
  assert (Hready : forall pd, pd !! 0 = Some rk \/
                    pd = <[0 := set_targets0
                                  (overwrite (to_solid s1 s2 (scratch_ ek)) (targets0 rk)) rk]>
                           (primdata_ ek) ->
                    ready pd).
  { intros pd [Hpd| ->].
    - exists rk. split; [exact Hpd|]. rewrite Hsk. exact Hstack.
    - eexists. split; [apply list_lookup_insert_eq; apply lookup_lt_Some in Hrk; exact Hrk|].
      cbn. rewrite Hsk. exact Hstack. }
  assert (Hentry : forall i j, i < nc1 -> j < nc2 ->
            (if us then scratch_ ek else targets0 rk) !! (i * nc2 + j)
            = Some (cartesian_entry e s1 s2 i j)).
  { intros i j Hi Hj. unfold cartesian_entry.
    replace (lmax_of s1 s2 =? 0) with false by (symmetry; apply Nat.eqb_neq; exact Hl).
    fold bra ket swap. destruct us eqn:Hus.
    - apply (Hsum eq_refl i j Hi Hj).
    - unfold us in Hus. apply orb_false_elim in Hus. destruct Hus as [Hsw Hnn].
      assert (Hone : num_operset e = 1) by (unfold num_operset; rewrite Hnn; reflexivity).
      rewrite Hone in *. rewrite (Htg ltac:(lia)). cbn [Rsum Nat.sub].
      rewrite Hsw. unfold block_index.
      assert (Hket : ket = s2) by (unfold ket, ket_of; fold swap; rewrite Hsw; reflexivity).
      rewrite Hket. fold nc2.
      destruct HK as [_ Hsized].
      assert (Hin : i * nc2 + j < length (kernel_block e bra s2 0)).
      { eapply Nat.lt_le_trans; [|unfold kernel_block; apply Hsized; exact Hty].
        assert (Hbra : bra = s1) by (unfold bra, bra_of; fold swap; rewrite Hsw; reflexivity).
        rewrite Hbra. rewrite <- (cartesian_size_single s1 Hn1), <- (cartesian_size_single s2 Hn2).
        apply row_major_lt; assumption. }
      destruct (lookup_lt_is_Some_2 _ _ Hin) as [x Hx]. rewrite Hx. cbn.
      f_equal. rewrite Rplus_0_l. reflexivity. }
  destruct (Contraction.pure (Shell.contr0 s1) || Contraction.pure (Shell.contr0 s2)).
  - destruct us.
    + rewrite (update_at_Returned (primdata_ ek) 0
                 (fun r => mret (set_targets0
                    (overwrite (to_solid s1 s2 (scratch_ ek)) (targets0 rk)) r)) rk
                 (set_targets0 (overwrite (to_solid s1 s2 (scratch_ ek)) (targets0 rk)) rk)
                 Hrk eq_refl).
      cbn [mbind outcome_bind mret outcome_ret].
      eexists (scratch_ ek), (targets0 rk), _. split; [reflexivity|]. split; [exact Hentry|].
      unfold same_setup. cbn. repeat (split; [assumption|]).
      split; [rewrite length_insert; exact Hlen|]. split; [lia|].
      intros _. apply Hready. right. reflexivity.
    + eexists (targets0 rk), (scratch_ ek), _. split; [reflexivity|]. split; [exact Hentry|].
      unfold same_setup. cbn. repeat (split; [assumption|]).
      split; [unfold overwrite; rewrite length_app, length_drop; lia|].
      intros _. apply Hready. left. exact Hrk.
  - eexists (if us then scratch_ ek else targets0 rk), [], ek.
    split; [destruct us; reflexivity|]. split; [exact Hentry|].
    unfold same_setup. repeat (split; [assumption|]).
    split; [lia|]. intros _. apply Hready. left. exact Hrk.
Qed.

End OneBodyGeneral.

(** ** [compute] on every admissible call *)

Section OneBodyReturns.
Context {C : Libint2Config} {L : Libint2Library}.
Import OneBodyEngine.
Local Open Scope nat_scope.

Lemma lmax_of_zero (s1 s2 : Shell.t) :
  lmax_of s1 s2 = 0 ->
  Contraction.l (Shell.contr0 s1) = 0 /\ Contraction.l (Shell.contr0 s2) = 0.
Proof. unfold lmax_of. lia. Qed.

Lemma swap_of_zero (s1 s2 : Shell.t) : lmax_of s1 s2 = 0 -> swap_of s1 s2 = false.
Proof.
  intros H. destruct (lmax_of_zero s1 s2 H) as [H1 H2].
  unfold swap_of. rewrite H1, H2. destruct SHELLQUARTET_SET_STANDARD; reflexivity.
Qed.

(** Every admissible call returns; the Cartesian block [cart] it forms
    holds [cartesian_entry] at each index, and the result is the block or
    its solid-harmonics transform written over a buffer [tgt]. *)
Lemma compute_returns (e : t) (s1 s2 : Shell.t) :
  admissible e s1 s2 ->
  (lmax_of s1 s2 <> 0 -> kernel_contract) ->
  exists cart tgt e',
    compute e s1 s2 =
      Returned
        (if Contraction.pure (Shell.contr0 s1) || Contraction.pure (Shell.contr0 s2)
         then overwrite (to_solid s1 s2 cart) tgt else cart, e') /\
    (forall i j, i < Shell.cartesian_size s1 -> j < Shell.cartesian_size s2 ->
       cart !! (i * Shell.cartesian_size s2 + j) = Some (cartesian_entry e s1 s2 i j)) /\
    same_setup e e'.
Proof.
  intros Hadm HK. destruct (decide (lmax_of s1 s2 = 0)) as [Hz|Hnz].
  - destruct (lmax_of_zero s1 s2 Hz) as [Hl1 Hl2].
    destruct Hadm as [Hn1 Hn2 Hd Hty Hnuc Hwrap Hcap Hlmax Hready Hroom].
    destruct (compute_ss e s1 s2) as (cart & e' & Hret & Hcart & Hsetup).
    { constructor; try assumption. lia. }
    exists cart, (scratch_ e), e'. split; [exact Hret|]. split; [|exact Hsetup].
    intros i j Hi Hj.
    rewrite (cartesian_size_single s1 Hn1), Hl1 in Hi.
    rewrite (cartesian_size_single s2 Hn2), Hl2 in Hj |- *.
    change (ncart 0) with 1 in *.
    replace i with 0 by lia. replace j with 0 by lia. cbn [Nat.mul Nat.add].
    rewrite Hcart. unfold cartesian_entry. rewrite Hz. cbn [Nat.eqb].
    unfold bra_of, ket_of. rewrite (swap_of_zero s1 s2 Hz). reflexivity.
  - apply compute_general; [apply HK; exact Hnz | exact Hadm | exact Hnz].
Qed.

(** What a call looks up in the engine is kept by every call. *)
Lemma same_setup_refl (e : t) : same_setup e e.
Proof. unfold same_setup. repeat split; auto. Qed.

Lemma same_setup_trans (e1 e2 e3 : t) :
  same_setup e1 e2 -> same_setup e2 e3 -> same_setup e1 e3.
Proof.
  unfold same_setup. intros (A1 & A2 & A3 & A4 & A5 & A6 & A7) (B1 & B2 & B3 & B4 & B5 & B6 & B7).
  repeat split; try congruence; try lia. auto.
Qed.

Lemma admissible_setup (e e' : t) (s1 s2 : Shell.t) :
  same_setup e e' -> admissible e s1 s2 -> admissible e' s1 s2.
Proof.
  intros (A1 & A2 & A3 & A4 & A5 & A6 & A7) [].
  constructor; try assumption; try congruence; try lia.
  - rewrite A1, A4. assumption.
  - auto.
Qed.

Lemma ss_seed_same_setup (e e' : t) (bra ket : Shell.t) :
  same_setup e e' -> ss_total e' bra ket = ss_total e bra ket.
Proof.
  intros (A1 & _ & _ & A4 & _). unfold ss_total, num_operset. rewrite A1, A4.
  apply Rsum_ext. intros o _. apply Rsum_ext. intros pb _. apply Rsum_ext. intros pk _.
  apply ss_seed_setup; assumption.
Qed.

Lemma cartesian_entry_setup (e e' : t) (s1 s2 : Shell.t) (i j : nat) :
  same_setup e e' -> cartesian_entry e' s1 s2 i j = cartesian_entry e s1 s2 i j.
Proof.
  intros Hs. pose proof Hs as (A1 & _ & A3 & A4 & _). unfold cartesian_entry.
  rewrite (ss_seed_same_setup e e') by exact Hs.
  unfold num_operset. rewrite A1, A4.
  destruct (lmax_of s1 s2 =? 0); [reflexivity|].
  apply Rsum_ext. intros o _. rewrite (kernel_block_setup e e') by assumption. reflexivity.
Qed.

End OneBodyReturns.

(** ** Nuclear attraction: the sum over the nuclei *)

Section Nuclear.
Context {C : Libint2Config} {L : Libint2Library}.
Import OneBodyEngine.
Local Open Scope nat_scope.

Lemma cartesian_entry_contributions (e : t) (s1 s2 : Shell.t) (i j : nat) :
  cartesian_entry e s1 s2 i j =
    Rsum (num_operset e) (fun oset => operset_contribution e s1 s2 oset i j).
Proof.
  unfold cartesian_entry, operset_contribution, ss_total.
  destruct (lmax_of s1 s2 =? 0); reflexivity.
Qed.


(** C10.  [set_q] overwrites the list of charges: after two calls the list
    is the second argument, the engine is the one a single call with the
    second argument gives, and no other field has changed.  A later
    nuclear-attraction [compute] on that engine (an admissible call, with
    the kernel contract when a kernel is called) returns, and every entry
    of its Cartesian block is the sum over exactly the nuclei of the second
    list. *)
Theorem set_q_replaces (e : t) (q1 q2 : list (R * vec3)) :
  q_ (set_q q2 (set_q q1 e)) = q2 /\
  set_q q2 (set_q q1 e) = set_q q2 e /\
  type_ (set_q q2 e) = type_ e /\
  primdata_ (set_q q2 e) = primdata_ e /\
  lmax_ (set_q q2 e) = lmax_ e /\
  deriv_order_ (set_q q2 e) = deriv_order_ e /\
  scratch_ (set_q q2 e) = scratch_ e /\
  (forall s1 s2,
     type_ e = nuclear ->
     admissible (set_q q2 e) s1 s2 ->
     (lmax_of s1 s2 <> 0 -> kernel_contract) ->
     exists cart tgt e',
       compute (set_q q2 (set_q q1 e)) s1 s2 =
         Returned
           (if Contraction.pure (Shell.contr0 s1) || Contraction.pure (Shell.contr0 s2)
            then overwrite (to_solid s1 s2 cart) tgt else cart, e') /\
       forall i j, i < Shell.cartesian_size s1 -> j < Shell.cartesian_size s2 ->
         cart !! (i * Shell.cartesian_size s2 + j) =
           Some (Rsum (length q2)
                   (fun oset => operset_contribution (set_q q2 e) s1 s2 oset i j))).
Proof.
  do 7 (split; [reflexivity|]).
  intros s1 s2 Hty Hadm HK.
  destruct (compute_returns (set_q q2 e) s1 s2 Hadm HK)
    as (cart & tgt & e' & Hret & Hcart & _).
  exists cart, tgt, e'. split; [exact Hret|]. intros i j Hi Hj.
  rewrite (Hcart i j Hi Hj), cartesian_entry_contributions.
  unfold num_operset. cbn [type_ q_ set_q].
  rewrite (bool_decide_eq_true_2 _ Hty). reflexivity.
Qed.

End Nuclear.

(** ** Calls do not depend on the calls before them (one-body) *)

Section OneBodyIndependence.
Context {C : Libint2Config} {L : Libint2Library}.
Import OneBodyEngine.
Local Open Scope nat_scope.

Lemma size_single (s : Shell.t) :
  Shell.ncontr s = 1 ->
  Shell.size s = if Contraction.pure (Shell.contr0 s)
                 then 2 * Contraction.l (Shell.contr0 s) + 1
                 else Shell.cartesian_size s.
Proof.
  unfold Shell.ncontr, Shell.size, Shell.cartesian_size, Shell.contr0, Contraction.size.
  destruct (Shell.contr s) as [|c [|c' cs]]; cbn; intros H; try discriminate H.
  destruct (Contraction.pure c); lia.
Qed.

(** The result of an admissible call, as a function of the Cartesian
    entries alone. *)
Lemma result_view_determined (s1 s2 : Shell.t) (cart cart' tgt tgt' : list R)
  (entry : nat -> nat -> R) :
  transform_contract ->
  Shell.ncontr s1 = 1 -> Shell.ncontr s2 = 1 ->
  (forall i j, i < Shell.cartesian_size s1 -> j < Shell.cartesian_size s2 ->
     cart !! (i * Shell.cartesian_size s2 + j) = Some (entry i j)) ->
  (forall i j, i < Shell.cartesian_size s1 -> j < Shell.cartesian_size s2 ->
     cart' !! (i * Shell.cartesian_size s2 + j) = Some (entry i j)) ->
  result_view s1 s2
    (if Contraction.pure (Shell.contr0 s1) || Contraction.pure (Shell.contr0 s2)
     then overwrite (to_solid s1 s2 cart) tgt else cart) =
  result_view s1 s2
    (if Contraction.pure (Shell.contr0 s1) || Contraction.pure (Shell.contr0 s2)
     then overwrite (to_solid s1 s2 cart') tgt' else cart').
Proof.
  intros [R1 R2 R3 S1 S2 S3] Hn1 Hn2 Hc Hc'.
  set (nc1 := Shell.cartesian_size s1) in *. set (nc2 := Shell.cartesian_size s2) in *.
  assert (Hblock : take (nc1 * nc2) cart = take (nc1 * nc2) cart').
  { apply list_eq. intros k. destruct (decide (k < nc1 * nc2)) as [Hk|Hk].
    - rewrite !lookup_take_lt by exact Hk.
      assert (Hnc2 : 0 < nc2) by nia.
      assert (Hi : k `div` nc2 < nc1) by (apply Nat.Div0.div_lt_upper_bound; nia).
      assert (Hj : k `mod` nc2 < nc2) by (apply Nat.mod_upper_bound; lia).
      pose proof (Hc _ _ Hi Hj) as H1. pose proof (Hc' _ _ Hi Hj) as H2.
      replace (k `div` nc2 * nc2 + k `mod` nc2) with k in H1, H2
        by (rewrite (Nat.div_mod_eq k nc2) at 1; lia).
      rewrite H1, H2. reflexivity.
    - rewrite !lookup_take_ge by lia. reflexivity. }
  unfold result_view. rewrite (size_single s1 Hn1), (size_single s2 Hn2).
  fold nc1 nc2.
  assert (Hsolid : to_solid s1 s2 cart = to_solid s1 s2 cart').
  { unfold to_solid. rewrite (size_single s1 Hn1), (size_single s2 Hn2).
    fold nc1 nc2. unfold nc1, nc2 in Hblock.
    rewrite (cartesian_size_single s1 Hn1), (cartesian_size_single s2 Hn2) in Hblock.
    destruct (Contraction.pure (Shell.contr0 s1)), (Contraction.pure (Shell.contr0 s2));
      cbn [andb].
    - apply R1. exact Hblock.
    - apply R2. unfold nc2. rewrite (cartesian_size_single s2 Hn2). exact Hblock.
    - apply R3. unfold nc1. rewrite (cartesian_size_single s1 Hn1). exact Hblock.
    - apply R3. unfold nc1. rewrite (cartesian_size_single s1 Hn1). exact Hblock. }
  assert (Hlen : Contraction.pure (Shell.contr0 s1) || Contraction.pure (Shell.contr0 s2) = true ->
    length (to_solid s1 s2 cart') =
      (if Contraction.pure (Shell.contr0 s1) then 2 * Contraction.l (Shell.contr0 s1) + 1 else nc1) *
      (if Contraction.pure (Shell.contr0 s2) then 2 * Contraction.l (Shell.contr0 s2) + 1 else nc2)).
  { unfold to_solid. rewrite (size_single s1 Hn1), (size_single s2 Hn2). fold nc1 nc2.
    destruct (Contraction.pure (Shell.contr0 s1)), (Contraction.pure (Shell.contr0 s2));
      cbn [andb orb]; intros Hp; try discriminate Hp.
    - apply S1.
    - apply S2.
    - apply S3. }
  destruct (Contraction.pure (Shell.contr0 s1) || Contraction.pure (Shell.contr0 s2)) eqn:Hp.
  - rewrite Hsolid. unfold overwrite.
    rewrite !take_app_le by (rewrite (Hlen eq_refl); lia). reflexivity.
  - apply orb_false_elim in Hp. destruct Hp as [-> ->]. exact Hblock.
Qed.

Lemma run_calls_setup (e : t) (calls : list (Shell.t * Shell.t)) :
  kernel_contract ->
  Forall (fun c => admissible e c.1 c.2) calls ->
  same_setup e (run_calls e calls).
Proof.
  intros HK Hall. unfold run_calls.
  assert (Hgen : forall e0, same_setup e e0 ->
    same_setup e (foldl (fun e c => match compute e c.1 c.2 with
                                    | Returned (_, e') => e' | _ => e end) e0 calls)).
  { induction Hall as [|c calls Hc Hall IH]; intros e0 H0; [exact H0|].
    cbn [foldl]. apply IH.
    destruct (compute_returns e0 c.1 c.2 (admissible_setup e e0 _ _ H0 Hc) (fun _ => HK))
      as (cart & tgt & e' & Hret & _ & Hs).
    rewrite Hret. eapply same_setup_trans; eassumption. }
  apply Hgen, same_setup_refl.
Qed.

(** On the one-body engine an admissible call gives the same result
    after any sequence of admissible calls as before it. *)
Lemma one_body_calls_independent (e : t) (calls : list (Shell.t * Shell.t))
  (s1 s2 : Shell.t) :
  kernel_contract -> transform_contract ->
  admissible e s1 s2 ->
  Forall (fun c => admissible e c.1 c.2) calls ->
  exists buf e1 buf' e2,
    compute e s1 s2 = Returned (buf, e1) /\
    compute (run_calls e calls) s1 s2 = Returned (buf', e2) /\
    result_view s1 s2 buf = result_view s1 s2 buf'.
Proof.
  intros HK HT Hadm Hall.
  pose proof (run_calls_setup e calls HK Hall) as Hs.
  destruct (compute_returns e s1 s2 Hadm (fun _ => HK)) as (cart & tgt & e1 & Hret & Hc & _).
  destruct (compute_returns (run_calls e calls) s1 s2
              (admissible_setup _ _ _ _ Hs Hadm) (fun _ => HK))
    as (cart' & tgt' & e2 & Hret' & Hc' & _).
  eexists _, e1, _, e2. split; [exact Hret|]. split; [exact Hret'|].
  apply (result_view_determined s1 s2 cart cart' tgt tgt' (cartesian_entry e s1 s2) HT
           (adm_ncontr1 _ _ _ Hadm) (adm_ncontr2 _ _ _ Hadm) Hc).
  intros i j Hi Hj. rewrite (Hc' i j Hi Hj).
  rewrite (cartesian_entry_setup e _ s1 s2 i j Hs). reflexivity.
Qed.

End OneBodyIndependence.

(** ** Exchange of the two shells (one-body) *)

Section OneBodySymmetry.
Context {C : Libint2Config} {L : Libint2Library}.
Import OneBodyEngine.
Local Open Scope nat_scope.









End OneBodySymmetry.

(** ** The example library keeps the contracts *)

Section ExampleLibrary.
Local Open Scope nat_scope.

Lemma tabulate_length (n : nat) (f : nat -> R) : length (tabulate n f) = n.
Proof. unfold tabulate. rewrite length_map, length_seq. reflexivity. Qed.


Lemma tabulate_ext (n : nat) (f g : nat -> R) :
  (forall k, k < n -> f k = g k) -> tabulate n f = tabulate n g.
Proof.
  intros H. unfold tabulate. apply map_ext_in. intros k Hk.
  apply in_seq in Hk. apply H. lia.
Qed.

Lemma ncart_ge (l : nat) : 2 * l + 1 <= ncart l.
Proof. unfold ncart. apply Nat.div_le_lower_bound; [lia | nia]. Qed.

Lemma leading_block_length (rows cols stride : nat) (c : list R) :
  length (leading_block rows cols stride c) = rows * cols.
Proof. apply tabulate_length. Qed.


Lemma take_same_lookup (n k : nat) (c c' : list R) :
  take n c = take n c' -> k < n -> c !! k = c' !! k.
Proof.
  intros H Hk. rewrite <- (lookup_take_lt c n k Hk), H. apply lookup_take_lt, Hk.
Qed.

Lemma leading_block_reads (rows cols stride height : nat) (c c' : list R) :
  cols <= stride -> rows <= height ->
  take (height * stride) c = take (height * stride) c' ->
  leading_block rows cols stride c = leading_block rows cols stride c'.
Proof.
  intros Hc Hr Ht. apply tabulate_ext. intros k Hk.
  assert (Hpos : 0 < cols) by nia.
  assert (Hq : k `div` cols < rows) by (apply Nat.Div0.div_lt_upper_bound; nia).
  assert (Hm : k `mod` cols < cols) by (apply Nat.mod_upper_bound; lia).
  rewrite (take_same_lookup _ _ c c' Ht); [reflexivity|].
  apply Nat.lt_le_trans with ((k `div` cols + 1) * stride); [lia|].
  apply Nat.mul_le_mono_r. lia.
Qed.

Lemma leading_slab_reads (n1 m stride n2 : nat) (c c' : list R) :
  m <= stride ->
  take (n1 * stride * n2) c = take (n1 * stride * n2) c' ->
  leading_slab n1 m stride n2 c = leading_slab n1 m stride n2 c'.
Proof.
  intros Hm Ht. apply tabulate_ext. intros k Hk.
  assert (Hpos : 0 < m * n2) by nia.
  assert (Hn2 : 0 < n2) by nia.
  assert (Hm0 : 0 < m) by nia.
  assert (Hq : k `div` (m * n2) < n1) by (apply Nat.Div0.div_lt_upper_bound; nia).
  assert (Hr : (k `div` n2) `mod` m < m) by (apply Nat.mod_upper_bound; lia).
  assert (Hj : k `mod` n2 < n2) by (apply Nat.mod_upper_bound; lia).
  rewrite (take_same_lookup _ _ c c' Ht); [reflexivity|].
  apply Nat.lt_le_trans with
    (((k `div` (m * n2)) * stride + (k `div` n2) `mod` m + 1) * n2); [lia|].
  apply Nat.mul_le_mono_r.
  apply Nat.le_trans with ((k `div` (m * n2) + 1) * stride); [lia|].
  apply Nat.mul_le_mono_r. lia.
Qed.


Lemma example_kernel_contract :
  kernel_contract (C := example_config) (L := example_library).
Proof.
  split.
  - intros ty lb lk pd pd' _. destruct ty; reflexivity.
  - intros ty lb lk pd Hty. destruct ty; cbn; rewrite ?length_replicate;
      try lia. congruence.
Qed.

Lemma example_transform_contract : transform_contract (L := example_library).
Proof.
  split; cbn.
  - intros l1 l2 c c'. apply leading_block_reads; apply ncart_ge.
  - intros l1 n2 c c'. apply leading_block_reads; [lia | apply ncart_ge].
  - intros n1 l2 c c'. apply leading_block_reads; [apply ncart_ge | lia].
  - intros. apply leading_block_length.
  - intros. apply leading_block_length.
  - intros. apply leading_block_length.
Qed.




Lemma small_nuclear_engine_admissible (A B : vec3) :
  admissible (C := example_config) small_nuclear_engine (p_shell 1 1 A) (s_shell 1 1 B).
Proof.
  split.
  - reflexivity.
  - reflexivity.
  - reflexivity.
  - discriminate.
  - intros _. split; [discriminate|]. repeat split.
  - reflexivity.
  - cbn. lia.
  - unfold lmax_of. cbn. lia.
  - exists (set_stack [0%R] Libint_t_zero). split; [reflexivity | cbn; lia].
  - vm_compute. lia.
Qed.

End ExampleLibrary.

(** ** Concrete runs *)



Lemma set_q_replaces_witness :
  exists cart e',
    OneBodyEngine.compute (C := example_config) (L := example_library)
      (OneBodyEngine.set_q [(1, (0, 0, 0)); (8, (0, 0, 1))]
         (OneBodyEngine.set_q [(6, (0, 0, 2))] small_nuclear_engine))
      (p_shell 1 1 origin) (s_shell 1 1 origin) = Returned (cart, e').
Proof.
  destruct (set_q_replaces (C := example_config) (L := example_library)
              small_nuclear_engine [(6, (0, 0, 2))] [(1, (0, 0, 0)); (8, (0, 0, 1))])
    as (_ & _ & _ & _ & _ & _ & _ & H).
  destruct (H (p_shell 1 1 origin) (s_shell 1 1 origin) eq_refl
              (small_nuclear_engine_admissible origin origin)
              (fun _ => example_kernel_contract))
    as (cart & tgt & e' & Hret & _).
  eexists _, e'. exact Hret.
Defined.

(** ** Loops that fill the record array *)

Section Fills.
Local Open Scope nat_scope.

Lemma fills_each (m : nat) (f : nat -> Libint_t -> Libint_t) :
  fills m f
    (for_loop m (fun i '(p, pd) =>
       pd ← update_at pd p (fun r => mret (f i r)); mret (S p, pd))).
Proof.
  induction m as [|m IH]; intros p pd Hfit.
  - exists pd. cbn [for_loop]. rewrite Nat.add_0_r.
    split; [reflexivity|]. split; [reflexivity|]. split; [reflexivity|].
    intros i Hi. lia.
  - destruct (IH p pd) as (pd1 & Hret1 & Hlen1 & Hout1 & Hin1); [lia|].
    assert (Hidx : p + m < length pd) by lia.
    destruct (lookup_lt_is_Some_2 pd (p + m) Hidx) as [r Hr].
    exists (<[p + m := f m r]> pd1). split.
    { cbn [for_loop]. rewrite Hret1. cbn [mbind outcome_bind].
      rewrite (update_at_Returned pd1 (p + m) _ r (f m r));
        [cbn; do 2 f_equal; lia | | reflexivity].
      rewrite Hout1 by lia. exact Hr. }
    split; [rewrite length_insert; exact Hlen1|]. split.
    + intros k Hk. rewrite list_lookup_insert_ne by lia. apply Hout1. lia.
    + intros i Hi. destruct (decide (i = m)) as [->|Hne].
      * exists r. split; [exact Hr|]. apply list_lookup_insert_eq. lia.
      * destruct (Hin1 i) as (r' & Hr' & Hv); [lia|].
        exists r'. split; [exact Hr'|].
        rewrite list_lookup_insert_ne by lia. exact Hv.
Qed.

Lemma fills_loop (m n : nat) (G : nat -> nat -> Libint_t -> Libint_t)
  (body : nat -> nat * list Libint_t -> outcome (nat * list Libint_t)) :
  (forall i, i < m -> fills n (G i) (body i)) ->
  fills (m * n) (fun k => G (k `div` n) (k `mod` n)) (for_loop m body).
Proof.
  induction m as [|m IH]; intros Hbody p pd Hfit.
  - exists pd. cbn [for_loop Nat.mul]. rewrite Nat.add_0_r.
    split; [reflexivity|]. split; [reflexivity|]. split; [reflexivity|].
    intros i Hi. cbn in Hi. lia.
  - destruct (IH (fun i Hi => Hbody i (Nat.lt_lt_succ_r _ _ Hi)) p pd)
      as (pd1 & Hret1 & Hlen1 & Hout1 & Hin1); [lia|].
    destruct (Hbody m (Nat.lt_succ_diag_r m) (p + m * n) pd1)
      as (pd2 & Hret2 & Hlen2 & Hout2 & Hin2); [lia|].
    exists pd2. split.
    { cbn [for_loop]. rewrite Hret1. cbn [mbind outcome_bind]. rewrite Hret2.
      do 2 f_equal. lia. }
    split; [lia|]. split.
    + intros k Hk. rewrite Hout2 by lia. apply Hout1. lia.
    + intros i Hi. destruct (decide (i < m * n)) as [Hlt|Hge].
      * destruct (Hin1 i Hlt) as (r & Hr & Hv). exists r. split; [exact Hr|].
        rewrite Hout2 by lia. exact Hv.
      * assert (Hn : 0 < n) by nia.
        assert (Hq : i `div` n = m).
        { symmetry. apply (Nat.div_unique i n m (i - m * n)); lia. }
        assert (Hr : i `mod` n = i - m * n).
        { symmetry. apply (Nat.mod_unique i n m (i - m * n)); lia. }
        destruct (Hin2 (i - m * n)) as (r & Hr2 & Hv); [lia|].
        replace (p + m * n + (i - m * n)) with (p + i) in Hr2, Hv by lia.
        exists r. split.
        -- rewrite <- Hout1 by lia. exact Hr2.
        -- rewrite Hq, Hr. exact Hv.
Qed.

End Fills.

Section QuartetRecords.
Context {C : Libint2Config} {L : Libint2Library}.
Import TwoBodyEngine.
Local Open Scope nat_scope.

(** [assemble] returns when the records fit, and makes record [k] into
    [quartet_record k] of what it was. *)
Lemma assemble_quartets (e : t) (bra1 bra2 ket1 ket2 : Shell.t) (pd : list Libint_t) :
  nprim4 bra1 bra2 ket1 ket2 <= length pd ->
  exists pd',
    assemble e bra1 bra2 ket1 ket2 pd = Returned (nprim4 bra1 bra2 ket1 ket2, pd') /\
    length pd' = length pd /\
    (forall k, nprim4 bra1 bra2 ket1 ket2 <= k -> pd' !! k = pd !! k) /\
    (forall k, k < nprim4 bra1 bra2 ket1 ket2 ->
       exists r, pd !! k = Some r /\
         pd' !! k = Some (quartet_record e bra1 bra2 ket1 ket2 k r)).
Proof.
  intros Hfit. unfold assemble.
  match goal with |- context [for_loop ?n ?body _] =>
    assert (HF : fills (nprim4 bra1 bra2 ket1 ket2)
                   (quartet_record e bra1 bra2 ket1 ket2) (for_loop n body))
  end.
  { unfold nprim4, quartet_record.
    apply (fills_loop (Shell.nprim bra1) _
             (fun pb1 k r => compute_primdata e r bra1 bra2 ket1 ket2 pb1
                (k `div` (Shell.nprim ket1 * Shell.nprim ket2))
                ((k `mod` (Shell.nprim ket1 * Shell.nprim ket2)) `div` Shell.nprim ket2)
                ((k `mod` (Shell.nprim ket1 * Shell.nprim ket2)) `mod` Shell.nprim ket2))).
    intros pb1 _.
    apply (fills_loop (Shell.nprim bra2) _
             (fun pb2 k r => compute_primdata e r bra1 bra2 ket1 ket2 pb1 pb2
                (k `div` Shell.nprim ket2) (k `mod` Shell.nprim ket2))).
    intros pb2 _.
    apply (fills_loop (Shell.nprim ket1) _
             (fun pk1 k r => compute_primdata e r bra1 bra2 ket1 ket2 pb1 pb2 pk1 k)).
    intros pk1 _.
    apply (fills_each (Shell.nprim ket2)
             (fun pk2 r => compute_primdata e r bra1 bra2 ket1 ket2 pb1 pb2 pk1 pk2)). }
  destruct (HF 0 pd Hfit) as (pd' & Hret & Hlen & Hout & Hin).
  exists pd'. split; [exact Hret|]. split; [exact Hlen|]. split.
  - intros k Hk. apply Hout. right. exact Hk.
  - intros k Hk. apply (Hin k Hk).
Qed.

End QuartetRecords.

(** ** The records of a quartet *)

Section QuartetInputs.
Context {C : Libint2Config} {L : Libint2Library}.
Import TwoBodyEngine.
Local Open Scope nat_scope.

Lemma write_all_contrdepth (ws : list (field * R)) (r : Libint_t) :
  contrdepth (write_all ws r) = contrdepth r.
Proof. destruct (write_all_frame ws r) as (_ & _ & H & _). exact H. Qed.

Lemma write_all_stack (ws : list (field * R)) (r : Libint_t) :
  stack (write_all ws r) = stack r.
Proof. destruct (write_all_frame ws r) as (_ & _ & _ & H & _). exact H. Qed.

(** [compute_primdata] leaves the contraction depth and the stack. *)
Lemma compute_primdata_frame (e : t) (r : Libint_t) (s1 s2 s3 s4 : Shell.t)
  (p1 p2 p3 p4 : nat) :
  contrdepth (compute_primdata e r s1 s2 s3 s4 p1 p2 p3 p4) = contrdepth r /\
  stack (compute_primdata e r s1 s2 s3 s4 p1 p2 p3 p4) = stack r.
Proof.
  unfold compute_primdata, write_offsets, write_deriv_prefactors. cbv zeta.
  destruct (_ =? 0); [split; reflexivity|].
  destruct (0 <? deriv_order_ e)%N;
    rewrite ?write_all_contrdepth, ?write_all_stack; split; reflexivity.
Qed.

(** What a kernel reads of a record is what [compute_primdata] wrote: it
    does not depend on the record before, nor on more of the engine than
    its kernel and parameters. *)
Lemma compute_primdata_inputs (e e' : t) (r r' : Libint_t) (s1 s2 s3 s4 : Shell.t)
  (p1 p2 p3 p4 : nat) :
  Kernel e' = Kernel e -> core_ints_params_ e' = core_ints_params_ e ->
  deriv_order_ e = 0%N -> deriv_order_ e' = 0%N ->
  same_inputs2
    (Contraction.l (Shell.contr0 s1) + Contraction.l (Shell.contr0 s2) +
     Contraction.l (Shell.contr0 s3) + Contraction.l (Shell.contr0 s4))
    (compute_primdata e r s1 s2 s3 s4 p1 p2 p3 p4)
    (compute_primdata e' r' s1 s2 s3 s4 p1 p2 p3 p4).
Proof.
  intros HK HP Hd Hd'.
  unfold compute_primdata. rewrite Hd, Hd'. cbv zeta.
  replace (Contraction.l (Shell.contr0 s1) + Contraction.l (Shell.contr0 s3) +
           Contraction.l (Shell.contr0 s2) + Contraction.l (Shell.contr0 s4) +
           N.to_nat 0)
    with (Contraction.l (Shell.contr0 s1) + Contraction.l (Shell.contr0 s2) +
          Contraction.l (Shell.contr0 s3) + Contraction.l (Shell.contr0 s4))
    by (cbn; lia).
  set (mmax := Contraction.l (Shell.contr0 s1) + Contraction.l (Shell.contr0 s2) +
               Contraction.l (Shell.contr0 s3) + Contraction.l (Shell.contr0 s4)).
  assert (Hcore : forall T rho, core_eval e' mmax T rho = core_eval e mmax T rho).
  { intros T rho. unfold core_eval. rewrite HK, HP. reflexivity. }
  rewrite Hcore. cbn [N.ltb N.compare].
  set (v := locals _ _ _ _ _ _ _ _).
  destruct (mmax =? 0) eqn:Hm.
  - apply Nat.eqb_eq in Hm. split.
    + intros m Hle. cbn [LIBINT_T_SS_EREP_SS set_erep]. unfold eval_and_scale.
      replace (m <=? mmax) with true by (symmetry; apply Nat.leb_le; exact Hle).
      reflexivity.
    + intros Hne. contradiction.
  - split.
    + intros m Hle. unfold write_offsets. cbv zeta.
      match goal with |- LIBINT_T_SS_EREP_SS (write_all ?ws ?a) m =
                         LIBINT_T_SS_EREP_SS (write_all ?ws ?b) m =>
        destruct (write_all_frame ws a) as (_ & -> & _);
        destruct (write_all_frame ws b) as (_ & -> & _)
      end.
      cbn [LIBINT_T_SS_EREP_SS set_erep]. unfold eval_and_scale.
      replace (m <=? mmax) with true by (symmetry; apply Nat.leb_le; exact Hle).
      reflexivity.
    + intros _ f Hf Hdef. unfold write_offsets. cbv zeta.
      apply scalar_write_all_agree. right. split; [exact Hf | exact Hdef].
Qed.

Lemma quartet_record_frame (e : t) (s1 s2 s3 s4 : Shell.t) (k : nat) (r : Libint_t) :
  contrdepth (quartet_record e s1 s2 s3 s4 k r) = contrdepth r /\
  stack (quartet_record e s1 s2 s3 s4 k r) = stack r.
Proof. apply compute_primdata_frame. Qed.

Lemma quartet_record_inputs (e e' : t) (r r' : Libint_t) (s1 s2 s3 s4 : Shell.t)
  (k : nat) :
  Kernel e' = Kernel e -> core_ints_params_ e' = core_ints_params_ e ->
  deriv_order_ e = 0%N -> deriv_order_ e' = 0%N ->
  same_inputs2
    (Contraction.l (Shell.contr0 s1) + Contraction.l (Shell.contr0 s2) +
     Contraction.l (Shell.contr0 s3) + Contraction.l (Shell.contr0 s4))
    (quartet_record e s1 s2 s3 s4 k r) (quartet_record e' s1 s2 s3 s4 k r').
Proof. intros. apply compute_primdata_inputs; assumption. Qed.

End QuartetInputs.

(** ** The solid-harmonics passes of the two-body engine *)

Section SolidSteps.
Context {C : Libint2Config} {L : Libint2Library}.
Import TwoBodyEngine.
Local Open Scope nat_scope.

Lemma prod4_le (a b c d a' b' c' d' : nat) :
  a <= a' -> b <= b' -> c <= c' -> d <= d' -> a * b * c * d <= a' * b' * c' * d'.
Proof. intros. repeat apply Nat.mul_le_mono; assumption. Qed.

Lemma length_overwrite (src tgt : list R) :
  length src <= length tgt -> length (overwrite src tgt) = length tgt.
Proof.
  intros H. unfold overwrite. rewrite length_app, length_drop. lia.
Qed.

Lemma solid_step_holds (la lb : nat) (pure : bool) (f : list R -> list R)
  (nin nout n n' : nat) (c : list R) (bufs : list R * list R * bool) :
  (forall a b, take nin a = take nin b -> f a = f b) ->
  (forall a, length (f a) = nout) ->
  n = nin -> n' = (if pure then nout else nin) ->
  n' <= la -> n' <= lb ->
  buffers_hold la lb n c bufs ->
  buffers_hold la lb n' (if pure then f c else c) (solid_step pure f bufs).
Proof.
  intros Hreads Hsized -> -> Hla Hlb (Hfront & Hn & Hmain & Hscr).
  unfold solid_step. destruct pure; [|repeat split; assumption].
  destruct bufs as [[mainbuf scratchbuf] fl]. unfold buffers_hold.
  cbn [fst snd] in *.
  assert (Hroom : length (f mainbuf) <= length scratchbuf).
  { rewrite Hsized, Hscr. destruct fl; assumption. }
  split; [|split; [|split]].
  - unfold overwrite. rewrite take_app_le by (rewrite Hsized; lia).
    rewrite (Hreads mainbuf c Hfront). reflexivity.
  - rewrite Hsized. lia.
  - rewrite length_overwrite by exact Hroom. rewrite Hscr. destruct fl; reflexivity.
  - rewrite Hmain. destruct fl; reflexivity.
Qed.

Lemma size_le_cartesian (s : Shell.t) :
  Shell.ncontr s = 1 -> Shell.size s <= Shell.cartesian_size s.
Proof.
  intros Hn. rewrite (size_single s Hn).
  destruct (Contraction.pure (Shell.contr0 s)); [|lia].
  rewrite (cartesian_size_single s Hn). apply ncart_ge.
Qed.

(** The four passes keep the two buffers in step with [to_solid4]. *)
Lemma solid_steps_hold (la lb : nat) (bra1 bra2 ket1 ket2 : Shell.t)
  (c : list R) (bufs : list R * list R * bool) :
  transform4_contract ->
  Shell.ncontr bra1 = 1 -> Shell.ncontr bra2 = 1 ->
  Shell.ncontr ket1 = 1 -> Shell.ncontr ket2 = 1 ->
  Shell.cartesian_size bra1 * Shell.cartesian_size bra2 *
    Shell.cartesian_size ket1 * Shell.cartesian_size ket2 <= la ->
  Shell.cartesian_size bra1 * Shell.cartesian_size bra2 *
    Shell.cartesian_size ket1 * Shell.cartesian_size ket2 <= lb ->
  buffers_hold la lb
    (Shell.cartesian_size bra1 * Shell.cartesian_size bra2 *
     Shell.cartesian_size ket1 * Shell.cartesian_size ket2) c bufs ->
  buffers_hold la lb
    (Shell.size bra1 * Shell.size bra2 * Shell.size ket1 * Shell.size ket2)
    (to_solid4 bra1 bra2 ket1 ket2 c) (solid_steps bra1 bra2 ket1 ket2 bufs).
Proof.
  intros [R1 R2 R3 S1 S2 S3] Hn1 Hn2 Hn3 Hn4 Hla Hlb H0.
  pose proof (size_le_cartesian bra1 Hn1) as Hs1.
  pose proof (size_le_cartesian bra2 Hn2) as Hs2.
  pose proof (size_le_cartesian ket1 Hn3) as Hs3.
  pose proof (size_le_cartesian ket2 Hn4) as Hs4.
  pose proof (size_single bra1 Hn1) as He1.
  pose proof (size_single bra2 Hn2) as He2.
  pose proof (size_single ket1 Hn3) as He3.
  pose proof (size_single ket2 Hn4) as He4.
  pose proof (cartesian_size_single bra1 Hn1) as Hc1.
  pose proof (cartesian_size_single bra2 Hn2) as Hc2.
  pose proof (cartesian_size_single ket1 Hn3) as Hc3.
  pose proof (cartesian_size_single ket2 Hn4) as Hc4.
  unfold solid_steps, to_solid4. cbv zeta.
  set (c1 := Shell.cartesian_size bra1) in *. set (c2 := Shell.cartesian_size bra2) in *.
  set (c3 := Shell.cartesian_size ket1) in *. set (c4 := Shell.cartesian_size ket2) in *.
  set (s1 := Shell.size bra1) in *. set (s2 := Shell.size bra2) in *.
  set (s3 := Shell.size ket1) in *. set (s4 := Shell.size ket2) in *.
  assert (H1 := solid_step_holds la lb (Contraction.pure (Shell.contr0 bra1))
    (transform_first (Contraction.l (Shell.contr0 bra1)) (c2 * (c3 * c4)))
    (ncart (Contraction.l (Shell.contr0 bra1)) * (c2 * (c3 * c4)))
    ((2 * Contraction.l (Shell.contr0 bra1) + 1) * (c2 * (c3 * c4)))
    (c1 * c2 * c3 * c4) (s1 * c2 * c3 * c4) c bufs
    (R1 _ _) (S1 _ _)).
  specialize (H1 ltac:(rewrite <- Hc1; lia)
                 ltac:(rewrite <- Hc1, He1;
                       destruct (Contraction.pure (Shell.contr0 bra1)); lia)).
  specialize (H1 ltac:(etrans; [|exact Hla]; apply prod4_le; lia)
                 ltac:(etrans; [|exact Hlb]; apply prod4_le; lia) H0).
  epose proof (solid_step_holds la lb (Contraction.pure (Shell.contr0 bra2))
    (transform_inner s1 (Contraction.l (Shell.contr0 bra2)) (c3 * c4))
    (s1 * ncart (Contraction.l (Shell.contr0 bra2)) * (c3 * c4))
    (s1 * (2 * Contraction.l (Shell.contr0 bra2) + 1) * (c3 * c4))
    (s1 * c2 * c3 * c4) (s1 * s2 * c3 * c4) _ _
    (R2 _ _ _) (S2 _ _ _)) as H2.
  specialize (H2 ltac:(rewrite <- Hc2; lia)
                 ltac:(rewrite <- Hc2, He2;
                       destruct (Contraction.pure (Shell.contr0 bra2)); lia)).
  specialize (H2 ltac:(etrans; [|exact Hla]; apply prod4_le; lia)
                 ltac:(etrans; [|exact Hlb]; apply prod4_le; lia) H1).
  epose proof (solid_step_holds la lb (Contraction.pure (Shell.contr0 ket1))
    (transform_inner (s1 * s2) (Contraction.l (Shell.contr0 ket1)) c4)
    (s1 * s2 * ncart (Contraction.l (Shell.contr0 ket1)) * c4)
    (s1 * s2 * (2 * Contraction.l (Shell.contr0 ket1) + 1) * c4)
    (s1 * s2 * c3 * c4) (s1 * s2 * s3 * c4) _ _
    (R2 _ _ _) (S2 _ _ _)) as H3.
  specialize (H3 ltac:(rewrite <- Hc3; lia)
                 ltac:(rewrite <- Hc3, He3;
                       destruct (Contraction.pure (Shell.contr0 ket1)); lia)).
  specialize (H3 ltac:(etrans; [|exact Hla]; apply prod4_le; lia)
                 ltac:(etrans; [|exact Hlb]; apply prod4_le; lia) H2).
  epose proof (solid_step_holds la lb (Contraction.pure (Shell.contr0 ket2))
    (transform_last (s1 * s2 * s3) (Contraction.l (Shell.contr0 ket2)))
    (s1 * s2 * s3 * ncart (Contraction.l (Shell.contr0 ket2)))
    (s1 * s2 * s3 * (2 * Contraction.l (Shell.contr0 ket2) + 1))
    (s1 * s2 * s3 * c4) (s1 * s2 * s3 * s4) _ _
    (R3 _ _) (S3 _ _)) as H4.
  specialize (H4 ltac:(rewrite <- Hc4; lia)
                 ltac:(rewrite <- Hc4, He4;
                       destruct (Contraction.pure (Shell.contr0 ket2)); lia)).
  specialize (H4 ltac:(etrans; [|exact Hla]; apply prod4_le; lia)
                 ltac:(etrans; [|exact Hlb]; apply prod4_le; lia) H3).
  exact H4.
Qed.

End SolidSteps.

(** ** The two-body result in the caller's order *)

Section Restore.
Context {C : Libint2Config} {L : Libint2Library}.
Import TwoBodyEngine.
Local Open Scope nat_scope.

(** The block [restore] returns: the entry ([i1], [i2], [i3], [i4]) in the
    caller's extents is the entry of the transformed block at the canonical
    indices; the scratch buffer keeps its length. *)
Lemma restore_returns (swap_braket swap_bra swap_ket : bool)
  (bra1 bra2 ket1 ket2 t1 t2 t3 t4 : Shell.t)
  (result : list R) (pd : list Libint_t) (e : t) (r0 : Libint_t) :
  transform4_contract ->
  canonical_order swap_braket swap_bra swap_ket t1 t2 t3 t4 = (bra1, bra2, ket1, ket2) ->
  Shell.ncontr t1 = 1 -> Shell.ncontr t2 = 1 ->
  Shell.ncontr t3 = 1 -> Shell.ncontr t4 = 1 ->
  Shell.cartesian_size t1 * Shell.cartesian_size t2 *
    Shell.cartesian_size t3 * Shell.cartesian_size t4 <= length result ->
  Shell.cartesian_size t1 * Shell.cartesian_size t2 *
    Shell.cartesian_size t3 * Shell.cartesian_size t4 <= length (scratch_ e) ->
  pd !! 0 = Some r0 ->
  exists tgt in_targets0 in_scratch,
    restore swap_braket swap_bra swap_ket bra1 bra2 ket1 ket2 t1 t2 t3 t4 result pd e =
      Returned (tgt, with_scratch in_scratch
                       (with_primdata (<[0 := set_targets0 in_targets0 r0]> pd) e)) /\
    length in_scratch = length (scratch_ e) /\
    forall i1 i2 i3 i4,
      i1 < Shell.size t1 -> i2 < Shell.size t2 ->
      i3 < Shell.size t3 -> i4 < Shell.size t4 ->
      exists v,
        tgt !! row_major4 (Shell.size t2) (Shell.size t3) (Shell.size t4) i1 i2 i3 i4
          = Some v /\
        let '(j1, j2, j3, j4) :=
          canonical_order swap_braket swap_bra swap_ket i1 i2 i3 i4 in
        to_solid4 bra1 bra2 ket1 ket2 result
          !! row_major4 (Shell.size bra2) (Shell.size ket1) (Shell.size ket2) j1 j2 j3 j4
          = Some v.
Proof.
  intros HT Hcanon Hn1 Hn2 Hn3 Hn4 Hres Hscr Hr0.
  pose proof (size_le_cartesian t1 Hn1) as Hs1.
  pose proof (size_le_cartesian t2 Hn2) as Hs2.
  pose proof (size_le_cartesian t3 Hn3) as Hs3.
  pose proof (size_le_cartesian t4 Hn4) as Hs4.
  assert (Hsize : Shell.size t1 * Shell.size t2 * Shell.size t3 * Shell.size t4 <=
                  Shell.cartesian_size t1 * Shell.cartesian_size t2 *
                  Shell.cartesian_size t3 * Shell.cartesian_size t4)
    by (apply prod4_le; assumption).
  unfold restore.
  set (bufs := solid_steps bra1 bra2 ket1 ket2 (result, scratch_ e, false)).
  assert (Hcan :
    (Shell.ncontr bra1 = 1 /\ Shell.ncontr bra2 = 1 /\
     Shell.ncontr ket1 = 1 /\ Shell.ncontr ket2 = 1) /\
    Shell.cartesian_size bra1 * Shell.cartesian_size bra2 *
      Shell.cartesian_size ket1 * Shell.cartesian_size ket2 =
    Shell.cartesian_size t1 * Shell.cartesian_size t2 *
      Shell.cartesian_size t3 * Shell.cartesian_size t4 /\
    Shell.size bra1 * Shell.size bra2 * Shell.size ket1 * Shell.size ket2 =
    Shell.size t1 * Shell.size t2 * Shell.size t3 * Shell.size t4).
  { clear bufs. destruct swap_braket, swap_bra, swap_ket; cbn [canonical_order] in Hcanon;
      injection Hcanon as <- <- <- <-; (split; [repeat split; assumption|]); split; lia. }
  destruct Hcan as ((Hb1 & Hb2 & Hb3 & Hb4) & Hcc & Hcs).
  assert (Hhold : buffers_hold (length result) (length (scratch_ e))
            (Shell.size t1 * Shell.size t2 * Shell.size t3 * Shell.size t4)
            (to_solid4 bra1 bra2 ket1 ket2 result) bufs).
  { rewrite <- Hcs.
    apply (solid_steps_hold (length result) (length (scratch_ e))); try assumption.
    - rewrite Hcc. exact Hres.
    - rewrite Hcc. exact Hscr.
    - split; [reflexivity|]. split; [rewrite Hcc; exact Hres|]. split; reflexivity. }
  destruct Hhold as (Hfront & Hlen & Hmain & Hscratch).
  set (N := Shell.size t1 * Shell.size t2 * Shell.size t3 * Shell.size t4) in *.
  assert (HNmain : N <= length bufs.1.1) by (rewrite Hmain; destruct bufs.2; lia).
  assert (HNscr : N <= length bufs.1.2) by (rewrite Hscratch; destruct bufs.2; lia).
  pose proof (unpermute_returns swap_braket swap_bra swap_ket
                (Shell.size t1) (Shell.size t2) (Shell.size t3) (Shell.size t4)
                bufs.1.1 bufs.1.2) as HU.
  assert (Hsizes :
    canonical_order swap_braket swap_bra swap_ket
      (Shell.size t1) (Shell.size t2) (Shell.size t3) (Shell.size t4) =
    (Shell.size bra1, Shell.size bra2, Shell.size ket1, Shell.size ket2)).
  { destruct swap_braket, swap_bra, swap_ket; cbn [canonical_order] in *;
      injection Hcanon as <- <- <- <-; reflexivity. }
  rewrite Hsizes in HU.
  destruct (HU HNmain HNscr) as (tgt & Hret & Hlt & Hentries & _).
  rewrite Hret. cbn [mbind outcome_bind].
  exists tgt, (if bufs.2 then tgt else bufs.1.1), (if bufs.2 then bufs.1.1 else tgt).
  split; [|split].
  - destruct bufs.2; cbv beta iota;
      match goal with |- context [update_at pd 0 ?f] =>
        rewrite (update_at_Returned pd 0 f r0 _ Hr0 eq_refl)
      end; reflexivity.
  - destruct bufs.2; lia.
  - intros i1 i2 i3 i4 Hi1 Hi2 Hi3 Hi4.
    specialize (Hentries i1 i2 i3 i4 Hi1 Hi2 Hi3 Hi4).
    rewrite <- Hcs in Hfront.
    destruct swap_braket, swap_bra, swap_ket; cbn [canonical_order] in Hsizes, Hentries |- *;
      injection Hsizes as E1 E2 E3 E4;
      match type of Hentries with
      | _ = _ !! row_major4 ?m2 ?m3 ?m4 ?a ?b ?c ?d =>
          assert (Hidx : row_major4 m2 m3 m4 a b c d <
                         Shell.size bra1 * m2 * m3 * m4)
            by (apply row_major4_lt; lia);
          rewrite (take_same_lookup _ _ _ _ Hfront Hidx) in Hentries;
          destruct (lookup_lt_is_Some_2 (to_solid4 bra1 bra2 ket1 ket2 result)
                      (row_major4 m2 m3 m4 a b c d)) as [v Hv]; [lia|];
          exists v; split; [rewrite Hentries; exact Hv | exact Hv]
      end.
Qed.

End Restore.

(** ** The record array of a two-body call *)

Section Prepare.
Context {C : Libint2Config} {L : Libint2Library}.
Import TwoBodyEngine.
Local Open Scope nat_scope.

Lemma clear_stack_returns (lmax : nat) (pd : list Libint_t) :
  ready pd ->
  exists pd0 r0,
    clear_stack lmax pd = Returned pd0 /\ length pd0 = length pd /\
    pd0 !! 0 = Some r0 /\ 0 < length (stack r0) /\
    (lmax = 0 -> stack r0 !! 0 = Some 0%R).
Proof.
  intros (r & Hr & Hst). unfold clear_stack.
  destruct (lmax =? 0) eqn:Hl.
  - destruct (lookup_lt_is_Some_2 (stack r) 0 Hst) as [old Hold].
    exists (<[0 := set_stack (<[0 := 0%R]> (stack r)) r]> pd),
      (set_stack (<[0 := 0%R]> (stack r)) r).
    split.
    { eapply update_at_Returned; [exact Hr|].
      match goal with |- context [update_at (stack r) 0 ?f] =>
        rewrite (update_at_Returned (stack r) 0 f old 0%R Hold eq_refl)
      end. reflexivity. }
    assert (Hpd : 0 < length pd) by (apply lookup_lt_is_Some_1; eexists; exact Hr).
    split; [apply length_insert|]. split; [apply list_lookup_insert_eq; exact Hpd|].
    cbn [stack set_stack]. split; [rewrite length_insert; exact Hst|].
    intros _. apply list_lookup_insert_eq. exact Hst.
  - exists pd, r. split; [reflexivity|]. split; [reflexivity|]. split; [exact Hr|].
    split; [exact Hst|]. intros ->. discriminate Hl.
Qed.

(** The three steps before the kernel: the stack cleared for (ss|ss), the
    records assembled, the contraction depth set. *)
Lemma records_prepared (e : t) (bra1 bra2 ket1 ket2 : Shell.t) (lmax : nat)
  (pd : list Libint_t) :
  ready pd -> nprim4 bra1 bra2 ket1 ket2 <= length pd -> deriv_order_ e = 0%N ->
  exists pd0 pd1 pd2 r0,
    clear_stack lmax pd = Returned pd0 /\
    assemble e bra1 bra2 ket1 ket2 pd0 =
      Returned (nprim4 bra1 bra2 ket1 ket2, pd1) /\
    update_at pd1 0 (fun r => mret (set_contrdepth (nprim4 bra1 bra2 ket1 ket2) r)) =
      Returned pd2 /\
    length pd2 = length pd /\ pd2 !! 0 = Some r0 /\
    contrdepth r0 = nprim4 bra1 bra2 ket1 ket2 /\
    0 < length (stack r0) /\ (lmax = 0 -> stack r0 !! 0 = Some 0%R) /\
    (forall k, k < nprim4 bra1 bra2 ket1 ket2 ->
       exists r, pd2 !! k = Some r /\
         same_inputs2
           (Contraction.l (Shell.contr0 bra1) + Contraction.l (Shell.contr0 bra2) +
            Contraction.l (Shell.contr0 ket1) + Contraction.l (Shell.contr0 ket2))
           r (quartet_record e bra1 bra2 ket1 ket2 k Libint_t_zero)).
Proof.
  intros Hready Hfit Hd.
  destruct (clear_stack_returns lmax pd Hready) as (pd0 & r00 & Hc & Hl0 & Hr00 & Hst & Hz).
  destruct (assemble_quartets e bra1 bra2 ket1 ket2 pd0) as (pd1 & Ha & Hl1 & Hout & Hin);
    [lia|].
  set (n := nprim4 bra1 bra2 ket1 ket2) in *.
  assert (Hfirst : exists r1, pd1 !! 0 = Some r1 /\ stack r1 = stack r00).
  { destruct (decide (0 < n)) as [Hpos|Hzero].
    - destruct (Hin 0 Hpos) as (r & Hr & Hv). rewrite Hr00 in Hr. injection Hr as <-.
      eexists. split; [exact Hv|]. apply quartet_record_frame.
    - exists r00. split; [|reflexivity]. rewrite Hout by lia. exact Hr00. }
  destruct Hfirst as (r1 & Hr1 & Hs1).
  exists pd0, pd1, (<[0 := set_contrdepth n r1]> pd1), (set_contrdepth n r1).
  assert (Hpos1 : 0 < length pd1) by (apply lookup_lt_is_Some_1; eexists; exact Hr1).
  split; [exact Hc|]. split; [exact Ha|].
  split; [eapply update_at_Returned; [exact Hr1 | reflexivity]|].
  split; [rewrite length_insert; lia|].
  split; [apply list_lookup_insert_eq; exact Hpos1|].
  split; [reflexivity|]. cbn [stack set_contrdepth]. rewrite Hs1.
  split; [exact Hst|]. split; [exact Hz|].
  intros k Hk. destruct (Hin k Hk) as (r & Hr & Hv).
  destruct (decide (k = 0)) as [->|Hne].
  - rewrite Hr1 in Hv. injection Hv as ->.
    eexists. split; [apply list_lookup_insert_eq; exact Hpos1|].
    apply (quartet_record_inputs e e r Libint_t_zero bra1 bra2 ket1 ket2 0
             eq_refl eq_refl Hd Hd).
  - exists (quartet_record e bra1 bra2 ket1 ket2 k r).
    split; [rewrite list_lookup_insert_ne by lia; exact Hv|].
    apply (quartet_record_inputs e e r Libint_t_zero bra1 bra2 ket1 ket2 k
             eq_refl eq_refl Hd Hd).
Qed.

(** The prepared array carries the input of the reference records. *)
Lemma prepared_same_arrays (e : t) (bra1 bra2 ket1 ket2 : Shell.t)
  (pd2 : list Libint_t) (r0 : Libint_t) :
  pd2 !! 0 = Some r0 -> contrdepth r0 = nprim4 bra1 bra2 ket1 ket2 ->
  (forall k, k < nprim4 bra1 bra2 ket1 ket2 ->
     exists r, pd2 !! k = Some r /\
       same_inputs2
         (Contraction.l (Shell.contr0 bra1) + Contraction.l (Shell.contr0 bra2) +
          Contraction.l (Shell.contr0 ket1) + Contraction.l (Shell.contr0 ket2))
         r (quartet_record e bra1 bra2 ket1 ket2 k Libint_t_zero)) ->
  same_arrays2
    (Contraction.l (Shell.contr0 bra1) + Contraction.l (Shell.contr0 bra2) +
     Contraction.l (Shell.contr0 ket1) + Contraction.l (Shell.contr0 ket2))
    pd2 (reference_records2 e bra1 bra2 ket1 ket2).
Proof.
  intros Hr0 Hdepth Hin. unfold same_arrays2, reference_records2.
  set (n := nprim4 bra1 bra2 ket1 ket2) in *.
  set (recs := map (fun k => quartet_record e bra1 bra2 ket1 ket2 k Libint_t_zero)
                 (seq 0 (S n))).
  assert (Hlen : length recs = S n) by (unfold recs; rewrite length_map, length_seq; lia).
  exists r0, (set_contrdepth n (quartet_record e bra1 bra2 ket1 ket2 0 Libint_t_zero)).
  split; [exact Hr0|]. split; [apply list_lookup_insert_eq; lia|].
  split; [exact Hdepth|]. rewrite Hdepth. intros p Hp.
  destruct (Hin p Hp) as (r & Hr & Hsame).
  destruct (decide (p = 0)) as [->|Hne].
  - exists r, (set_contrdepth n (quartet_record e bra1 bra2 ket1 ket2 0 Libint_t_zero)).
    split; [exact Hr|]. split; [apply list_lookup_insert_eq; lia|]. exact Hsame.
  - exists r, (quartet_record e bra1 bra2 ket1 ket2 p Libint_t_zero).
    split; [exact Hr|]. split; [|exact Hsame].
    rewrite list_lookup_insert_ne by lia. unfold recs.
    rewrite list_lookup_fmap, lookup_seq_lt by lia. reflexivity.
Qed.

(** The (ss|ss) sum: the first word of the stack becomes the sum of the
    order-0 values of the records below the contraction depth. *)
Lemma accumulate_ssss_returns (pd : list Libint_t) (r0 : Libint_t) (f : nat -> R) :
  pd !! 0 = Some r0 -> stack r0 !! 0 = Some 0%R ->
  (forall k, k < contrdepth r0 ->
     exists r, pd !! k = Some r /\ LIBINT_T_SS_EREP_SS r 0 = f k) ->
  accumulate_ssss pd =
    Returned (<[0 := set_stack (<[0 := Rsum (contrdepth r0) f]> (stack r0)) r0]> pd).
Proof.
  intros Hr0 Hst Hin. unfold accumulate_ssss.
  rewrite (at_index_Returned _ _ _ Hr0). cbn [mbind outcome_bind].
  rewrite (at_index_Returned _ _ _ Hst). cbn [mbind outcome_bind].
  rewrite (running_sum (contrdepth r0) _ f 0%R).
  - cbn [mbind outcome_bind]. rewrite Rplus_0_l.
    eapply update_at_Returned; [exact Hr0 | reflexivity].
  - intros p acc Hp. destruct (Hin p Hp) as (r & Hr & Hv).
    rewrite (at_index_Returned _ _ _ Hr). cbn. rewrite Hv. reflexivity.
Qed.

End Prepare.

(** ** The two-body [compute] *)

Section TwoBodyCompute.
Context {C : Libint2Config} {L : Libint2Library}.
Import TwoBodyEngine.
Local Open Scope nat_scope.

Lemma compute4_returns (e : t) (t1 t2 t3 t4 : Shell.t)
  (swap_braket swap_bra swap_ket : bool) (bra1 bra2 ket1 ket2 : Shell.t) :
  eri_contract -> transform4_contract ->
  admissible4 e t1 t2 t3 t4 ->
  swaps_of t1 t2 t3 t4 = (swap_braket, swap_bra, swap_ket) ->
  canonical_order swap_braket swap_bra swap_ket t1 t2 t3 t4 = (bra1, bra2, ket1, ket2) ->
  exists buf e',
    compute e t1 t2 t3 t4 = Returned (buf, e') /\
    same_setup2 e e' /\
    forall i1 i2 i3 i4,
      i1 < Shell.size t1 -> i2 < Shell.size t2 ->
      i3 < Shell.size t3 -> i4 < Shell.size t4 ->
      exists v,
        buf !! row_major4 (Shell.size t2) (Shell.size t3) (Shell.size t4) i1 i2 i3 i4
          = Some v /\
        let '(j1, j2, j3, j4) :=
          canonical_order swap_braket swap_bra swap_ket i1 i2 i3 i4 in
        canonical_block e bra1 bra2 ket1 ket2
          !! row_major4 (Shell.size bra2) (Shell.size ket1) (Shell.size ket2) j1 j2 j3 j4
          = Some v.
Proof.
  intros HE HT [Hn1 Hn2 Hn3 Hn4 Hd Hcap Hlmax Hready Hscr] Hsw Hcanon.
  assert (Hcan :
    nprim4 bra1 bra2 ket1 ket2 <= length (primdata_ e) /\
    lmax4 bra1 bra2 ket1 ket2 = lmax4 t1 t2 t3 t4 /\
    ncart (Contraction.l (Shell.contr0 bra1)) * ncart (Contraction.l (Shell.contr0 bra2)) *
      ncart (Contraction.l (Shell.contr0 ket1)) * ncart (Contraction.l (Shell.contr0 ket2)) =
    Shell.cartesian_size t1 * Shell.cartesian_size t2 *
      Shell.cartesian_size t3 * Shell.cartesian_size t4).
  { rewrite (cartesian_size_single t1 Hn1), (cartesian_size_single t2 Hn2),
      (cartesian_size_single t3 Hn3), (cartesian_size_single t4 Hn4).
    unfold nprim4, lmax4.
    destruct swap_braket, swap_bra, swap_ket; cbn [canonical_order] in Hcanon;
      injection Hcanon as <- <- <- <-; (split; [|split]); lia. }
  destruct Hcan as (Hfit & Hlm & Hcart).
  destruct (records_prepared e bra1 bra2 ket1 ket2 (lmax4 bra1 bra2 ket1 ket2)
              (primdata_ e) Hready Hfit Hd)
    as (pd0 & pd1 & pd2 & r0 & Hc & Ha & Hu & Hl2 & Hr0 & Hdepth & Hst & Hz & Hin).
  unfold compute. rewrite Hn1, Hn2, Hn3, Hn4, Hd.
  cbn [Nat.eqb andb N.eqb Pos.eqb assert mbind outcome_bind].
  unfold swaps_of in Hsw. cbv zeta in Hsw. injection Hsw as E1 E2 E3.
  cbv zeta. rewrite E1, E2, E3, Hcanon. cbv beta iota.
  change ((Contraction.l (Shell.contr0 bra1) `max` Contraction.l (Shell.contr0 bra2))
          `max` (Contraction.l (Shell.contr0 ket1) `max` Contraction.l (Shell.contr0 ket2)))
    with (lmax4 bra1 bra2 ket1 ket2).
  replace (Z.of_nat (lmax4 bra1 bra2 ket1 ket2) <=? lmax_ e)%Z with true
    by (symmetry; apply Z.leb_le; rewrite Hlm; exact Hlmax).
  cbn [assert mbind outcome_bind].
  rewrite Hc. cbn [mbind outcome_bind]. rewrite Ha. cbn [mbind outcome_bind].
  rewrite Hu. cbn [mbind outcome_bind].
  assert (Hpos2 : 0 < length pd2) by (apply lookup_lt_is_Some_1; eexists; exact Hr0).
  set (mmax := Contraction.l (Shell.contr0 bra1) + Contraction.l (Shell.contr0 bra2) +
               Contraction.l (Shell.contr0 ket1) + Contraction.l (Shell.contr0 ket2)) in *.
  destruct (lmax4 bra1 bra2 ket1 ket2 =? 0) eqn:Hl0.
  - (* (ss|ss) *)
    apply Nat.eqb_eq in Hl0.
    rewrite (accumulate_ssss_returns pd2 r0
               (fun k => LIBINT_T_SS_EREP_SS
                           (quartet_record e bra1 bra2 ket1 ket2 k Libint_t_zero) 0)
               Hr0 (Hz Hl0)).
    2:{ rewrite Hdepth. intros k Hk. destruct (Hin k Hk) as (r & Hr & Hsame & _).
        exists r. split; [exact Hr|]. apply Hsame. lia. }
    cbn [mbind outcome_bind].
    match goal with |- context [update_at (<[0 := ?X]> pd2) 0 ?f] =>
      rewrite (update_at_Returned (<[0 := X]> pd2) 0 f X (set_targets0 (stack X) X));
        [| apply list_lookup_insert_eq; exact Hpos2 | reflexivity]
    end.
    cbn [mbind outcome_bind]. rewrite list_insert_insert_eq.
    rewrite (at_index_Returned _ 0 _ (list_lookup_insert_eq _ _ _ Hpos2)).
    cbn [mbind outcome_bind mret outcome_ret targets0 set_targets0 stack set_stack].
    eexists _, _. split; [reflexivity|]. split.
    + unfold same_setup2. cbn [Kernel lmax_ deriv_order_ core_ints_params_ primdata_
        scratch_ with_primdata].
      repeat split; try reflexivity.
      * rewrite length_insert. exact Hl2.
      * intros _. eexists. split; [apply list_lookup_insert_eq; exact Hpos2|].
        cbn [stack set_stack set_targets0]. rewrite length_insert. exact Hst.
    + intros i1 i2 i3 i4 Hi1 Hi2 Hi3 Hi4.
      assert (Hone : forall s, Shell.ncontr s = 1 ->
                Contraction.l (Shell.contr0 s) = 0 -> Shell.size s = 1).
      { intros s Hn Hl. rewrite (size_single s Hn), (cartesian_size_single s Hn), Hl.
        destruct (Contraction.pure (Shell.contr0 s)); reflexivity. }
      rewrite Hlm in Hl0. unfold lmax4 in Hl0.
      rewrite (Hone t1 Hn1) in Hi1 by lia. rewrite (Hone t2 Hn2) in Hi2 by lia.
      rewrite (Hone t3 Hn3) in Hi3 by lia. rewrite (Hone t4 Hn4) in Hi4 by lia.
      assert (i1 = 0) as -> by lia. assert (i2 = 0) as -> by lia.
      assert (i3 = 0) as -> by lia. assert (i4 = 0) as -> by lia.
      exists (Rsum (contrdepth r0)
                (fun k => LIBINT_T_SS_EREP_SS
                            (quartet_record e bra1 bra2 ket1 ket2 k Libint_t_zero) 0)).
      split.
      * unfold row_major4. cbn [Nat.mul Nat.add].
        apply list_lookup_insert_eq. exact Hst.
      * unfold canonical_block.
        replace (lmax4 bra1 bra2 ket1 ket2 =? 0) with true
          by (symmetry; apply Nat.eqb_eq; rewrite Hlm; unfold lmax4; lia).
        rewrite Hdepth.
        destruct swap_braket, swap_bra, swap_ket; reflexivity.
  - (* the kernel *)
    apply Nat.eqb_neq in Hl0.
    rewrite (eri_reads_assembled HE _ _ _ _ pd2 (reference_records2 e bra1 bra2 ket1 ket2)
               (prepared_same_arrays e bra1 bra2 ket1 ket2 pd2 r0 Hr0 Hdepth Hin)).
    set (result := libint2_build_eri _ _ _ _ (reference_records2 e bra1 bra2 ket1 ket2)).
    assert (Hres : Shell.cartesian_size t1 * Shell.cartesian_size t2 *
                   Shell.cartesian_size t3 * Shell.cartesian_size t4 <= length result).
    { rewrite <- Hcart. apply (eri_sized HE). }
    match goal with |- context [if ?b then restore _ _ _ _ _ _ _ _ _ _ _ _ _ _ else _] =>
      destruct b eqn:Huse
    end.
    + destruct (restore_returns swap_braket swap_bra swap_ket bra1 bra2 ket1 ket2
                  t1 t2 t3 t4 result pd2 e r0 HT Hcanon Hn1 Hn2 Hn3 Hn4 Hres Hscr Hr0)
        as (tgt & in_t & in_s & Hret & Hlen & Hent).
      rewrite Hret. eexists _, _. split; [reflexivity|]. split.
      * unfold same_setup2. cbn [Kernel lmax_ deriv_order_ core_ints_params_ primdata_
          scratch_ with_primdata with_scratch].
        repeat split; try reflexivity.
        -- rewrite length_insert. exact Hl2.
        -- exact Hlen.
        -- intros _. eexists. split; [apply list_lookup_insert_eq; exact Hpos2|].
           exact Hst.
      * intros i1 i2 i3 i4 Hi1 Hi2 Hi3 Hi4.
        destruct (Hent i1 i2 i3 i4 Hi1 Hi2 Hi3 Hi4) as (v & Hv & Hsrc).
        exists v. split; [exact Hv|].
        unfold canonical_block.
        replace (lmax4 bra1 bra2 ket1 ket2 =? 0) with false
          by (symmetry; apply Nat.eqb_neq; exact Hl0).
        exact Hsrc.
    + apply orb_false_elim in Huse. destruct Huse as [Huse Hp].
      apply orb_false_elim in Huse. destruct Huse as [Huse Hsk].
      apply orb_false_elim in Huse. destruct Huse as [Hsbk Hsb].
      apply orb_false_elim in Hp. destruct Hp as [Hp Hp4].
      apply orb_false_elim in Hp. destruct Hp as [Hp Hp3].
      apply orb_false_elim in Hp. destruct Hp as [Hp1 Hp2].
      clear E1 E2 E3. subst swap_braket swap_bra swap_ket.
      cbn [canonical_order] in Hcanon |- *.
      injection Hcanon as <- <- <- <-.
      rewrite (update_at_Returned pd2 0 _ r0 (set_targets0 result r0) Hr0 eq_refl).
      cbn [mbind outcome_bind]. eexists _, _. split; [reflexivity|]. split.
      * unfold same_setup2. cbn [Kernel lmax_ deriv_order_ core_ints_params_ primdata_
          scratch_ with_primdata].
        repeat split; try reflexivity.
        -- rewrite length_insert. exact Hl2.
        -- intros _. eexists. split; [apply list_lookup_insert_eq; exact Hpos2|].
           exact Hst.
      * intros i1 i2 i3 i4 Hi1 Hi2 Hi3 Hi4.
        assert (Hidx : row_major4 (Shell.size t2) (Shell.size t3) (Shell.size t4)
                         i1 i2 i3 i4 < length result).
        { eapply Nat.lt_le_trans; [apply (row_major4_lt (Shell.size t1)); assumption|].
          etrans; [|exact Hres].
          apply prod4_le; apply size_le_cartesian; assumption. }
        destruct (lookup_lt_is_Some_2 result _ Hidx) as [v Hv].
        exists v. split; [exact Hv|].
        unfold canonical_block, to_solid4.
        replace (lmax4 t1 t2 t3 t4 =? 0) with false
          by (symmetry; apply Nat.eqb_neq; exact Hl0).
        cbv zeta. rewrite Hp1, Hp2, Hp3, Hp4. exact Hv.
Qed.


Lemma same_setup2_refl (e : t) : same_setup2 e e.
Proof. repeat split. intros H. exact H. Qed.

Lemma same_setup2_trans (e1 e2 e3 : t) :
  same_setup2 e1 e2 -> same_setup2 e2 e3 -> same_setup2 e1 e3.
Proof.
  intros (A1 & A2 & A3 & A4 & A5 & A6 & A7) (B1 & B2 & B3 & B4 & B5 & B6 & B7).
  repeat split; try congruence. intros H. apply B7, A7, H.
Qed.

Lemma admissible4_setup (e e' : t) (t1 t2 t3 t4 : Shell.t) :
  same_setup2 e e' -> admissible4 e t1 t2 t3 t4 -> admissible4 e' t1 t2 t3 t4.
Proof.
  intros (A1 & A2 & A3 & A4 & A5 & A6 & A7) [H1 H2 H3 H4 H5 H6 H7 H8 H9].
  split; try assumption.
  - congruence.
  - rewrite A5. exact H6.
  - rewrite A2. exact H7.
  - apply A7, H8.
  - rewrite A6. exact H9.
Qed.

(** The block of a quartet depends on the engine through the kernel and
    its parameters alone. *)
Lemma canonical_block_inputs (e e' : t) (bra1 bra2 ket1 ket2 : Shell.t) :
  eri_contract -> Kernel e' = Kernel e ->
  core_ints_params_ e' = core_ints_params_ e ->
  deriv_order_ e = 0%N -> deriv_order_ e' = 0%N ->
  canonical_block e' bra1 bra2 ket1 ket2 = canonical_block e bra1 bra2 ket1 ket2.
Proof.
  intros HE A1 A4 Hd Hd'.
  unfold canonical_block.
  destruct (lmax4 bra1 bra2 ket1 ket2 =? 0).
  - f_equal. apply Rsum_ext. intros k _.
    destruct (quartet_record_inputs e' e Libint_t_zero Libint_t_zero
                bra1 bra2 ket1 ket2 k (eq_sym A1) (eq_sym A4) Hd' Hd) as [H _].
    apply H. lia.
  - f_equal. apply (eri_reads_assembled HE).
    unfold same_arrays2, reference_records2.
    set (n := nprim4 bra1 bra2 ket1 ket2).
    do 2 eexists.
    split; [apply list_lookup_insert_eq; rewrite length_map, length_seq; lia|].
    split; [apply list_lookup_insert_eq; rewrite length_map, length_seq; lia|].
    split; [reflexivity|]. cbn [contrdepth set_contrdepth]. intros p Hp.
    destruct (decide (p = 0)) as [->|Hne].
    + do 2 eexists.
      split; [apply list_lookup_insert_eq; rewrite length_map, length_seq; lia|].
      split; [apply list_lookup_insert_eq; rewrite length_map, length_seq; lia|].
      apply (quartet_record_inputs e' e Libint_t_zero Libint_t_zero
               bra1 bra2 ket1 ket2 0 (eq_sym A1) (eq_sym A4) Hd' Hd).
    + do 2 eexists.
      split; [rewrite list_lookup_insert_ne by lia;
              rewrite list_lookup_fmap, lookup_seq_lt by lia; reflexivity|].
      split; [rewrite list_lookup_insert_ne by lia;
              rewrite list_lookup_fmap, lookup_seq_lt by lia; reflexivity|].
      apply (quartet_record_inputs e' e Libint_t_zero Libint_t_zero
               bra1 bra2 ket1 ket2 p (eq_sym A1) (eq_sym A4) Hd' Hd).
Qed.

(** The block of a quartet depends on the engine through its set-up
    alone. *)
Lemma canonical_block_setup (e e' : t) (bra1 bra2 ket1 ket2 : Shell.t) :
  eri_contract -> same_setup2 e e' -> deriv_order_ e = 0%N ->
  canonical_block e' bra1 bra2 ket1 ket2 = canonical_block e bra1 bra2 ket1 ket2.
Proof.
  intros HE (A1 & _ & A3 & A4 & _) Hd.
  apply canonical_block_inputs; [exact HE | exact A1 | exact A4 | exact Hd | congruence].
Qed.

(** Every offset of a four-index block is the offset of an index
    quadruple. *)
Lemma row_major4_surj (n1 n2 n3 n4 k : nat) :
  k < n1 * n2 * n3 * n4 ->
  exists i1 i2 i3 i4, i1 < n1 /\ i2 < n2 /\ i3 < n3 /\ i4 < n4 /\
    k = row_major4 n2 n3 n4 i1 i2 i3 i4.
Proof.
  intros Hk.
  assert (Hsplit : forall a b m, m < a * b ->
            m `div` b < a /\ m `mod` b < b /\ m = (m `div` b) * b + m `mod` b).
  { intros a b m Hm. assert (0 < b) by nia.
    split; [apply Nat.Div0.div_lt_upper_bound; nia|].
    split; [apply Nat.mod_upper_bound; lia|].
    rewrite (Nat.div_mod_eq m b) at 1. lia. }
  destruct (Hsplit _ _ _ Hk) as (Hq3 & Hi4 & E4).
  destruct (Hsplit _ _ _ Hq3) as (Hq2 & Hi3 & E3).
  destruct (Hsplit _ _ _ Hq2) as (Hi1 & Hi2 & E2).
  exists (((k `div` n4) `div` n3) `div` n2), (((k `div` n4) `div` n3) `mod` n2),
    ((k `div` n4) `mod` n3), (k `mod` n4).
  split; [exact Hi1|]. split; [exact Hi2|]. split; [exact Hi3|]. split; [exact Hi4|].
  unfold row_major4. rewrite <- E2, <- E3. exact E4.
Qed.

Lemma run_calls4_setup (e : t) (calls : list (Shell.t * Shell.t * Shell.t * Shell.t)) :
  eri_contract -> transform4_contract ->
  Forall (fun c => admissible4 e c.1.1.1 c.1.1.2 c.1.2 c.2) calls ->
  same_setup2 e (run_calls4 e calls).
Proof.
  intros HE HT Hall. unfold run_calls4.
  assert (Hgen : forall e0, same_setup2 e e0 ->
    same_setup2 e
      (foldl (fun e c => match compute e c.1.1.1 c.1.1.2 c.1.2 c.2 with
                         | Returned (_, e') => e' | _ => e end) e0 calls)).
  { induction Hall as [|c calls Hc Hall IH]; intros e0 H0; [exact H0|].
    cbn [foldl]. apply IH.
    destruct (swaps_of c.1.1.1 c.1.1.2 c.1.2 c.2) as [[sbk sb] sk] eqn:Hsw.
    destruct (canonical_order sbk sb sk c.1.1.1 c.1.1.2 c.1.2 c.2)
      as [[[b1 b2] k1] k2] eqn:Hcanon.
    destruct (compute4_returns e0 _ _ _ _ sbk sb sk b1 b2 k1 k2 HE HT
                (admissible4_setup e e0 _ _ _ _ H0 Hc) Hsw Hcanon)
      as (buf & e' & Hret & Hs & _).
    rewrite Hret. eapply same_setup2_trans; eassumption. }
  apply Hgen, same_setup2_refl.
Qed.

(** On the two-body engine an admissible call gives the same result
    after any sequence of admissible calls as before it. *)
Lemma two_body_calls_independent (e : t)
  (calls : list (Shell.t * Shell.t * Shell.t * Shell.t)) (t1 t2 t3 t4 : Shell.t) :
  eri_contract -> transform4_contract ->
  admissible4 e t1 t2 t3 t4 ->
  Forall (fun c => admissible4 e c.1.1.1 c.1.1.2 c.1.2 c.2) calls ->
  exists buf e1 buf' e2,
    compute e t1 t2 t3 t4 = Returned (buf, e1) /\
    compute (run_calls4 e calls) t1 t2 t3 t4 = Returned (buf', e2) /\
    result_view4 t1 t2 t3 t4 buf = result_view4 t1 t2 t3 t4 buf'.
Proof.
  intros HE HT Hadm Hall.
  pose proof (run_calls4_setup e calls HE HT Hall) as Hs.
  destruct (swaps_of t1 t2 t3 t4) as [[sbk sb] sk] eqn:Hsw.
  destruct (canonical_order sbk sb sk t1 t2 t3 t4) as [[[b1 b2] k1] k2] eqn:Hcanon.
  destruct (compute4_returns e t1 t2 t3 t4 sbk sb sk b1 b2 k1 k2 HE HT Hadm Hsw Hcanon)
    as (buf & e1 & Hret & _ & Hent).
  destruct (compute4_returns (run_calls4 e calls) t1 t2 t3 t4 sbk sb sk b1 b2 k1 k2
              HE HT (admissible4_setup _ _ _ _ _ _ Hs Hadm) Hsw Hcanon)
    as (buf' & e2 & Hret' & _ & Hent').
  exists buf, e1, buf', e2. split; [exact Hret|]. split; [exact Hret'|].
  unfold result_view4. apply list_eq. intros k.
  destruct (decide (k < Shell.size t1 * Shell.size t2 * Shell.size t3 * Shell.size t4))
    as [Hk|Hk]; [|rewrite !lookup_take_ge by lia; reflexivity].
  rewrite !lookup_take_lt by exact Hk.
  destruct (row_major4_surj _ _ _ _ k Hk) as (i1 & i2 & i3 & i4 & H1 & H2 & H3 & H4 & ->).
  destruct (Hent i1 i2 i3 i4 H1 H2 H3 H4) as (v & Hv & Hblock).
  destruct (Hent' i1 i2 i3 i4 H1 H2 H3 H4) as (v' & Hv' & Hblock').
  rewrite Hv, Hv'.
  rewrite (canonical_block_setup e _ b1 b2 k1 k2 HE Hs (adm4_deriv _ _ _ _ _ Hadm))
    in Hblock'.
  destruct (canonical_order sbk sb sk i1 i2 i3 i4) as [[[j1 j2] j3] j4].
  congruence.
Qed.

End TwoBodyCompute.

(** ** The two-body result and the independence of calls *)

Section CallerOrder.
Context {C : Libint2Config} {L : Libint2Library}.
Local Open Scope nat_scope.

(** C6.  For every admissible two-body call, with the kernel and the
    solid-harmonics routines under their contracts: [compute] returns a
    buffer that holds [size tbra1 * size tbra2 * size tket1 * size tket2]
    entries, and its entry ([i1], [i2], [i3], [i4]), row-major in the sizes
    of the caller's shells in the caller's order, is the entry of the block
    of the canonical quartet at the indices the three decisions
    ([swap_braket], [swap_bra], [swap_ket]) select from ([i1], [i2], [i3],
    [i4]), row-major in the sizes of the canonical shells.  The decisions
    are those [compute] takes for the four shells, whichever of the eight
    combinations they are. *)
Theorem two_body_result_in_caller_order (e : TwoBodyEngine.t)
  (tbra1 tbra2 tket1 tket2 : Shell.t) :
  eri_contract -> transform4_contract ->
  admissible4 e tbra1 tbra2 tket1 tket2 ->
  let '(swap_braket, swap_bra, swap_ket) := swaps_of tbra1 tbra2 tket1 tket2 in
  let '(bra1, bra2, ket1, ket2) :=
    TwoBodyEngine.canonical_order swap_braket swap_bra swap_ket tbra1 tbra2 tket1 tket2 in
  exists buf e',
    TwoBodyEngine.compute e tbra1 tbra2 tket1 tket2 = Returned (buf, e') /\
    Shell.size tbra1 * Shell.size tbra2 * Shell.size tket1 * Shell.size tket2
      <= length buf /\
    forall i1 i2 i3 i4,
      i1 < Shell.size tbra1 -> i2 < Shell.size tbra2 ->
      i3 < Shell.size tket1 -> i4 < Shell.size tket2 ->
      exists v,
        buf !! row_major4 (Shell.size tbra2) (Shell.size tket1) (Shell.size tket2)
                 i1 i2 i3 i4 = Some v /\
        let '(j1, j2, j3, j4) :=
          TwoBodyEngine.canonical_order swap_braket swap_bra swap_ket i1 i2 i3 i4 in
        canonical_block e bra1 bra2 ket1 ket2
          !! row_major4 (Shell.size bra2) (Shell.size ket1) (Shell.size ket2) j1 j2 j3 j4
          = Some v.
Proof.
  intros HE HT Hadm.
  destruct (swaps_of tbra1 tbra2 tket1 tket2) as [[sbk sb] sk] eqn:Hsw.
  destruct (TwoBodyEngine.canonical_order sbk sb sk tbra1 tbra2 tket1 tket2)
    as [[[b1 b2] k1] k2] eqn:Hcanon.
  destruct (compute4_returns e tbra1 tbra2 tket1 tket2 sbk sb sk b1 b2 k1 k2
              HE HT Hadm Hsw Hcanon) as (buf & e' & Hret & _ & Hent).
  exists buf, e'. split; [exact Hret|]. split; [|exact Hent].
  set (N := Shell.size tbra1 * Shell.size tbra2 * Shell.size tket1 * Shell.size tket2).
  destruct (decide (N = 0)) as [->|Hpos]; [lia|].
  destruct (row_major4_surj (Shell.size tbra1) (Shell.size tbra2) (Shell.size tket1)
              (Shell.size tket2) (N - 1)) as (i1 & i2 & i3 & i4 & H1 & H2 & H3 & H4 & Hk);
    [unfold N in *; lia|].
  destruct (Hent i1 i2 i3 i4 H1 H2 H3 H4) as (v & Hv & _).
  rewrite <- Hk in Hv. apply lookup_lt_Some in Hv. lia.
Qed.

(** C9.  On either engine, with the kernels and the solid-harmonics
    routines under their contracts: an admissible call returns, it returns
    again on the engine that any sequence of admissible calls has left, and
    the two results are equal entry by entry. *)
Theorem calls_leave_no_trace
  (e1 : OneBodyEngine.t) (calls1 : list (Shell.t * Shell.t)) (s1 s2 : Shell.t)
  (e2 : TwoBodyEngine.t) (calls2 : list (Shell.t * Shell.t * Shell.t * Shell.t))
  (t1 t2 t3 t4 : Shell.t) :
  kernel_contract -> transform_contract ->
  eri_contract -> transform4_contract ->
  admissible e1 s1 s2 ->
  Forall (fun c => admissible e1 c.1 c.2) calls1 ->
  admissible4 e2 t1 t2 t3 t4 ->
  Forall (fun c => admissible4 e2 c.1.1.1 c.1.1.2 c.1.2 c.2) calls2 ->
  (exists buf e buf' e',
     OneBodyEngine.compute e1 s1 s2 = Returned (buf, e) /\
     OneBodyEngine.compute (run_calls e1 calls1) s1 s2 = Returned (buf', e') /\
     result_view s1 s2 buf = result_view s1 s2 buf') /\
  (exists buf e buf' e',
     TwoBodyEngine.compute e2 t1 t2 t3 t4 = Returned (buf, e) /\
     TwoBodyEngine.compute (run_calls4 e2 calls2) t1 t2 t3 t4 = Returned (buf', e') /\
     result_view4 t1 t2 t3 t4 buf = result_view4 t1 t2 t3 t4 buf').
Proof.
  intros HK HT HE HT4 Hadm Hall Hadm4 Hall4. split.
  - apply one_body_calls_independent; assumption.
  - apply two_body_calls_independent; assumption.
Qed.

End CallerOrder.

(** ** The example library keeps the two-body contracts *)

Section ExampleLibrary2.
Local Open Scope nat_scope.

Lemma example_eri_contract :
  eri_contract (C := example_config) (L := example_library).
Proof.
  split.
  - intros. reflexivity.
  - intros. cbn. rewrite length_replicate. lia.
Qed.

Lemma example_transform4_contract : transform4_contract (L := example_library).
Proof.
  split; cbn.
  - intros l n c c'. apply leading_block_reads; [lia | apply ncart_ge].
  - intros n1 l n2 c c'. apply leading_slab_reads. apply ncart_ge.
  - intros n l c c'. apply leading_block_reads; [apply ncart_ge | lia].
  - intros. apply leading_block_length.
  - intros. apply tabulate_length.
  - intros. apply leading_block_length.
Qed.

Lemma p_coulomb_engine_admissible (t1 t2 t3 t4 : Shell.t) :
  Forall (fun s => exists A, s = s_shell 1 1 A \/ s = p_shell 1 1 A) [t1; t2; t3; t4] ->
  admissible4 p_coulomb_engine t1 t2 t3 t4.
Proof.
  intros H.
  apply Forall_cons in H as [(A1 & H1) H]. apply Forall_cons in H as [(A2 & H2) H].
  apply Forall_cons in H as [(A3 & H3) H]. apply Forall_cons in H as [(A4 & H4) _].
  destruct H1 as [-> | ->], H2 as [-> | ->], H3 as [-> | ->], H4 as [-> | ->];
    (split;
     [ reflexivity | reflexivity | reflexivity | reflexivity | reflexivity
     | cbn; lia
     | unfold lmax4; cbn; lia
     | exists (set_stack [0%R] Libint_t_zero); split; [reflexivity | cbn; lia]
     | vm_compute; lia ]).
Qed.

End ExampleLibrary2.

Lemma two_body_result_in_caller_order_witness :
  exists buf e',
    TwoBodyEngine.compute (C := example_config) (L := example_library)
      p_coulomb_engine (s_shell 1 1 origin) (p_shell 1 1 origin)
      (s_shell 1 1 origin) (s_shell 1 1 origin) = Returned (buf, e') /\
    (3 <= length buf)%nat.
Proof.
  pose proof (two_body_result_in_caller_order (C := example_config)
                (L := example_library) p_coulomb_engine
                (s_shell 1 1 origin) (p_shell 1 1 origin)
                (s_shell 1 1 origin) (s_shell 1 1 origin)
                example_eri_contract example_transform4_contract
                (p_coulomb_engine_admissible
                   (s_shell 1 1 origin) (p_shell 1 1 origin)
                   (s_shell 1 1 origin) (s_shell 1 1 origin)
                   ltac:(repeat constructor; eexists; (left + right); reflexivity)))
    as H.
  cbn [swaps_of example_config SHELLQUARTET_SET_STANDARD TwoBodyEngine.canonical_order
       Contraction.l Shell.contr0 Shell.contr s_shell p_shell lookup list_lookup
       default Nat.ltb Nat.leb Nat.add from_option] in H.
  destruct H as (buf & e' & Hret & Hlen & _).
  exists buf, e'. split; [exact Hret | exact Hlen].
Defined.

Lemma calls_leave_no_trace_witness :
  (exists buf e buf' e',
     OneBodyEngine.compute (C := example_config) (L := example_library)
       small_nuclear_engine (p_shell 1 1 origin) (s_shell 1 1 origin) =
       Returned (buf, e) /\
     OneBodyEngine.compute (C := example_config) (L := example_library)
       (run_calls (C := example_config) (L := example_library) small_nuclear_engine
          [(p_shell 1 1 origin, s_shell 1 1 origin)])
       (p_shell 1 1 origin) (s_shell 1 1 origin) = Returned (buf', e') /\
     result_view (p_shell 1 1 origin) (s_shell 1 1 origin) buf =
     result_view (p_shell 1 1 origin) (s_shell 1 1 origin) buf') /\
  (exists buf e buf' e',
     TwoBodyEngine.compute (C := example_config) (L := example_library)
       p_coulomb_engine (s_shell 1 1 origin) (p_shell 1 1 origin)
       (s_shell 1 1 origin) (s_shell 1 1 origin) = Returned (buf, e) /\
     TwoBodyEngine.compute (C := example_config) (L := example_library)
       (run_calls4 (C := example_config) (L := example_library) p_coulomb_engine
          [(s_shell 1 1 origin, s_shell 1 1 origin, s_shell 1 1 origin,
            s_shell 1 1 origin)])
       (s_shell 1 1 origin) (p_shell 1 1 origin)
       (s_shell 1 1 origin) (s_shell 1 1 origin) = Returned (buf', e') /\
     result_view4 (s_shell 1 1 origin) (p_shell 1 1 origin)
       (s_shell 1 1 origin) (s_shell 1 1 origin) buf =
     result_view4 (s_shell 1 1 origin) (p_shell 1 1 origin)
       (s_shell 1 1 origin) (s_shell 1 1 origin) buf').
Proof.
  apply (calls_leave_no_trace (C := example_config) (L := example_library)
           small_nuclear_engine [(p_shell 1 1 origin, s_shell 1 1 origin)]
           (p_shell 1 1 origin) (s_shell 1 1 origin)
           p_coulomb_engine
           [(s_shell 1 1 origin, s_shell 1 1 origin, s_shell 1 1 origin,
             s_shell 1 1 origin)]
           (s_shell 1 1 origin) (p_shell 1 1 origin)
           (s_shell 1 1 origin) (s_shell 1 1 origin)
           example_kernel_contract example_transform_contract
           example_eri_contract example_transform4_contract
           (small_nuclear_engine_admissible origin origin)).
  - constructor; [apply small_nuclear_engine_admissible | constructor].
  - apply p_coulomb_engine_admissible.
    repeat constructor; eexists; (left + right); reflexivity.
  - constructor; [|constructor]. apply p_coulomb_engine_admissible.
    repeat constructor; eexists; (left + right); reflexivity.
Defined.

(** * Further properties *)

(** ** Construction of a one-body engine *)

Section OneBodyConstruction.
Context {C : Libint2Config} {L : Libint2Library}.
Import OneBodyEngine.
Local Open Scope nat_scope.

(** [initialize] fails an assertion, or leaves the engine, or initialises
    the records and resizes the scratch buffer. *)
Lemma initialize_cases (e : t) :
  initialize e = AssertionFailed \/ initialize e = Returned e \/
  exists k, initialize e =
    Returned (mk (type_ e) (libint2_init (primdata_ e)) (lmax_ e) (deriv_order_ e)
                (q_ e) (resize k 0%R (scratch_ e))).
Proof.
  unfold initialize, assert. cbv zeta.
  repeat case_match; cbn [mbind outcome_bind mret outcome_ret];
    first [ left; reflexivity
          | right; left; reflexivity
          | right; right; eexists; reflexivity ].
Qed.

Lemma initialize_keeps (e e' : t) :
  initialize e = Returned e' ->
  type_ e' = type_ e /\ lmax_ e' = lmax_ e /\ deriv_order_ e' = deriv_order_ e /\
  q_ e' = q_ e.
Proof.
  destruct (initialize_cases e) as [H|[H|(k & H)]]; rewrite H; intros E;
    [discriminate E | injection E as <- | injection E as <-]; repeat split.
Qed.

(** X1.  The constructor fails an assertion of [initialize] when the
    operator type is [_invalid], when [max_l] exceeds [LIBINT2_MAX_AM_*] of
    the type, when [deriv_order] exceeds [LIBINT2_DERIV_ONEBODY_ORDER], and
    when [deriv_order] is 3 or more. *)
Theorem one_body_constructor_rejects (ty : type) (max_nprim : N) (max_l : Z)
  (deriv_order : N) :
  ty = _invalid \/ (max_am ty < max_l)%Z \/
  (LIBINT2_DERIV_ONEBODY_ORDER < deriv_order)%N \/ (3 <= deriv_order)%N ->
  make ty max_nprim max_l deriv_order = AssertionFailed.
Proof.
  intros H. unfold make, initialize. cbv zeta. cbn [type_ lmax_ deriv_order_].
  destruct (decide (ty = _invalid)) as [->|Hty]; [reflexivity|].
  destruct (Z.leb_spec max_l (max_am ty)) as [Hl|Hl].
  2:{ destruct ty; try contradiction; unfold max_am in Hl;
        (replace (max_l <=? _)%Z with false by (symmetry; apply Z.leb_gt; exact Hl));
        reflexivity. }
  assert (Hpass : match ty with
                  | overlap => assert (max_l <=? LIBINT2_MAX_AM_overlap)%Z
                  | kinetic => assert (max_l <=? LIBINT2_MAX_AM_kinetic)%Z
                  | nuclear => assert (max_l <=? LIBINT2_MAX_AM_elecpot)%Z
                  | _invalid => assert false
                  end = Returned tt).
  { destruct ty; try contradiction; unfold max_am in Hl;
      (replace (max_l <=? _)%Z with true by (symmetry; apply Z.leb_le; exact Hl));
      reflexivity. }
  rewrite Hpass. cbn [mbind outcome_bind].
  destruct (N.leb_spec deriv_order LIBINT2_DERIV_ONEBODY_ORDER) as [Hd|Hd];
    [|reflexivity].
  cbn [assert mbind outcome_bind].
  destruct H as [H|[H|[H|H]]]; [contradiction | lia | lia |].
  destruct deriv_order as [|[[p|p|]|[p|p|]|]]; try lia; reflexivity.
Qed.

(** X2.  An engine the constructor returns for a non-zero [deriv_order]
    computes nothing: every call of [compute] fails an assertion. *)
Theorem one_body_derivative_engine_unusable (ty : type) (max_nprim : N) (max_l : Z)
  (deriv_order : N) (e : t) (s1 s2 : Shell.t) :
  make ty max_nprim max_l deriv_order = Returned e ->
  deriv_order <> 0%N ->
  compute e s1 s2 = AssertionFailed.
Proof.
  intros Hmake Hd. unfold make in Hmake.
  destruct (initialize_keeps _ _ Hmake) as (_ & _ & Hde & _).
  cbn [deriv_order_] in Hde. unfold compute.
  destruct ((Shell.ncontr s1 =? 1) && (Shell.ncontr s2 =? 1)); [|reflexivity].
  cbn [assert mbind outcome_bind].
  rewrite Hde. replace (deriv_order =? 0)%N with false
    by (symmetry; apply N.eqb_neq; exact Hd).
  reflexivity.
Qed.

(** X3.  A default-constructed engine (type [_invalid], no records,
    [lmax_ = -1], whatever its derivative order holds) is unusable: every
    call of [compute] fails an assertion. *)
Theorem default_engine_unusable (e : t) (s1 s2 : Shell.t) :
  type_ e = _invalid -> primdata_ e = [] -> lmax_ e = (-1)%Z ->
  compute e s1 s2 = AssertionFailed.
Proof.
  intros Hty Hpd Hl. unfold compute. rewrite Hty, Hpd, Hl.
  destruct ((Shell.ncontr s1 =? 1) && (Shell.ncontr s2 =? 1)); [|reflexivity].
  cbn [assert mbind outcome_bind].
  destruct (deriv_order_ e =? 0)%N; [|reflexivity]. cbn [assert mbind outcome_bind].
  rewrite (bool_decide_eq_false_2 (_invalid = nuclear)) by discriminate.
  cbn [andb orb]. cbv zeta.
  destruct (_ <=? _)%N; [|reflexivity]. cbn [assert mbind outcome_bind].
  replace (_ <=? -1)%Z with false by (symmetry; apply Z.leb_gt; lia).
  reflexivity.
Qed.

End OneBodyConstruction.

Lemma one_body_constructor_rejects_witness :
  OneBodyEngine.make (C := example_config) (L := example_library)
    OneBodyEngine.overlap 3 5 0 = AssertionFailed.
Proof.
  apply (one_body_constructor_rejects (C := example_config) (L := example_library)
           OneBodyEngine.overlap 3 5 0).
  right. left. cbn. lia.
Defined.

Lemma one_body_derivative_engine_unusable_witness :
  OneBodyEngine.compute (C := deriv_config) (L := example_library)
    (OneBodyEngine.mk OneBodyEngine.overlap [set_stack [0] Libint_t_zero] 0 1 []
       [0; 0; 0])
    (s_shell 1 1 origin) (s_shell 1 1 origin) = AssertionFailed.
Proof.
  apply (one_body_derivative_engine_unusable (C := deriv_config) (L := example_library)
           OneBodyEngine.overlap 1 0 1).
  - reflexivity.
  - discriminate.
Defined.

Lemma default_engine_unusable_witness :
  OneBodyEngine.compute (C := example_config) (L := example_library)
    OneBodyEngine.default_engine (s_shell 1 1 origin) (s_shell 1 1 origin)
  = AssertionFailed.
Proof.
  apply (default_engine_unusable (C := example_config) (L := example_library)
           OneBodyEngine.default_engine); reflexivity.
Defined.

(** ** A constructed one-body engine accepts the shells it was built for *)

Section OneBodyReady.
Context {C : Libint2Config} {L : Libint2Library}.
Import OneBodyEngine.
Local Open Scope nat_scope.

Lemma ncart_mono (l l' : nat) : l <= l' -> ncart l <= ncart l'.
Proof. intros H. unfold ncart. apply Nat.Div0.div_le_mono. nia. Qed.

Lemma ncart_Z (l : Z) :
  (0 <= l)%Z ->
  (((l + 1) * (l + 2)) `quot` 2)%Z = Z.of_nat (ncart (Z.to_nat l)).
Proof.
  intros Hl. rewrite Z.quot_div_nonneg by lia. unfold ncart.
  rewrite Nat2Z.inj_div, Nat2Z.inj_mul, !Nat2Z.inj_add, Z2Nat.id by lia.
  reflexivity.
Qed.

(** [initialize] for derivative order 0: the records initialised, the
    scratch buffer resized to [ncart(lmax_)^2] words. *)
Lemma initialize_returns (e : t) :
  type_ e <> _invalid -> (0 <= lmax_ e <= max_am (type_ e))%Z ->
  deriv_order_ e = 0%N ->
  initialize e =
    Returned (mk (type_ e) (libint2_init (primdata_ e)) (lmax_ e) 0 (q_ e)
                (resize (ncart (Z.to_nat (lmax_ e)) * ncart (Z.to_nat (lmax_ e))) 0%R
                   (scratch_ e))).
Proof.
  intros Hty [Hl0 Hl] Hd. unfold initialize. cbv zeta. rewrite Hd.
  assert (Hpass : match type_ e with
                  | overlap => assert (lmax_ e <=? LIBINT2_MAX_AM_overlap)%Z
                  | kinetic => assert (lmax_ e <=? LIBINT2_MAX_AM_kinetic)%Z
                  | nuclear => assert (lmax_ e <=? LIBINT2_MAX_AM_elecpot)%Z
                  | _invalid => assert false
                  end = Returned tt).
  { destruct (type_ e); try contradiction; unfold max_am in Hl;
      (replace (lmax_ e <=? _)%Z with true by (symmetry; apply Z.leb_le; exact Hl));
      reflexivity. }
  rewrite Hpass. cbn [mbind outcome_bind].
  replace (0 <=? LIBINT2_DERIV_ONEBODY_ORDER)%N with true
    by (symmetry; apply N.leb_le; lia).
  cbn [assert mbind outcome_bind mret outcome_ret]. do 3 f_equal.
  rewrite (ncart_Z (lmax_ e) Hl0). lia.
Qed.


(** The Cartesian entries depend on the engine through its type, its
    derivative order and its charges. *)
Lemma cartesian_entry_config (e e' : t) (s1 s2 : Shell.t) (i j : nat) :
  type_ e' = type_ e -> deriv_order_ e' = deriv_order_ e -> q_ e' = q_ e ->
  cartesian_entry e' s1 s2 i j = cartesian_entry e s1 s2 i j.
Proof.
  intros A1 A3 A4. unfold cartesian_entry, ss_total, num_operset. rewrite A1, A4.
  destruct (lmax_of s1 s2 =? 0).
  - apply Rsum_ext. intros o _. apply Rsum_ext. intros pb _. apply Rsum_ext. intros pk _.
    apply ss_seed_setup; assumption.
  - apply Rsum_ext. intros o _. rewrite (kernel_block_setup e e') by assumption.
    reflexivity.
Qed.


(** X5.  The copy constructor, on an engine of derivative order 0 whose
    [lmax_] is within [LIBINT2_MAX_AM_*]: for every call the original
    admits, the copy is returned with the same type, [lmax_], charges and
    capacity, it admits the call too, and the two engines return the same
    result. *)
Theorem one_body_copy_computes_alike (e : t) (s1 s2 : Shell.t) :
  init_contract -> kernel_contract -> transform_contract ->
  (lmax_ e <= max_am (type_ e))%Z ->
  admissible e s1 s2 ->
  exists e',
    copy e = Returned e' /\
    type_ e' = type_ e /\ lmax_ e' = lmax_ e /\ q_ e' = q_ e /\
    length (primdata_ e') = length (primdata_ e) /\
    admissible e' s1 s2 /\
    exists buf e1 buf' e2,
      compute e s1 s2 = Returned (buf, e1) /\
      compute e' s1 s2 = Returned (buf', e2) /\
      result_view s1 s2 buf = result_view s1 s2 buf'.
Proof.
  intros [Hilen Hiready] HK HT Hmax Hadm.
  pose proof Hadm as [Hn1 Hn2 Hd Hty Hq Hwrap Hcap Hl Hready Hscr].
  assert (Hl0 : (0 <= lmax_ e)%Z) by lia.
  eexists. split.
  { unfold copy. apply initialize_returns; cbn [type_ lmax_ deriv_order_];
      [exact Hty | lia | exact Hd]. }
  cbn [type_ lmax_ deriv_order_ q_ primdata_ scratch_].
  rewrite Hilen, length_replicate.
  do 4 (split; [reflexivity|]).
  match goal with |- admissible ?e0 _ _ /\ _ =>
    assert (Hadm' : admissible e0 s1 s2)
  end.
  { split; cbn [type_ lmax_ deriv_order_ q_ primdata_ scratch_]; try assumption.
    - reflexivity.
    - rewrite Hilen, length_replicate. exact Hcap.
    - apply Hiready. rewrite length_replicate.
      destruct Hready as (r0 & Hr0 & _). apply lookup_lt_is_Some_1. eexists. exact Hr0.
    - rewrite length_resize.
      rewrite (cartesian_size_single s1 Hn1), (cartesian_size_single s2 Hn2).
      unfold lmax_of in Hl. apply Nat.mul_le_mono; apply ncart_mono; lia. }
  split; [exact Hadm'|].
  destruct (compute_returns e s1 s2 Hadm (fun _ => HK))
    as (cart & tgt & e1 & Hret & Hc & _).
  destruct (compute_returns _ s1 s2 Hadm' (fun _ => HK))
    as (cart' & tgt' & e2 & Hret' & Hc' & _).
  eexists _, e1, _, e2. split; [exact Hret|]. split; [exact Hret'|].
  apply (result_view_determined s1 s2 cart cart' tgt tgt' (cartesian_entry e s1 s2) HT
           Hn1 Hn2 Hc).
  intros i j Hi Hj. rewrite (Hc' i j Hi Hj).
  rewrite (cartesian_entry_config e _ s1 s2 i j); [reflexivity | reflexivity | | reflexivity].
  cbn [deriv_order_]. symmetry. exact Hd.
Qed.

End OneBodyReady.

Lemma example_init_contract : init_contract (L := example_library).
Proof.
  split.
  - intros [|r pd]; reflexivity.
  - intros [|r pd] H; [cbn in H; lia|].
    exists (set_stack [0] r). split; [reflexivity | cbn; lia].
Qed.


Lemma one_body_copy_computes_alike_witness :
  exists e',
    OneBodyEngine.copy (C := example_config) (L := example_library)
      small_nuclear_engine = Returned e' /\
    OneBodyEngine.q_ e' = OneBodyEngine.q_ small_nuclear_engine.
Proof.
  destruct (one_body_copy_computes_alike (C := example_config) (L := example_library)
              small_nuclear_engine (p_shell 1 1 origin) (s_shell 1 1 origin)
              example_init_contract example_kernel_contract example_transform_contract)
    as (e' & Hcopy & _ & _ & Hq & _).
  - cbn. lia.
  - apply small_nuclear_engine_admissible.
  - exists e'. split; [exact Hcopy | exact Hq].
Defined.

(** ** The checks of the one-body [compute], and the (s|s) integrals *)

Section OneBodyMore.
Context {C : Libint2Config} {L : Libint2Library}.
Import OneBodyEngine.
Local Open Scope nat_scope.

(** X6.  [compute] fails an assertion when a shell has not exactly one
    contraction, when the derivative order is not 0, and (on an engine that
    does not throw for want of nuclei) when the primitive pairs exceed the
    records or the angular momentum of a shell exceeds [lmax_]. *)
Theorem one_body_compute_rejects (e : t) (s1 s2 : Shell.t) :
  (Shell.ncontr s1 <> 1 \/ Shell.ncontr s2 <> 1) \/
  deriv_order_ e <> 0%N \/
  ((type_ e = nuclear -> q_ e <> []) /\
   (((N.of_nat (Shell.nprim s1) * N.of_nat (Shell.nprim s2) < 2 ^ 64)%N /\
     length (primdata_ e) < Shell.nprim s1 * Shell.nprim s2) \/
    (lmax_ e < Z.of_nat (lmax_of s1 s2))%Z)) ->
  compute e s1 s2 = AssertionFailed.
Proof.
  intros H.
  destruct (decide (Shell.ncontr s1 = 1 /\ Shell.ncontr s2 = 1)) as [[Hn1 Hn2]|Hn].
  2:{ unfold compute.
      replace ((Shell.ncontr s1 =? 1) && (Shell.ncontr s2 =? 1)) with false; [reflexivity|].
      symmetry. apply andb_false_iff.
      destruct (decide (Shell.ncontr s1 = 1)) as [H1|H1];
        [right | left]; apply Nat.eqb_neq; tauto. }
  destruct (decide (deriv_order_ e = 0%N)) as [Hd|Hd].
  2:{ unfold compute. rewrite Hn1, Hn2. cbn [Nat.eqb andb assert mbind outcome_bind].
      replace (deriv_order_ e =? 0)%N with false by (symmetry; apply N.eqb_neq; exact Hd).
      reflexivity. }
  destruct H as [[H|H]|[H|(Hq & [(Hwrap & Hover)|Hl])]]; try contradiction.
  - apply one_body_over_capacity; assumption.
  - unfold compute. rewrite Hn1, Hn2, Hd.
    cbn [Nat.eqb andb assert mbind outcome_bind N.eqb].
    assert (Hthrow : bool_decide (type_ e = nuclear) && (length (q_ e) =? 0) = false).
    { destruct (bool_decide _) eqn:Hb; [|reflexivity].
      apply bool_decide_eq_true in Hb. specialize (Hq Hb).
      destruct (q_ e); [contradiction | reflexivity]. }
    rewrite Hthrow. cbv zeta.
    destruct (_ <=? _)%N; [|reflexivity]. cbn [assert mbind outcome_bind].
    unfold lmax_of in Hl.
    replace (_ <=? lmax_ e)%Z with false by (symmetry; apply Z.leb_gt; exact Hl).
    reflexivity.
Qed.



End OneBodyMore.

(** ** Construction of a two-body engine *)

Section TwoBodyConstruction.
Context {C : Libint2Config} {L : Libint2Library}.
Import TwoBodyEngine.
Local Open Scope nat_scope.

Lemma init_core_ints_params_keeps (oparams : ContractedGaussianGeminal) (e e' : t) :
  init_core_ints_params oparams e = Returned e' ->
  Kernel e' = Kernel e /\ primdata_ e' = primdata_ e /\ lmax_ e' = lmax_ e /\
  deriv_order_ e' = deriv_order_ e /\ scratch_ e' = scratch_ e.
Proof.
  unfold init_core_ints_params.
  destruct (Kernel e) eqn:HK; cbn [mret outcome_ret];
    try (intros H; injection H as <-; cbn; repeat split; congruence).
  destruct (init_core_ints_params_DelcGTG_square oparams (core_ints_params_ e));
    cbn [mbind outcome_bind mret outcome_ret]; intros H; try discriminate H.
  injection H as <-. cbn. repeat split; congruence.
Qed.

(** X8.  The constructor fails an assertion of [initialize] when [max_l]
    exceeds [LIBINT2_MAX_AM_ERI], when [deriv_order] exceeds
    [LIBINT2_DERIV_ONEBODY_ORDER] (the macro the two-body [initialize]
    compares with), and when [deriv_order] is 3 or more. *)
Theorem two_body_constructor_rejects (K : MultiplicativeSphericalTwoBodyKernel)
  (max_nprim : N) (max_l : Z) (deriv_order : N) (oparams : ContractedGaussianGeminal) :
  (LIBINT2_MAX_AM_ERI < max_l)%Z \/
  (LIBINT2_DERIV_ONEBODY_ORDER < deriv_order)%N \/ (3 <= deriv_order)%N ->
  make K max_nprim max_l deriv_order oparams = AssertionFailed.
Proof.
  intros H. unfold make, initialize. cbv zeta. cbn [Kernel lmax_ deriv_order_].
  destruct (Z.leb_spec max_l LIBINT2_MAX_AM_ERI) as [Hl|Hl]; [|reflexivity].
  cbn [assert mbind outcome_bind].
  destruct (N.leb_spec deriv_order LIBINT2_DERIV_ONEBODY_ORDER) as [Hd|Hd];
    [|reflexivity].
  cbn [assert mbind outcome_bind].
  destruct H as [H|[H|H]]; [lia | lia |].
  destruct deriv_order as [|[[p|p|]|[p|p|]|]]; try lia; reflexivity.
Qed.

(** X9.  An engine the constructor returns for a non-zero [deriv_order]
    computes nothing: every call of [compute] fails an assertion. *)
Theorem two_body_derivative_engine_unusable (K : MultiplicativeSphericalTwoBodyKernel)
  (max_nprim : N) (max_l : Z) (deriv_order : N) (oparams : ContractedGaussianGeminal)
  (e : t) (t1 t2 t3 t4 : Shell.t) :
  make K max_nprim max_l deriv_order oparams = Returned e ->
  deriv_order <> 0%N ->
  compute e t1 t2 t3 t4 = AssertionFailed.
Proof.
  intros Hmake Hd. unfold make in Hmake.
  match type of Hmake with (initialize ?e0 ≫= _) = _ =>
    destruct (initialize4_cases e0) as [H|[H|[H|(k & H)]]]; rewrite H in Hmake;
      cbn [mbind outcome_bind] in Hmake; try discriminate Hmake;
      destruct (init_core_ints_params_keeps _ _ _ Hmake) as (_ & _ & _ & Hde & _);
      cbn [deriv_order_] in Hde
  end;
  unfold compute;
  (destruct ((Shell.ncontr t1 =? 1) && (Shell.ncontr t2 =? 1) &&
             (Shell.ncontr t3 =? 1) && (Shell.ncontr t4 =? 1)); [|reflexivity]);
  cbn [assert mbind outcome_bind]; rewrite Hde;
  (replace (deriv_order =? 0)%N with false by (symmetry; apply N.eqb_neq; exact Hd));
  reflexivity.
Qed.







End TwoBodyConstruction.

(** ** The checks of the two-body [compute], and calls past the capacity *)

Section Overrun.
Local Open Scope nat_scope.

Lemma overruns_each (m : nat) (f : nat -> Libint_t -> Libint_t) :
  overruns m
    (for_loop m (fun i '(p, pd) =>
       pd ← update_at pd p (fun r => mret (f i r)); mret (S p, pd))).
Proof.
  induction m as [|m IH]; intros p pd Hp Hover; [lia|].
  cbn [for_loop].
  destruct (decide (length pd < p + m)) as [Hlt|Hge].
  - rewrite (IH p pd Hp Hlt). reflexivity.
  - destruct (fills_each m f p pd) as (pd1 & Hret & Hlen & _); [lia|].
    rewrite Hret. cbn [mbind outcome_bind]. unfold update_at.
    rewrite at_index_OutOfBounds by lia. reflexivity.
Qed.

Lemma overruns_loop (m n : nat) (G : nat -> nat -> Libint_t -> Libint_t)
  (body : nat -> nat * list Libint_t -> outcome (nat * list Libint_t)) :
  (forall i, i < m -> fills n (G i) (body i)) ->
  (forall i, i < m -> overruns n (body i)) ->
  overruns (m * n) (for_loop m body).
Proof.
  induction m as [|m IH]; intros Hfill Hover p pd Hp Hlen; [cbn in Hlen; lia|].
  cbn [for_loop].
  destruct (decide (length pd < p + m * n)) as [Hlt|Hge].
  - rewrite (IH (fun i Hi => Hfill i (Nat.lt_lt_succ_r _ _ Hi))
               (fun i Hi => Hover i (Nat.lt_lt_succ_r _ _ Hi)) p pd Hp Hlt).
    reflexivity.
  - destruct (fills_loop m n G body (fun i Hi => Hfill i (Nat.lt_lt_succ_r _ _ Hi)) p pd)
      as (pd1 & Hret & Hlen1 & _); [lia|].
    rewrite Hret. cbn [mbind outcome_bind].
    apply (Hover m (Nat.lt_succ_diag_r m)); lia.
Qed.

End Overrun.

Section TwoBodyChecks.
Context {C : Libint2Config} {L : Libint2Library}.
Import TwoBodyEngine.
Local Open Scope nat_scope.

(** [assemble] on an array with fewer records than primitive quadruples
    runs past its end. *)
Lemma assemble_overruns (e : t) (bra1 bra2 ket1 ket2 : Shell.t) (pd : list Libint_t) :
  length pd < nprim4 bra1 bra2 ket1 ket2 ->
  assemble e bra1 bra2 ket1 ket2 pd = OutOfBounds.
Proof.
  intros Hover. unfold assemble.
  match goal with |- for_loop ?n ?body _ = _ =>
    assert (HO : overruns (nprim4 bra1 bra2 ket1 ket2) (for_loop n body))
  end.
  { unfold nprim4.
    apply (overruns_loop (Shell.nprim bra1) _
             (fun pb1 k r => compute_primdata e r bra1 bra2 ket1 ket2 pb1
                (k `div` (Shell.nprim ket1 * Shell.nprim ket2))
                ((k `mod` (Shell.nprim ket1 * Shell.nprim ket2)) `div` Shell.nprim ket2)
                ((k `mod` (Shell.nprim ket1 * Shell.nprim ket2)) `mod` Shell.nprim ket2)));
      intros pb1 _.
    - apply (fills_loop (Shell.nprim bra2) _
               (fun pb2 k r => compute_primdata e r bra1 bra2 ket1 ket2 pb1 pb2
                  (k `div` Shell.nprim ket2) (k `mod` Shell.nprim ket2))).
      intros pb2 _.
      apply (fills_loop (Shell.nprim ket1) _
               (fun pk1 k r => compute_primdata e r bra1 bra2 ket1 ket2 pb1 pb2 pk1 k)).
      intros pk1 _.
      apply (fills_each (Shell.nprim ket2)
               (fun pk2 r => compute_primdata e r bra1 bra2 ket1 ket2 pb1 pb2 pk1 pk2)).
    - apply (overruns_loop (Shell.nprim bra2) _
               (fun pb2 k r => compute_primdata e r bra1 bra2 ket1 ket2 pb1 pb2
                  (k `div` Shell.nprim ket2) (k `mod` Shell.nprim ket2)));
        intros pb2 _.
      + apply (fills_loop (Shell.nprim ket1) _
                 (fun pk1 k r => compute_primdata e r bra1 bra2 ket1 ket2 pb1 pb2 pk1 k)).
        intros pk1 _.
        apply (fills_each (Shell.nprim ket2)
                 (fun pk2 r => compute_primdata e r bra1 bra2 ket1 ket2 pb1 pb2 pk1 pk2)).
      + apply (overruns_loop (Shell.nprim ket1) _
                 (fun pk1 k r => compute_primdata e r bra1 bra2 ket1 ket2 pb1 pb2 pk1 k));
          intros pk1 _.
        * apply (fills_each (Shell.nprim ket2)
                   (fun pk2 r => compute_primdata e r bra1 bra2 ket1 ket2 pb1 pb2 pk1 pk2)).
        * apply (overruns_each (Shell.nprim ket2)
                   (fun pk2 r => compute_primdata e r bra1 bra2 ket1 ket2 pb1 pb2 pk1 pk2)). }
  apply HO; lia.
Qed.

Lemma clear_stack_cases (lmax : nat) (pd : list Libint_t) :
  clear_stack lmax pd = OutOfBounds \/
  exists pd0, clear_stack lmax pd = Returned pd0 /\ length pd0 = length pd.
Proof.
  unfold clear_stack. destruct (lmax =? 0); [|right; exists pd; split; reflexivity].
  unfold update_at, at_index.
  destruct (pd !! 0) as [r|]; [|left; reflexivity]. cbn [mbind outcome_bind].
  destruct (stack r !! 0) as [w|]; [|left; reflexivity].
  cbn [mbind outcome_bind mret outcome_ret].
  right. eexists. split; [reflexivity|]. apply length_insert.
Qed.

(** X11.  [compute] fails an assertion when a shell has not exactly one
    contraction, when the derivative order is not 0, and when the angular
    momentum of a shell exceeds [lmax_]. *)
Theorem two_body_compute_rejects (e : t) (t1 t2 t3 t4 : Shell.t) :
  (Shell.ncontr t1 <> 1 \/ Shell.ncontr t2 <> 1 \/
   Shell.ncontr t3 <> 1 \/ Shell.ncontr t4 <> 1) \/
  deriv_order_ e <> 0%N \/
  (lmax_ e < Z.of_nat (lmax4 t1 t2 t3 t4))%Z ->
  compute e t1 t2 t3 t4 = AssertionFailed.
Proof.
  intros H. unfold compute.
  destruct ((Shell.ncontr t1 =? 1) && (Shell.ncontr t2 =? 1) &&
            (Shell.ncontr t3 =? 1) && (Shell.ncontr t4 =? 1)) eqn:Hn; [|reflexivity].
  cbn [assert mbind outcome_bind].
  destruct (deriv_order_ e =? 0)%N eqn:Hd; [|reflexivity].
  cbn [assert mbind outcome_bind]. cbv zeta.
  apply andb_prop in Hn. destruct Hn as [Hn Hn4].
  apply andb_prop in Hn. destruct Hn as [Hn Hn3].
  apply andb_prop in Hn. destruct Hn as [Hn1 Hn2].
  apply Nat.eqb_eq in Hn1, Hn2, Hn3, Hn4. apply N.eqb_eq in Hd.
  destruct H as [H|[H|H]]; [tauto | contradiction |].
  match goal with |- context [canonical_order ?a ?b ?c t1 t2 t3 t4] =>
    destruct a, b, c
  end; cbn [canonical_order]; unfold lmax4 in H;
    match goal with |- context [(?x <=? lmax_ e)%Z] =>
      replace (x <=? lmax_ e)%Z with false by (symmetry; apply Z.leb_gt; lia)
    end; reflexivity.
Qed.

(** X12.  Past the capacity the two-body [compute] fails no assertion:
    for single-contraction shells within [lmax_] on an engine of derivative
    order 0 with fewer records than primitive quadruples, the call runs
    past the end of a vector. *)
Theorem two_body_over_capacity_out_of_bounds (e : t) (t1 t2 t3 t4 : Shell.t) :
  Shell.ncontr t1 = 1 -> Shell.ncontr t2 = 1 ->
  Shell.ncontr t3 = 1 -> Shell.ncontr t4 = 1 ->
  deriv_order_ e = 0%N ->
  (Z.of_nat (lmax4 t1 t2 t3 t4) <= lmax_ e)%Z ->
  length (primdata_ e) <
    Shell.nprim t1 * Shell.nprim t2 * Shell.nprim t3 * Shell.nprim t4 ->
  compute e t1 t2 t3 t4 = OutOfBounds.
Proof.
  intros Hn1 Hn2 Hn3 Hn4 Hd Hl Hover. unfold compute.
  rewrite Hn1, Hn2, Hn3, Hn4, Hd.
  cbn [Nat.eqb andb N.eqb assert mbind outcome_bind]. cbv zeta.
  match goal with |- context [canonical_order ?a ?b ?c t1 t2 t3 t4] =>
    destruct a, b, c
  end; cbn [canonical_order]; unfold lmax4 in Hl;
    match goal with |- context [(?x <=? lmax_ e)%Z] =>
      replace (x <=? lmax_ e)%Z with true by (symmetry; apply Z.leb_le; lia)
    end; cbn [assert mbind outcome_bind];
    match goal with |- context [clear_stack ?lm (primdata_ e)] =>
      destruct (clear_stack_cases lm (primdata_ e)) as [Hc|(pd0 & Hc & Hlen)];
        rewrite Hc; [reflexivity|]
    end; cbn [mbind outcome_bind];
    rewrite assemble_overruns by (unfold nprim4; lia); reflexivity.
Qed.

End TwoBodyChecks.

(** ** The two-body assembler *)

Section TwoBodySeed.
Context {C : Libint2Config} {L : Libint2Library}.
Import TwoBodyEngine.
Local Open Scope nat_scope.

Lemma write_all_erep (ws : list (field * R)) (r : Libint_t) :
  LIBINT_T_SS_EREP_SS (write_all ws r) = LIBINT_T_SS_EREP_SS r.
Proof. destruct (write_all_frame ws r) as (_ & H & _). exact H. Qed.

Lemma locals_closed (s1 s2 s3 s4 : Shell.t) (p1 p2 p3 p4 : nat) :
  let alpha0 := Shell.alpha_at s1 p1 in
  let alpha1 := Shell.alpha_at s2 p2 in
  let alpha2 := Shell.alpha_at s3 p3 in
  let alpha3 := Shell.alpha_at s4 p4 in
  let v := locals (Shell.O s1) (Shell.O s2) (Shell.O s3) (Shell.O s4)
             alpha0 alpha1 alpha2 alpha3 in
  (0 < alpha0 + alpha1)%R -> (0 < alpha2 + alpha3)%R ->
  rho v = eri_rho alpha0 alpha1 alpha2 alpha3 /\
  (PQ2 v * rho v)%R =
    eri_T alpha0 alpha1 alpha2 alpha3 (Shell.O s1) (Shell.O s2) (Shell.O s3) (Shell.O s4) /\
  forall c0 c1 c2 c3,
    pfac v c0 c1 c2 c3 =
      eri_pfac alpha0 alpha1 alpha2 alpha3 c0 c1 c2 c3
        (Shell.O s1) (Shell.O s2) (Shell.O s3) (Shell.O s4).
Proof.
  intros alpha0 alpha1 alpha2 alpha3 v Hp Hq.
  assert (Hrho : rho v = eri_rho alpha0 alpha1 alpha2 alpha3).
  { unfold v, locals, eri_rho. cbn [rho]. unfold Rdiv. ring. }
  split; [exact Hrho|]. split.
  - rewrite Hrho. unfold eri_T, v, locals, dist2, weighted_centre, get3.
    cbn [PQ2 fst snd]. unfold Rdiv. ring.
  - intros c0 c1 c2 c3. unfold pfac, eri_pfac, v, locals.
    cbn [rhop AB2 rhoq CD2 oogammap oogammaq sqrt_gammapq oogammapq]. unfold dist2.
    fold alpha0 alpha1 alpha2 alpha3.
    set (gp := (alpha0 + alpha1)%R) in *. set (gq := (alpha2 + alpha3)%R) in *.
    assert (Hs : (0 < sqrt (gp + gq))%R) by (apply sqrt_lt_R0; lra).
    assert (Hsq : (sqrt (gp + gq) * sqrt (gp + gq) = gp + gq)%R)
      by (apply sqrt_sqrt; lra).
    replace (alpha0 * alpha1 * (1 / gp))%R with (alpha0 * alpha1 / gp)%R
      by (unfold Rdiv; ring).
    replace (alpha2 * alpha3 * (1 / gq))%R with (alpha2 * alpha3 / gq)%R
      by (unfold Rdiv; ring).
    replace (1 / (gp + gq))%R with (/ (sqrt (gp + gq) * sqrt (gp + gq)))%R
      by (rewrite Hsq; unfold Rdiv; ring).
    field. repeat split; lra.
Qed.

(** The core integrals of an assembled record: the evaluator's values,
    scaled, up to order [mmax]. *)
Lemma compute_primdata_erep (e : t) (r : Libint_t) (s1 s2 s3 s4 : Shell.t)
  (p1 p2 p3 p4 : nat) :
  let mmax := Contraction.l (Shell.contr0 s1) + Contraction.l (Shell.contr0 s3) +
              Contraction.l (Shell.contr0 s2) + Contraction.l (Shell.contr0 s4) +
              N.to_nat (deriv_order_ e) in
  (0 < Shell.alpha_at s1 p1 + Shell.alpha_at s2 p2)%R ->
  (0 < Shell.alpha_at s3 p3 + Shell.alpha_at s4 p4)%R ->
  LIBINT_T_SS_EREP_SS (compute_primdata e r s1 s2 s3 s4 p1 p2 p3 p4) =
    eval_and_scale
      (core_eval e mmax
         (eri_T (Shell.alpha_at s1 p1) (Shell.alpha_at s2 p2) (Shell.alpha_at s3 p3)
            (Shell.alpha_at s4 p4) (Shell.O s1) (Shell.O s2) (Shell.O s3) (Shell.O s4))
         (eri_rho (Shell.alpha_at s1 p1) (Shell.alpha_at s2 p2) (Shell.alpha_at s3 p3)
            (Shell.alpha_at s4 p4)))
      mmax
      (eri_pfac (Shell.alpha_at s1 p1) (Shell.alpha_at s2 p2) (Shell.alpha_at s3 p3)
         (Shell.alpha_at s4 p4) (Shell.coeff_at s1 p1) (Shell.coeff_at s2 p2)
         (Shell.coeff_at s3 p3) (Shell.coeff_at s4 p4)
         (Shell.O s1) (Shell.O s2) (Shell.O s3) (Shell.O s4))
      (LIBINT_T_SS_EREP_SS r).
Proof.
  intros mmax Hp Hq.
  destruct (locals_closed s1 s2 s3 s4 p1 p2 p3 p4 Hp Hq) as (Hrho & HT & Hpfac).
  unfold compute_primdata. cbv zeta. fold mmax.
  rewrite HT, Hrho, Hpfac.
  destruct (mmax =? 0); [reflexivity|].
  unfold write_offsets, write_deriv_prefactors. cbv zeta.
  destruct (0 <? deriv_order_ e)%N; rewrite ?write_all_erep; reflexivity.
Qed.


End TwoBodySeed.

(** ** Relations among the members of an assembled two-body record *)


Section TwoBodyRelations.
Context {C : Libint2Config} {L : Libint2Library}.
Import TwoBodyEngine.
Local Open Scope R_scope.


End TwoBodyRelations.

(** ** The (ss|ss) integrals *)

Section SSSS.
Context {C : Libint2Config} {L : Libint2Library}.
Import TwoBodyEngine.
Local Open Scope nat_scope.

(** A sum over the row-major index of a pair, by quotient and remainder. *)
Lemma Rsum_unrank (n m : nat) (h : nat -> nat -> R) :
  Rsum (n * m) (fun k => h (k `div` m) (k `mod` m)) = Rsum n (fun i => Rsum m (h i)).
Proof.
  apply Rsum_flatten. intros i j Hi Hj.
  replace ((i * m + j) `div` m) with i by (apply (Nat.div_unique _ m i j); lia).
  replace ((i * m + j) `mod` m) with j by (apply (Nat.mod_unique _ m i j); lia).
  reflexivity.
Qed.

(** [compute] on four s-type shells: the first word of the result is the
    sum of the order-0 core integrals of all primitive quadruples. *)
Lemma compute4_ssss (e : t) (t1 t2 t3 t4 : Shell.t) :
  admissible4 e t1 t2 t3 t4 -> lmax4 t1 t2 t3 t4 = 0 ->
  exists buf e',
    compute e t1 t2 t3 t4 = Returned (buf, e') /\
    buf !! 0 =
      Some (Rsum (nprim4 t1 t2 t3 t4) (fun k =>
              LIBINT_T_SS_EREP_SS (quartet_record e t1 t2 t3 t4 k Libint_t_zero) 0)).
Proof.
  intros [Hn1 Hn2 Hn3 Hn4 Hd Hcap Hlmax Hready Hscr] Hl0.
  assert (Hfit : nprim4 t1 t2 t3 t4 <= length (primdata_ e)) by (unfold nprim4; lia).
  destruct (records_prepared e t1 t2 t3 t4 0 (primdata_ e) Hready Hfit Hd)
    as (pd0 & pd1 & pd2 & r0 & Hc & Ha & Hu & Hl2 & Hr0 & Hdepth & Hst & Hz & Hin).
  unfold lmax4 in Hl0.
  assert (Hl1 : Contraction.l (Shell.contr0 t1) = 0) by lia.
  assert (Hl2' : Contraction.l (Shell.contr0 t2) = 0) by lia.
  assert (Hl3 : Contraction.l (Shell.contr0 t3) = 0) by lia.
  assert (Hl4 : Contraction.l (Shell.contr0 t4) = 0) by lia.
  unfold compute. rewrite Hn1, Hn2, Hn3, Hn4, Hd.
  cbn [Nat.eqb andb N.eqb Pos.eqb assert mbind outcome_bind]. cbv zeta.
  rewrite Hl1, Hl2', Hl3, Hl4. cbn [Nat.add Nat.ltb Nat.leb].
  replace (if SHELLQUARTET_SET_STANDARD then false else false) with false
    by (destruct SHELLQUARTET_SET_STANDARD; reflexivity).
  cbn [canonical_order]. rewrite Hl1, Hl2', Hl3, Hl4. cbn [Nat.max Nat.eqb].
  replace (Z.of_nat 0 <=? lmax_ e)%Z with true by (symmetry; apply Z.leb_le; lia).
  cbn [assert mbind outcome_bind].
  rewrite Hc. cbn [mbind outcome_bind]. rewrite Ha. cbn [mbind outcome_bind].
  rewrite Hu. cbn [mbind outcome_bind].
  assert (Hpos2 : 0 < length pd2) by (apply lookup_lt_is_Some_1; eexists; exact Hr0).
  rewrite (accumulate_ssss_returns pd2 r0
             (fun k => LIBINT_T_SS_EREP_SS
                         (quartet_record e t1 t2 t3 t4 k Libint_t_zero) 0)
             Hr0 (Hz eq_refl)).
  2:{ rewrite Hdepth. intros k Hk. destruct (Hin k Hk) as (r & Hr & Hsame & _).
      exists r. split; [exact Hr|]. apply Hsame. lia. }
  cbn [mbind outcome_bind].
  match goal with |- context [update_at (<[0 := ?X]> pd2) 0 ?f] =>
    rewrite (update_at_Returned (<[0 := X]> pd2) 0 f X (set_targets0 (stack X) X));
      [| apply list_lookup_insert_eq; exact Hpos2 | reflexivity]
  end.
  cbn [mbind outcome_bind]. rewrite list_insert_insert_eq.
  rewrite (at_index_Returned _ 0 _ (list_lookup_insert_eq _ _ _ Hpos2)).
  cbn [mbind outcome_bind mret outcome_ret targets0 set_targets0 stack set_stack].
  eexists _, _. split; [reflexivity|].
  rewrite Hdepth. apply list_lookup_insert_eq. exact Hst.
Qed.

(** The (ss|ss) integral as the fourfold sum of the seeds in closed
    form. *)
Lemma compute4_ssss_closed (e : t) (t1 t2 t3 t4 : Shell.t) :
  admissible4 e t1 t2 t3 t4 -> lmax4 t1 t2 t3 t4 = 0 ->
  (forall p1 p2, p1 < Shell.nprim t1 -> p2 < Shell.nprim t2 ->
     (0 < Shell.alpha_at t1 p1 + Shell.alpha_at t2 p2)%R) ->
  (forall p3 p4, p3 < Shell.nprim t3 -> p4 < Shell.nprim t4 ->
     (0 < Shell.alpha_at t3 p3 + Shell.alpha_at t4 p4)%R) ->
  exists buf e',
    compute e t1 t2 t3 t4 = Returned (buf, e') /\
    buf !! 0 =
      Some (Rsum (Shell.nprim t1) (fun p1 =>
              Rsum (Shell.nprim t2) (fun p2 =>
                Rsum (Shell.nprim t3) (fun p3 =>
                  Rsum (Shell.nprim t4) (fun p4 =>
                    eri_seed e t1 t2 t3 t4 p1 p2 p3 p4 0 0))))).
Proof.
  intros Hadm Hl0 Hp Hq.
  destruct (compute4_ssss e t1 t2 t3 t4 Hadm Hl0) as (buf & e' & Hret & Hbuf).
  exists buf, e'. split; [exact Hret|]. rewrite Hbuf. f_equal.
  unfold nprim4, quartet_record. cbv zeta.
  set (n4 := Shell.nprim t4). set (n3 := Shell.nprim t3). set (n2 := Shell.nprim t2).
  set (S4 := fun p1 p2 p3 p4 =>
    LIBINT_T_SS_EREP_SS (compute_primdata e Libint_t_zero t1 t2 t3 t4 p1 p2 p3 p4) 0).
  etrans.
  { apply (Rsum_unrank (Shell.nprim t1) (n2 * (n3 * n4))
             (fun p1 j => S4 p1 (j `div` (n3 * n4)) ((j `mod` (n3 * n4)) `div` n4)
                            ((j `mod` (n3 * n4)) `mod` n4))). }
  apply Rsum_ext. intros p1 H1.
  etrans.
  { apply (Rsum_unrank n2 (n3 * n4)
             (fun p2 j => S4 p1 p2 (j `div` n4) (j `mod` n4))). }
  apply Rsum_ext. intros p2 H2.
  etrans.
  { apply (Rsum_unrank n3 n4 (fun p3 p4 => S4 p1 p2 p3 p4)). }
  apply Rsum_ext. intros p3 H3. apply Rsum_ext. intros p4 H4.
  unfold S4.
  rewrite (compute_primdata_erep e Libint_t_zero t1 t2 t3 t4 p1 p2 p3 p4
             (Hp p1 p2 H1 H2) (Hq p3 p4 H3 H4)).
  unfold lmax4 in Hl0.
  replace (Contraction.l (Shell.contr0 t1) + Contraction.l (Shell.contr0 t3) +
           Contraction.l (Shell.contr0 t2) + Contraction.l (Shell.contr0 t4) +
           N.to_nat (deriv_order_ e)) with 0
    by (rewrite (adm4_deriv _ _ _ _ _ Hadm); cbn; lia).
  reflexivity.
Qed.

(** X15.  For four s-type shells within the capacity, with
    [alpha + alpha' > 0] for every primitive pair of the bra and of the
    ket: [compute] returns, and the first entry of the result is the sum
    over all primitive quadruples of the order-0 value of the core function
    at [(T, rho)] times the factor
    [2 pi^(5/2) exp(- rhop AB^2) exp(- rhoq CD^2) /
     (gammap gammaq sqrt(gammap + gammaq)) * c0 c1 c2 c3].
    A shell without primitives gives 0. *)
Theorem two_body_ssss_integral (e : t) (t1 t2 t3 t4 : Shell.t) :
  admissible4 e t1 t2 t3 t4 -> lmax4 t1 t2 t3 t4 = 0 ->
  (forall p1 p2, p1 < Shell.nprim t1 -> p2 < Shell.nprim t2 ->
     (0 < Shell.alpha_at t1 p1 + Shell.alpha_at t2 p2)%R) ->
  (forall p3 p4, p3 < Shell.nprim t3 -> p4 < Shell.nprim t4 ->
     (0 < Shell.alpha_at t3 p3 + Shell.alpha_at t4 p4)%R) ->
  exists buf e',
    compute e t1 t2 t3 t4 = Returned (buf, e') /\
    buf !! 0 =
      Some (Rsum (Shell.nprim t1) (fun p1 =>
              Rsum (Shell.nprim t2) (fun p2 =>
                Rsum (Shell.nprim t3) (fun p3 =>
                  Rsum (Shell.nprim t4) (fun p4 =>
                    eri_seed e t1 t2 t3 t4 p1 p2 p3 p4 0 0))))) /\
    (Shell.nprim t1 = 0 \/ Shell.nprim t2 = 0 \/
     Shell.nprim t3 = 0 \/ Shell.nprim t4 = 0 -> buf !! 0 = Some 0%R).
Proof.
  intros Hadm Hl0 Hp Hq.
  destruct (compute4_ssss_closed e t1 t2 t3 t4 Hadm Hl0 Hp Hq)
    as (buf & e' & Hret & Hbuf).
  exists buf, e'. split; [exact Hret|]. split; [exact Hbuf|].
  intros Hempty. rewrite Hbuf. f_equal.
  destruct Hempty as [-> | Hempty]; [reflexivity|].
  transitivity (Rsum (Shell.nprim t1) (fun _ => 0%R)); [|apply Rsum_zero].
  apply Rsum_ext. intros p1 _.
  destruct Hempty as [-> | Hempty]; [reflexivity|].
  transitivity (Rsum (Shell.nprim t2) (fun _ => 0%R)); [|apply Rsum_zero].
  apply Rsum_ext. intros p2 _.
  destruct Hempty as [-> | ->]; [reflexivity|].
  transitivity (Rsum (Shell.nprim t3) (fun _ => 0%R)); [|apply Rsum_zero].
  apply Rsum_ext. intros p3 _. reflexivity.
Qed.








End SSSS.
(** ** The derived geminal as a function *)

Section GeminalFunction.
Context {C : Libint2Config} {L : Libint2Library}.
Import TwoBodyEngine.
Local Open Scope nat_scope.






End GeminalFunction.
(** ** Copies of a two-body engine *)

Section TwoBodyCopy.
Context {C : Libint2Config} {L : Libint2Library}.
Import TwoBodyEngine.
Local Open Scope nat_scope.




End TwoBodyCopy.
(** ** Copy assignment of a one-body engine *)

Section OneBodyAssign.
Context {C : Libint2Config} {L : Libint2Library}.
Import OneBodyEngine.
Local Open Scope nat_scope.

(** X19.  Copy assignment onto any engine [this], also a default one that
    cannot compute, from an engine of derivative order 0 whose [lmax_] is
    within [LIBINT2_MAX_AM_*]: the assigned engine has the type, [lmax_],
    charges and capacity of the source and none of the fields of [this];
    it admits every call the source admits and returns the same result. *)
Theorem one_body_assignment_computes_alike (this e : t) (s1 s2 : Shell.t) :
  init_contract -> kernel_contract -> transform_contract ->
  (lmax_ e <= max_am (type_ e))%Z ->
  admissible e s1 s2 ->
  exists e',
    assign this e = Returned e' /\
    type_ e' = type_ e /\ lmax_ e' = lmax_ e /\ q_ e' = q_ e /\
    deriv_order_ e' = deriv_order_ e /\
    length (primdata_ e') = length (primdata_ e) /\
    admissible e' s1 s2 /\
    exists buf e1 buf' e2,
      compute e s1 s2 = Returned (buf, e1) /\
      compute e' s1 s2 = Returned (buf', e2) /\
      result_view s1 s2 buf = result_view s1 s2 buf'.
Proof.
  intros [Hilen Hiready] HK HT Hmax Hadm.
  pose proof Hadm as [Hn1 Hn2 Hd Hty Hq Hwrap Hcap Hl Hready Hscr].
  assert (Hl0 : (0 <= lmax_ e)%Z) by lia.
  eexists. split.
  { unfold assign. apply initialize_returns; cbn [type_ lmax_ deriv_order_];
      [exact Hty | lia | exact Hd]. }
  cbn [type_ lmax_ deriv_order_ q_ primdata_ scratch_].
  rewrite Hilen, length_resize.
  do 3 (split; [reflexivity|]). split; [symmetry; exact Hd|]. split; [reflexivity|].
  match goal with |- admissible ?e0 _ _ /\ _ =>
    assert (Hadm' : admissible e0 s1 s2)
  end.
  { split; cbn [type_ lmax_ deriv_order_ q_ primdata_ scratch_]; try assumption.
    - reflexivity.
    - rewrite Hilen, length_resize. exact Hcap.
    - apply Hiready. rewrite length_resize.
      destruct Hready as (r0 & Hr0 & _). apply lookup_lt_is_Some_1. eexists. exact Hr0.
    - rewrite length_resize.
      rewrite (cartesian_size_single s1 Hn1), (cartesian_size_single s2 Hn2).
      unfold lmax_of in Hl. apply Nat.mul_le_mono; apply ncart_mono; lia. }
  split; [exact Hadm'|].
  destruct (compute_returns e s1 s2 Hadm (fun _ => HK))
    as (cart & tgt & e1 & Hret & Hc & _).
  destruct (compute_returns _ s1 s2 Hadm' (fun _ => HK))
    as (cart' & tgt' & e2 & Hret' & Hc' & _).
  eexists _, e1, _, e2. split; [exact Hret|]. split; [exact Hret'|].
  apply (result_view_determined s1 s2 cart cart' tgt tgt' (cartesian_entry e s1 s2) HT
           Hn1 Hn2 Hc).
  intros i j Hi Hj. rewrite (Hc' i j Hi Hj).
  rewrite (cartesian_entry_config e _ s1 s2 i j); [reflexivity | reflexivity | | reflexivity].
  cbn [deriv_order_]. symmetry. exact Hd.
Qed.

End OneBodyAssign.
(** ** Further concrete runs *)

Section Runs.
#[local] Existing Instance example_library.
Local Open Scope nat_scope.

Lemma unit_exponents_positive (A B : vec3) (p1 p2 : nat) :
  p1 < Shell.nprim (s_shell 1 1 A) -> p2 < Shell.nprim (s_shell 1 1 B) ->
  (0 < Shell.alpha_at (s_shell 1 1 A) p1 + Shell.alpha_at (s_shell 1 1 B) p2)%R.
Proof.
  intros H1 H2. cbn in H1, H2.
  destruct p1; [|lia]. destruct p2; [|lia].
  change (Shell.alpha_at (s_shell 1 1 A) 0) with 1%R.
  change (Shell.alpha_at (s_shell 1 1 B) 0) with 1%R. lra.
Qed.


Lemma small_coulomb_engine_admissible (A B C D : vec3) :
  admissible4 small_coulomb_engine
    (s_shell 1 1 A) (s_shell 1 1 B) (s_shell 1 1 C) (s_shell 1 1 D).
Proof.
  split;
    [ reflexivity | reflexivity | reflexivity | reflexivity | reflexivity
    | cbn; lia
    | unfold lmax4; cbn; lia
    | exists (set_stack [0%R] Libint_t_zero); split; [reflexivity | cbn; lia]
    | vm_compute; lia ].
Qed.


End Runs.

Lemma one_body_compute_rejects_witness :
  OneBodyEngine.compute (C := example_config) (L := example_library)
    small_overlap_engine s_shell_2prim s_shell_2prim = AssertionFailed.
Proof.
  apply (one_body_compute_rejects (C := example_config) (L := example_library)).
  right. right. split; [discriminate|]. left.
  split; [reflexivity | cbn; lia].
Defined.


Lemma two_body_constructor_rejects_witness :
  TwoBodyEngine.make (C := example_config) (L := example_library)
    Coulomb 1 5 0 [] = AssertionFailed.
Proof.
  apply (two_body_constructor_rejects (C := example_config) (L := example_library)).
  left. cbn. lia.
Defined.

Lemma two_body_derivative_engine_unusable_witness :
  exists e,
    TwoBodyEngine.make (C := deriv_config) (L := example_library) Coulomb 1 0 1 []
      = Returned e /\
    TwoBodyEngine.compute (C := deriv_config) (L := example_library) e
      (s_shell 1 1 origin) (s_shell 1 1 origin) (s_shell 1 1 origin) (s_shell 1 1 origin)
      = AssertionFailed.
Proof.
  eexists. split; [reflexivity|].
  apply (two_body_derivative_engine_unusable (C := deriv_config) (L := example_library)
           Coulomb 1 0 1 []).
  - reflexivity.
  - discriminate.
Defined.


Lemma two_body_compute_rejects_witness :
  TwoBodyEngine.compute (C := example_config) (L := example_library)
    small_coulomb_engine (p_shell 1 1 origin) (s_shell 1 1 origin)
    (s_shell 1 1 origin) (s_shell 1 1 origin) = AssertionFailed.
Proof.
  apply (two_body_compute_rejects (C := example_config) (L := example_library)).
  right. right. unfold lmax4. cbn. lia.
Defined.

Lemma two_body_over_capacity_out_of_bounds_witness :
  TwoBodyEngine.compute (C := example_config) (L := example_library)
    p_coulomb_engine s_shell_2prim (p_shell 1 1 origin)
    (s_shell 1 1 origin) (s_shell 1 1 origin) = OutOfBounds.
Proof.
  apply (two_body_over_capacity_out_of_bounds (C := example_config)
           (L := example_library));
    [reflexivity | reflexivity | reflexivity | reflexivity | reflexivity
    | unfold lmax4; cbn; lia | cbn; lia].
Defined.



Lemma two_body_ssss_integral_witness :
  exists buf e',
    TwoBodyEngine.compute (C := example_config) (L := example_library)
      small_coulomb_engine (s_shell 1 1 origin) (s_shell 1 1 (0, 0, 1))
      (s_shell 1 1 origin) (s_shell 1 1 (0, 0, 1)) = Returned (buf, e') /\
    is_Some (buf !! 0%nat).
Proof.
  destruct (two_body_ssss_integral (C := example_config) (L := example_library)
              small_coulomb_engine (s_shell 1 1 origin) (s_shell 1 1 (0, 0, 1))
              (s_shell 1 1 origin) (s_shell 1 1 (0, 0, 1))
              (small_coulomb_engine_admissible _ _ _ _) eq_refl
              (unit_exponents_positive _ _) (unit_exponents_positive _ _))
    as (buf & e' & Hret & Hv & _).
  exists buf, e'. split; [exact Hret|]. eexists. exact Hv.
Defined.




Lemma one_body_assignment_computes_alike_witness :
  exists e',
    OneBodyEngine.assign (C := example_config) (L := example_library)
      OneBodyEngine.default_engine small_nuclear_engine = Returned e' /\
    OneBodyEngine.q_ e' = OneBodyEngine.q_ small_nuclear_engine.
Proof.
  destruct (one_body_assignment_computes_alike (C := example_config)
              (L := example_library) OneBodyEngine.default_engine
              small_nuclear_engine (p_shell 1 1 origin) (s_shell 1 1 origin)
              example_init_contract example_kernel_contract example_transform_contract)
    as (e' & Hassign & _ & _ & Hq & _).
  - cbn. lia.
  - apply small_nuclear_engine_admissible.
  - exists e'. split; [exact Hassign | exact Hq].
Defined.
